(** * semantic-release: branch validation, tag resolution, next version
      and the release pipeline

    A shallow embedding of the core of the repository:
    - [lib/get-next-version.js] (the version calculator and its [inc] helper),
    - [lib/definitions/branches.js] (branch filters and validators),
    - [lib/branches/get-tags.js] and [getNote] of [lib/git.js],
    - [index.js] ([run], [logErrors], [callFail] and the default export).

    A JavaScript string is a [string]: the sequence of its code units,
    each one an [ascii], that is a code unit below 256.  The strings that
    hold a code unit from 256 on are outside this development; every
    operation on strings is the one of JavaScript on the strings that are
    inside.  [undefined]/[null] are written out where the code
    distinguishes them; a thrown exception is a [Throw] completion.  The
    [semver] package is an external dependency: the part of it the code
    calls is modelled in [Module Semver]. *)

From Stdlib Require Import String Ascii List NArith ZArith Bool Lia.
From Stdlib Require Import DecimalString DecimalFacts DecimalPos DecimalN.
Import ListNotations.
Set Warnings "-register-all".
Local Open Scope string_scope.
Local Open Scope list_scope.

(* ================================================================== *)
(** * JavaScript values and completions *)
(* ================================================================== *)

Module JS.

  (** The primitive values that the fields of a branch, a release or the
      options hold: [undefined], [null], a boolean or a string. *)
Inductive Value : Type :=
  | vundefined
  | vnull
  | vbool (b : bool)
  | vstr (s : string).

  (** What a template literal [`${v}`] prints. *)
Definition template (v : Value) : string :=
    match v with
    | vundefined => "undefined"
    | vnull => "null"
    | vbool true => "true"
    | vbool false => "false"
    | vstr s => s
    end.

  (** [Boolean(v)] *)
Definition truthy (v : Value) : bool :=
    match v with
    | vstr s => negb (s =? "")
    | vbool b => b
    | _ => false
    end.

  (** [a === b] *)
Definition strictEq (a b : Value) : bool :=
    match a, b with
    | vundefined, vundefined => true
    | vnull, vnull => true
    | vbool x, vbool y => Bool.eqb x y
    | vstr x, vstr y => (x =? y)
    | _, _ => false
    end.

  (** lodash [isNil] *)
Definition isNil (v : Value) : bool :=
    match v with
    | vundefined | vnull => true
    | _ => false
    end.

  (** A destructuring default: it applies to [undefined] only. *)
Definition orDefault (v d : Value) : Value :=
    match v with
    | vundefined => d
    | _ => v
    end.

  (** An error object, with the properties the code inspects.
      [err_details] tells whether [error.details] is truthy: the code
      tests it and hands the details to [terminalOutput], nothing more. *)
Record Error : Type := mkError {
    err_name : string;
    err_code : option string;
    err_semanticRelease : bool;
    err_exitCode : option Z;
    err_details : bool
  }.

  (** What a [throw] carries: one error, or an [AggregateError]. *)
Inductive Thrown : Type :=
  | Single (e : Error)
  | AggregateError (errors : list Error).

Inductive Completion (A : Type) : Type :=
  | Normal (a : A)
  | Throw (t : Thrown).
Arguments Normal {A} a.
Arguments Throw {A} t.

Definition TypeError : Thrown :=
    Single (mkError "TypeError" None false None false).

Definition SyntaxError : Thrown :=
    Single (mkError "SyntaxError" None false None false).

Definition bindC {A B} (c : Completion A) (k : A -> Completion B)
    : Completion B :=
    match c with
    | Normal a => k a
    | Throw t => Throw t
    end.

End JS.

Import JS.

(* ================================================================== *)
(** * Strings *)
(* ================================================================== *)

Module Str.

Definition is_digit (c : ascii) : bool :=
    (("0" <=? c) && (c <=? "9"))%char.

Definition is_letter (c : ascii) : bool :=
    ((("a" <=? c) && (c <=? "z")) || (("A" <=? c) && (c <=? "Z")))%char.

  (** [[a-zA-Z0-9-]] *)
Definition is_letterdashnumber (c : ascii) : bool :=
    is_digit c || is_letter c || (c =? "-")%char.

  (** The white space and the line terminators of JavaScript, which
      [String.prototype.trim] removes: among the code units below 256,
      U+0009 to U+000D, U+0020 and U+00A0. *)
Definition is_space (c : ascii) : bool :=
    let n := N_of_ascii c in
    ((n =? 32) || ((9 <=? n) && (n <=? 13)) || (n =? 160))%N.

Fixpoint forallb (p : ascii -> bool) (s : string) : bool :=
    match s with
    | EmptyString => true
    | String c r => p c && forallb p r
    end.

Fixpoint trimStart (s : string) : string :=
    match s with
    | EmptyString => EmptyString
    | String c r => if is_space c then trimStart r else s
    end.

Fixpoint trimEnd (s : string) : string :=
    match s with
    | EmptyString => EmptyString
    | String c r =>
        match trimEnd r with
        | EmptyString => if is_space c then EmptyString else String c EmptyString
        | r' => String c r'
        end
    end.

Definition trim (s : string) : string := trimEnd (trimStart s).

  (** Cut at the first occurrence of [sep]: the text before it, and the
      text after it when there is one. *)
Fixpoint cut (sep : ascii) (s : string) : string * option string :=
    match s with
    | EmptyString => (EmptyString, None)
    | String c r =>
        if (c =? sep)%char then (EmptyString, Some r)
        else let (a, b) := cut sep r in (String c a, b)
    end.

  (** [s.split(sep)] for a one-character separator. *)
Fixpoint split (sep : ascii) (s : string) : list string :=
    match s with
    | EmptyString => [EmptyString]
    | String c r =>
        if (c =? sep)%char then EmptyString :: split sep r
        else match split sep r with
             | h :: t => String c h :: t
             | [] => [String c EmptyString]
             end
    end.

  (** Remove [p] from the front of [s], when [s] starts with it. *)
Fixpoint stripPrefix (p s : string) : option string :=
    match p, s with
    | EmptyString, _ => Some s
    | String a p', String b s' =>
        if (a =? b)%char then stripPrefix p' s' else None
    | String _ _, EmptyString => None
    end.

  (** All-or-nothing map. *)
Fixpoint traverse {A B} (f : A -> option B) (l : list A) : option (list B) :=
    match l with
    | [] => Some []
    | x :: r =>
        match f x, traverse f r with
        | Some y, Some ys => Some (y :: ys)
        | _, _ => None
        end
    end.

Definition of_N (n : N) : string := NilEmpty.string_of_uint (N.to_uint n).

End Str.

(* ================================================================== *)
(** * The semver package (external dependency) *)
(* ================================================================== *)

(** The functions of the [semver] package that the sources call:
    [parse], [valid], [clean], [prerelease], [inc], [compare], [rcompare]
    and [gt], in strict (non-loose) mode and with no options, as every
    call site uses them.  A prerelease identifier made of digits is a
    number when it is below [MAX_SAFE_INTEGER]; the package keeps any other
    as the string it is, and compares two identifiers made of digits as
    numbers, after [Number(id)]: for an integer out of the safe range this
    is the nearest double, ties to even (as V8 rounds it). *)
Module Semver.

Definition MAX_SAFE_INTEGER : N := 9007199254740991.
Definition MAX_LENGTH : nat := 256.

  (** A prerelease identifier: a number or an alphanumeric string. *)
Inductive Ident : Type :=
  | INum (n : N)
  | IStr (s : string).

Record SemVer : Type := mkSemVer {
    major : N;
    minor : N;
    patch : N;
    prerelease : list Ident;
    build : list string
  }.

  (** A [0] followed by something. *)
Definition leadingZero (s : string) : bool :=
  match s with
  | String c (String _ _) => (c =? "0")%char
  | _ => false
  end.

  (** [0|[1-9]\d*] *)
Definition numericIdentifier (s : string) : option N :=
  if (s =? "") || leadingZero s then None
  else
    match NilEmpty.uint_of_string s with
    | Some d => Some (N.of_uint d)
    | None => None
    end.

Definition mainIdentifier (s : string) : option N :=
    match numericIdentifier s with
    | Some n => if (n <=? MAX_SAFE_INTEGER)%N then Some n else None
    | None => None
    end.

  (** [0|[1-9]\d*|\d*[a-zA-Z-][a-zA-Z0-9-]*]; then, in the constructor,
      [/^[0-9]+$/.test(id)] and [num < MAX_SAFE_INTEGER] make a number of
      the identifier, and any other identifier stays a string. *)
Definition prereleaseIdentifier (s : string) : option Ident :=
    match s with
    | EmptyString => None
    | _ =>
        if Str.forallb Str.is_digit s then
          match numericIdentifier s with
          | Some n =>
              if (n <? MAX_SAFE_INTEGER)%N then Some (INum n) else Some (IStr s)
          | None => None
          end
        else if Str.forallb Str.is_letterdashnumber s then Some (IStr s)
        else None
    end.

  (** [[0-9A-Za-z-]+] *)
Definition buildIdentifier (s : string) : option string :=
    match s with
    | EmptyString => None
    | _ => if Str.forallb Str.is_letterdashnumber s then Some s else None
    end.

Definition optionalPart {A} (f : string -> option A) (p : option string)
    : option (list A) :=
    match p with
    | None => Some []
    | Some s => Str.traverse f (Str.split "." s)
    end.

  (** [new SemVer(version)] wrapped in [parse]: [None] is [null]. *)
Definition parse (version : string) : option SemVer :=
    if (MAX_LENGTH <? String.length version)%nat then None
    else
      let s := Str.trim version in
      let s := match Str.stripPrefix "v" s with Some r => r | None => s end in
      let (mainpre, b) := Str.cut "+" s in
      let (main, p) := Str.cut "-" mainpre in
      match Str.split "." main with
      | [x; y; z] =>
          match mainIdentifier x, mainIdentifier y, mainIdentifier z,
                optionalPart prereleaseIdentifier p,
                optionalPart buildIdentifier b with
          | Some ma, Some mi, Some pa, Some pre, Some bu =>
              Some (mkSemVer ma mi pa pre bu)
          | _, _, _, _, _ => None
          end
      | _ => None
      end.

Definition identToString (i : Ident) : string :=
    match i with
    | INum n => Str.of_N n
    | IStr s => s
    end.

Definition formatMain (ma mi pa : N) : string :=
    Str.of_N ma ++ "." ++ Str.of_N mi ++ "." ++ Str.of_N pa.

  (** [SemVer.prototype.format], the [version] property. *)
Definition format (v : SemVer) : string :=
    formatMain (major v) (minor v) (patch v) ++
    match prerelease v with
    | [] => ""
    | l => "-" ++ String.concat "." (map identToString l)
    end.

Inductive ReleaseType : Type :=
  | Major | Premajor | Minor | Preminor | Patch | Prepatch | Prerelease.

  (** The loop of case ['pre']: add one to the rightmost numeric
      identifier; [None] when there is none. *)
Fixpoint bumpLastNumeric (l : list Ident) : option (list Ident) :=
    match l with
    | [] => None
    | x :: r =>
        match bumpLastNumeric r with
        | Some r' => Some (x :: r')
        | None =>
            match x with
            | INum n => Some (INum (n + 1) :: r)
            | IStr _ => None
            end
        end
    end.

  (** Case ['pre'] with no identifier and no identifier base (base 0). *)
Definition incPre (v : SemVer) : SemVer :=
    let pre :=
      match prerelease v with
      | [] => [INum 0]
      | l => match bumpLastNumeric l with
             | Some l' => l'
             | None => l ++ [INum 0]
             end
      end in
    mkSemVer (major v) (minor v) (patch v) pre (build v).

Definition isEmpty {A} (l : list A) : bool :=
    match l with [] => true | _ => false end.

Definition incPatch (v : SemVer) : SemVer :=
    mkSemVer (major v) (minor v)
      (if isEmpty (prerelease v) then patch v + 1 else patch v)
      [] (build v).

Definition incMinor (v : SemVer) : SemVer :=
    mkSemVer (major v)
      (if negb (patch v =? 0)%N || isEmpty (prerelease v)
       then minor v + 1 else minor v)
      0 [] (build v).

Definition incMajor (v : SemVer) : SemVer :=
    mkSemVer
      (if negb (minor v =? 0)%N || negb (patch v =? 0)%N
          || isEmpty (prerelease v)
       then major v + 1 else major v)
      0 0 [] (build v).

  (** [SemVer.prototype.inc(release)] *)
Definition incSemVer (v : SemVer) (release : ReleaseType) : SemVer :=
    match release with
    | Premajor => incPre (mkSemVer (major v + 1) 0 0 [] (build v))
    | Preminor => incPre (mkSemVer (major v) (minor v + 1) 0 [] (build v))
    | Prepatch =>
        incPre (incPatch (mkSemVer (major v) (minor v) (patch v) [] (build v)))
    | Prerelease =>
        if isEmpty (prerelease v) then incPre (incPatch v) else incPre v
    | Major => incMajor v
    | Minor => incMinor v
    | Patch => incPatch v
    end.

  (** [semver.inc(version, release)]: [None] is [null]. *)
Definition inc (version : string) (release : ReleaseType) : option string :=
    match parse version with
    | Some v => Some (format (incSemVer v release))
    | None => None
    end.

  (** [semver.valid] *)
Definition valid (version : string) : option string :=
    match parse version with
    | Some v => Some (format v)
    | None => None
    end.

Fixpoint dropEqV (s : string) : string :=
    match s with
    | String c r =>
        if ((c =? "=") || (c =? "v"))%char then dropEqV r else s
    | EmptyString => EmptyString
    end.

  (** [semver.clean]: trims, drops a leading run of [=] and [v]. *)
Definition clean (version : string) : option string :=
    valid (dropEqV (Str.trim version)).

  (** [semver.prerelease]: the identifiers when there are some. *)
Definition prereleaseOf (version : string) : option (list Ident) :=
    match parse version with
    | Some v => if isEmpty (prerelease v) then None else Some (prerelease v)
    | None => None
    end.

  (** [/^[0-9]+$/.test(id)] *)
Definition isNumeric (i : Ident) : bool :=
    match i with
    | INum _ => true
    | IStr s => negb (s =? "") && Str.forallb Str.is_digit s
    end.

  (** The double nearest to the integer [n], ties to even: [n] itself
      below 2^53, and its 53 leading bits, rounded, above.  An identifier
      has fewer than 256 digits, so the double is finite. *)
Definition toDouble (n : N) : N :=
    let bits := N.log2 n in
    if (bits <? 53)%N then n
    else
      let shift := (bits - 52)%N in
      let q := N.shiftr n shift in
      let r := N.land n (N.ones shift) in
      let half := N.shiftl 1 (shift - 1) in
      let q := if (half <? r)%N || ((r =? half)%N && N.odd q)
               then (q + 1)%N else q in
      N.shiftl q shift.

  (** [+id] for an identifier made of digits. *)
Definition toNumber (i : Ident) : N :=
    match i with
    | INum n => n
    | IStr s =>
        match NilEmpty.uint_of_string s with
        | Some d => toDouble (N.of_uint d)
        | None => 0%N
        end
    end.

  (** [compareIdentifiers] of internal/identifiers.js: two identifiers made
      of digits compare as numbers, one made of digits comes before one
      that is not, and two others compare as strings. *)
Definition compareIdentifiers (a b : Ident) : comparison :=
    if isNumeric a && isNumeric b then (toNumber a ?= toNumber b)%N
    else if isNumeric a then Lt
    else if isNumeric b then Gt
    else String.compare (identToString a) (identToString b).

  (** [a === b] on two identifiers: a number is never a string. *)
Definition identical (a b : Ident) : bool :=
    match a, b with
    | INum x, INum y => (x =? y)%N
    | IStr x, IStr y => (x =? y)
    | _, _ => false
    end.

  (** The loop of [comparePre]: identical identifiers are passed over, and
      the first two that are not decide, also when they compare equal. *)
Fixpoint compareIdentLists (a b : list Ident) : comparison :=
    match a, b with
    | [], [] => Eq
    | _ :: _, [] => Gt
    | [], _ :: _ => Lt
    | x :: a', y :: b' =>
        if identical x y then compareIdentLists a' b'
        else compareIdentifiers x y
    end.

Definition comparePre (a b : SemVer) : comparison :=
    match prerelease a, prerelease b with
    | _ :: _, [] => Lt
    | [], _ :: _ => Gt
    | [], [] => Eq
    | pa, pb => compareIdentLists pa pb
    end.

Definition compareMain (a b : SemVer) : comparison :=
    match (major a ?= major b)%N with
    | Eq => match (minor a ?= minor b)%N with
            | Eq => (patch a ?= patch b)%N
            | c => c
            end
    | c => c
    end.

Definition compareSemVer (a b : SemVer) : comparison :=
    match compareMain a b with
    | Eq => comparePre a b
    | c => c
    end.

  (** [semver.compare]: constructs both versions, so it throws on a
      string that is not a version. *)
Definition compare (a b : string) : Completion comparison :=
    match parse a, parse b with
    | Some x, Some y => Normal (compareSemVer x y)
    | _, _ => Throw TypeError
    end.

Definition rcompare (a b : string) : Completion comparison := compare b a.

Definition gt (a b : string) : Completion bool :=
    bindC (compare a b)
      (fun c => Normal match c with Gt => true | _ => false end).

End Semver.

(* ================================================================== *)
(** * Data model *)
(* ================================================================== *)

(** The three branch policies. *)
Module BranchType.
Inductive t : Type := release | maintenance | prerelease.

Definition eqb (a b : t) : bool :=
    match a, b with
    | release, release | maintenance, maintenance | prerelease, prerelease => true
    | _, _ => false
    end.
End BranchType.

(** [{ gitTag, version, channels }]; [C] is the type of [channels]. *)
Module Tag.
Record t (C : Type) : Type := mk {
    gitTag : string;
    version : string;
    channels : C
  }.
Arguments mk {C} _ _ _.
Arguments gitTag {C} _.
Arguments version {C} _.
Arguments channels {C} _.
End Tag.

(** A branch record.  [type] is absent ([None]) until the branch is
    classified; [range], [prerelease] and [channel] are as declared
    ([string], [boolean] or absent).  [C] is the type of the [channels]
    of its tags. *)
Module Branch.
Record t (C : Type) : Type := mk {
    name : string;
    type : option BranchType.t;
    range : Value;
    prerelease : Value;
    channel : Value;
    mergeRange : Value;
    accept : list Semver.ReleaseType;
    tags : list (Tag.t C)
  }.
Arguments mk {C} _ _ _ _ _ _ _ _.
Arguments name {C} _.
Arguments type {C} _.
Arguments range {C} _.
Arguments prerelease {C} _.
Arguments channel {C} _.
Arguments mergeRange {C} _.
Arguments accept {C} _.
Arguments tags {C} _.
End Branch.

Module LastRelease.
Record t : Type := mk {
    version : Value;
    gitTag : Value;
    gitHead : Value;
    channels : list Value
  }.
End LastRelease.

(** The options the version calculator and the validators read. *)
Module Options.
Record t : Type := mk {
    respectPackageJsonVersion : Value;
    firstRelease : Value;
    prereleaseIdentifierBase : Value
  }.
End Options.

(* ================================================================== *)
(** * lib/utils.js *)
(* ================================================================== *)

Module Utils.

  (** Modelled from the spec: [tagsToVersions] of lib/utils.js is not
      under src/.  It gives the versions of "this branch's resolved tag
      set" (section 4.4), in the order of the tags. *)
Definition tagsToVersions {C} (tags : list (Tag.t C)) : list string :=
    map Tag.version tags.

  (** Modelled from the spec: [isSameChannel] of lib/utils.js is not under
      src/.  A channel is "a named distribution track (or the unnamed
      default)" and "null denotes the default/unnamed distribution
      channel": two channels are the same when they carry the same name or
      when neither carries one. *)
Definition isSameChannel (channel otherChannel : Value) : bool :=
    strictEq channel otherChannel
    || (negb (truthy channel) && negb (truthy otherChannel)).

  (** Modelled from the spec: [highest] of lib/utils.js is not under src/.
      "The semver-greater one wins" (section 4.4), by standard semver
      precedence; when only one of the two is there, it is the result. *)
Definition highest (version1 version2 : Value) : Completion Value :=
    match version1, version2 with
    | vstr a, vstr b =>
        if (a =? "") then Normal version2
        else if (b =? "") then Normal version1
        else bindC (Semver.gt a b)
               (fun g => Normal (if g then version1 else version2))
    | _, _ => Normal (if truthy version1 then version1 else version2)
    end.

  (** The first of the semver-highest versions of [best :: rest]. *)
Fixpoint latestOf (best : string) (rest : list string) : Completion string :=
    match rest with
    | [] => Normal best
    | v :: r =>
        bindC (Semver.gt v best)
          (fun g => latestOf (if g then v else best) r)
    end.

  (** Modelled from the spec: [getLatestVersion] of lib/utils.js is not
      under src/.  It is the highest version known among the given ones
      (section 4.4), by semver precedence.  The call site in
      get-next-version.js passes [withPrerelease: true], and the test
      "Increase version for release on prerelease branch when there is no
      regular releases on other branches" has prerelease tags only and
      expects a result computed from them: with the flag, prerelease
      versions take part, suffix included.  No version gives [undefined]. *)
Definition getLatestVersion (versions : list string) (withPrerelease : bool)
    : Completion Value :=
    match
      filter (fun v =>
                withPrerelease
                || match Semver.prereleaseOf v with
                   | Some _ => false
                   | None => true
                   end) versions
    with
    | [] => Normal vundefined
    | v :: r => bindC (latestOf v r) (fun s => Normal (vstr s))
    end.

End Utils.

(* ================================================================== *)
(** * lib/get-next-version.js *)
(* ================================================================== *)

Module NextVersion.

Definition DEFAULT_FIRST_RELEASE : string := "1.0.0".
Definition DEFAULT_PRERELEASE_IDENTIFIER_BASE : string := "1".

  (** [{ major: "minor", minor: "patch", patch: "patch" }[release] ?? release] *)
Definition majorZeroRelease (release : Semver.ReleaseType)
    : Semver.ReleaseType :=
    match release with
    | Semver.Major => Semver.Minor
    | Semver.Minor => Semver.Patch
    | Semver.Patch => Semver.Patch
    | other => other
    end.

  (** [semver.parse] of a value: only a string can parse. *)
Definition parseValue (version : Value) : option Semver.SemVer :=
    match version with
    | vstr s => Semver.parse s
    | _ => None
    end.

  (** [inc(version, release)]: every call site leaves [identifier] and
      [prereleaseIdentifierBase] undefined.  Destructuring [null] throws. *)
Definition inc (version : Value) (release : Semver.ReleaseType)
    : Completion Value :=
    match version, parseValue version with
    | vstr s, Some v =>
        let release :=
          if (Semver.major v =? 0)%N then majorZeroRelease release else release in
        Normal match Semver.inc s release with
               | Some r => vstr r
               | None => vnull
               end
    | _, _ => Throw TypeError
    end.

Record NextRelease : Type := mkNextRelease {
    type : Semver.ReleaseType;
    channel : Value
  }.

Record Context (C : Type) : Type := mkContext {
    branch : Branch.t C;
    nextRelease : NextRelease;
    lastRelease : LastRelease.t;
    packageVersion : Value;
    options : Options.t
  }.
Arguments mkContext {C} _ _ _ _ _.
Arguments branch {C} _.
Arguments nextRelease {C} _.
Arguments lastRelease {C} _.
Arguments packageVersion {C} _.
Arguments options {C} _.

  (** [`${v}-${branch.prerelease}.${prereleaseIdentifierBase}`] *)
Definition withPrereleaseSuffix (v prerelease base : Value) : Value :=
    vstr (template v ++ "-" ++ template prerelease ++ "." ++ template base).

  (** The default export.  The calls to the logger are left out. *)
Definition getNextVersion {C} (ctx : Context C) : Completion Value :=
    let branch := branch ctx in
    let type := type (nextRelease ctx) in
    let channel := channel (nextRelease ctx) in
    let lastRelease := lastRelease ctx in
    let respectPackageJsonVersion :=
      orDefault (Options.respectPackageJsonVersion (options ctx)) (vbool false) in
    let firstRelease :=
      orDefault (Options.firstRelease (options ctx)) (vstr DEFAULT_FIRST_RELEASE) in
    let prereleaseIdentifierBase :=
      orDefault (Options.prereleaseIdentifierBase (options ctx))
        (vstr DEFAULT_PRERELEASE_IDENTIFIER_BASE) in
    let isPrereleaseBranch :=
      match Branch.type branch with
      | Some BranchType.prerelease => true
      | _ => false
      end in
    if truthy (LastRelease.version lastRelease) then
      match parseValue (LastRelease.version lastRelease) with
      | None => Throw TypeError
      | Some v =>
          if isPrereleaseBranch then
            if match LastRelease.version lastRelease with
               | vstr s =>
                   match Semver.prereleaseOf s with
                   | Some _ => true
                   | None => false
                   end
               | _ => false
               end
               && existsb (fun lastReleaseChannel =>
                             Utils.isSameChannel lastReleaseChannel channel)
                    (LastRelease.channels lastRelease)
            then
              bindC (inc (LastRelease.version lastRelease) Semver.Prerelease)
                (fun continued =>
              bindC (Utils.getLatestVersion
                       (Utils.tagsToVersions (Branch.tags branch)) true) (fun latest =>
              bindC (inc latest type) (fun bumped =>
              Utils.highest continued
                (withPrereleaseSuffix bumped (Branch.prerelease branch)
                   prereleaseIdentifierBase))))
            else
              bindC (inc (vstr (Semver.formatMain (Semver.major v) (Semver.minor v)
                                 (Semver.patch v))) type)
                (fun bumped =>
                   Normal (withPrereleaseSuffix bumped (Branch.prerelease branch)
                             prereleaseIdentifierBase))
          else inc (LastRelease.version lastRelease) type
      end
    else
      let firstRelease :=
        if truthy respectPackageJsonVersion then packageVersion ctx
        else firstRelease in
      Normal (if isPrereleaseBranch
              then withPrereleaseSuffix firstRelease (Branch.prerelease branch)
                     prereleaseIdentifierBase
              else firstRelease).

End NextVersion.

(* ================================================================== *)
(** * lib/definitions/branches.js *)
(* ================================================================== *)

Module Branches.

  (** lodash [uniqBy]: the elements whose key was not seen before, in
      order; [seen] holds the keys met so far. *)
Fixpoint uniqByFrom {A K} (eqb : K -> K -> bool) (iteratee : A -> K)
           (seen : list K) (l : list A) : list A :=
    match l with
    | [] => []
    | x :: r =>
        if existsb (eqb (iteratee x)) seen
        then uniqByFrom eqb iteratee seen r
        else x :: uniqByFrom eqb iteratee (iteratee x :: seen) r
    end.

Definition uniqBy {A K} (eqb : K -> K -> bool) (iteratee : A -> K)
             (l : list A) : list A :=
    uniqByFrom eqb iteratee [] l.

  (** Equality of two results of [semver.validRange]: a string or [null]. *)
Definition validRange_eqb (a b : option string) : bool :=
    match a, b with
    | Some x, Some y => (x =? y)
    | None, None => true
    | _, _ => false
    end.

  (** The second argument of [prerelease.branchValidator];
      [options] may be absent. *)
Record ValidatorContext : Type := mkValidatorContext {
    packageVersion : Value;
    options : option Options.t
  }.

  (** One entry of the definitions: [filter], the optional per-branch
      [branchValidator] and the [branchesValidator] of the category. *)
Record Definition_ (C : Type) : Type := mkDefinition {
    filter : Branch.t C -> bool;
    branchValidator :
      option (Branch.t C -> option ValidatorContext -> bool);
    branchesValidator : list (Branch.t C) -> bool
  }.
Arguments mkDefinition {C} _ _ _.
Arguments filter {C} _ _.
Arguments branchValidator {C} _.
Arguments branchesValidator {C} _ _.

Section Definitions.

Context {C : Type}.

    (** [isMaintenanceRange] of lib/utils.js and [semver.validRange] are
        not under src/: the definitions take them as parameters. *)
Variable isMaintenanceRange : Value -> bool.
Variable validRange : Value -> option string.

Definition maintenance : Definition_ C :=
      mkDefinition
        (fun b =>
           (negb (isNil (Branch.range b))
            && negb (strictEq (Branch.range b) (vbool false)))
           || isMaintenanceRange (vstr (Branch.name b)))
        (Some (fun b _ =>
           if isNil (Branch.range b) then true
           else isMaintenanceRange (Branch.range b)))
        (fun branches =>
           (List.length
              (uniqBy validRange_eqb (fun b => validRange (Branch.range b))
                 branches)
            =? List.length branches)%nat).

Definition prerelease : Definition_ C :=
      mkDefinition
        (fun b =>
           negb (isNil (Branch.prerelease b))
           && negb (strictEq (Branch.prerelease b) (vbool false)))
        (Some (fun b ctx =>
           let packageVersion :=
             match ctx with
             | Some c => packageVersion c
             | None => vundefined
             end in
           let opts :=
             match ctx with
             | Some c =>
                 match options c with
                 | Some o => o
                 | None => Options.mk vundefined vundefined vundefined
                 end
             | None => Options.mk vundefined vundefined vundefined
             end in
           let respectPackageJsonVersion :=
             orDefault (Options.respectPackageJsonVersion opts) (vbool false) in
           let firstRelease :=
             orDefault (Options.firstRelease opts)
               (vstr NextVersion.DEFAULT_FIRST_RELEASE) in
           let prereleaseIdentifierBase :=
             orDefault (Options.prereleaseIdentifierBase opts)
               (vstr NextVersion.DEFAULT_PRERELEASE_IDENTIFIER_BASE) in
           let firstRelease :=
             if truthy respectPackageJsonVersion then packageVersion
             else firstRelease in
           truthy (Branch.prerelease b)
           && match
                Semver.valid
                  (template firstRelease ++ "-"
                   ++ (if strictEq (Branch.prerelease b) (vbool true)
                       then Branch.name b
                       else template (Branch.prerelease b))
                   ++ "." ++ template prereleaseIdentifierBase)
              with
              | Some v => negb (v =? "")
              | None => false
              end))
        (fun branches =>
           (List.length (uniqBy strictEq Branch.prerelease branches)
            =? List.length branches)%nat).

Definition release : Definition_ C :=
      mkDefinition
        (fun b => negb (filter maintenance b) && negb (filter prerelease b))
        None
        (fun branches =>
           (List.length branches <=? 3)%nat && (0 <? List.length branches)%nat).

    (** The definition of a category. *)
Definition definitionOf (ty : BranchType.t) : Definition_ C :=
      match ty with
      | BranchType.maintenance => maintenance
      | BranchType.prerelease => prerelease
      | BranchType.release => release
      end.

    (** The branches classified as [ty]. *)
Definition ofType (ty : BranchType.t) (branches : list (Branch.t C))
      : list (Branch.t C) :=
      List.filter
        (fun b => match Branch.type b with
                  | Some ty' => BranchType.eqb ty' ty
                  | None => false
                  end) branches.

    (** The per-branch validator of a category, when it has one. *)
Definition branchPasses (ctx : option ValidatorContext) (ty : BranchType.t)
           (b : Branch.t C) : bool :=
      match branchValidator (definitionOf ty) with
      | Some validator => validator b ctx
      | None => true
      end.

    (** Modelled from the spec: the normalization of lib/branches/ is not
        under src/.  Section 3: the range of a maintenance branch is
        "inferred from name if name itself matches that shape"; a branch
        is a maintenance branch when it "has an explicit non-false range,
        or name itself matches" (section 4.2), so the explicit range is
        the range when there is one, and the name when there is none. *)
Definition inferredRange (b : Branch.t C) : Value :=
      if negb (isNil (Branch.range b))
         && negb (strictEq (Branch.range b) (vbool false))
      then Branch.range b
      else if isMaintenanceRange (vstr (Branch.name b))
           then vstr (Branch.name b)
           else Branch.range b.

    (** Modelled from the spec: section 3, the prerelease of a branch "is
        an identifier string (or true, meaning use the branch name as
        identifier)". *)
Definition identifierOf (b : Branch.t C) : Value :=
      if strictEq (Branch.prerelease b) (vbool true)
      then vstr (Branch.name b)
      else Branch.prerelease b.

    (** Modelled from the spec: the branch as the validator of its
        category sees it, with its inferred range or with its identifier
        (section 3). *)
Definition normalized (ty : BranchType.t) (b : Branch.t C) : Branch.t C :=
      match ty with
      | BranchType.maintenance =>
          Branch.mk (Branch.name b) (Branch.type b) (inferredRange b)
            (Branch.prerelease b) (Branch.channel b) (Branch.mergeRange b)
            (Branch.accept b) (Branch.tags b)
      | BranchType.prerelease =>
          Branch.mk (Branch.name b) (Branch.type b) (Branch.range b)
            (identifierOf b) (Branch.channel b) (Branch.mergeRange b)
            (Branch.accept b) (Branch.tags b)
      | BranchType.release => b
      end.

    (** Modelled from the spec: the driver lib/branches/index.js, which
        runs the validators, is not under src/.  Section 4.2: every branch
        of a category goes through the validator of a branch, as declared,
        and the branches of the category go together through the validator
        of the category, which compares ranges and identifiers (section
        3): the inferred ranges and the identifiers of [normalized]. *)
Definition categoryPasses (ctx : option ValidatorContext)
               (ty : BranchType.t) (branches : list (Branch.t C)) : bool :=
      let branchesOfType := ofType ty branches in
      List.forallb (branchPasses ctx ty) branchesOfType
      && branchesValidator (definitionOf ty)
           (map (normalized ty) branchesOfType).

    (** Modelled from the spec: section 4.2, each category has its
        validators, and "failure of any validator is a fatal configuration
        error"; a branch set is accepted when every validator of every
        category passes. *)
Definition accepted (ctx : option ValidatorContext)
               (branches : list (Branch.t C)) : bool :=
      categoryPasses ctx BranchType.maintenance branches
      && categoryPasses ctx BranchType.prerelease branches
      && categoryPasses ctx BranchType.release branches.

End Definitions.

  (** Modelled from the spec: [isMaintenanceRange] of lib/utils.js is not
      under src/.  A range is "of form N.N.x / N.x" (section 3), N a
      number. *)
Definition isMaintenanceRange (range : Value) : bool :=
    match range with
    | vstr s =>
        match Str.split "." s with
        | [a; b] =>
            negb (a =? "") && Str.forallb Str.is_digit a && (b =? "x")
        | [a; b; c] =>
            negb (a =? "") && Str.forallb Str.is_digit a
            && negb (b =? "") && Str.forallb Str.is_digit b && (c =? "x")
        | _ => false
        end
    | _ => false
    end.

End Branches.

(* ================================================================== *)
(** * JSON values and lodash merge *)
(* ================================================================== *)

Module Json.

(** What [JSON.parse] returns.  Numbers play no part in the code; integers
    stand for them. *)
Inductive t : Type :=
| JNull
| JBool (b : bool)
| JNum (z : Z)
| JStr (s : string)
| JArr (elements : list t)
| JObj (fields : list (string * t)).

(** [Boolean(v)] *)
Definition truthy (v : t) : bool :=
  match v with
  | JNull => false
  | JBool b => b
  | JNum z => negb (z =? 0)%Z
  | JStr s => negb (s =? "")
  | JArr _ | JObj _ => true
  end.

(** [object[key]] on the fields of an object: [None] is [undefined]. *)
Fixpoint lookup (key : string) (fields : list (string * t)) : option t :=
  match fields with
  | [] => None
  | (k, v) :: r => if (k =? key) then Some v else lookup key r
  end.

(** [object[key] = value]: in place when the key is there, else added
    after the others. *)
Fixpoint assign (key : string) (value : t) (fields : list (string * t))
  : list (string * t) :=
  match fields with
  | [] => [(key, value)]
  | (k, v) :: r =>
      if (k =? key) then (k, value) :: r else (k, v) :: assign key value r
  end.

(** [value.key], the property of any parsed value: only an object has
    named fields. *)
Definition property (key : string) (v : t) : option t :=
  match v with
  | JObj fields => lookup key fields
  | _ => None
  end.

(** lodash [isArrayLike] for an object: it carries a numeric [length]. *)
Definition arrayLikeObject (fields : list (string * t)) : bool :=
  match lookup "length" fields with
  | Some (JNum z) => (0 <=? z)%Z
  | _ => false
  end.

(** lodash [baseMerge] / [baseMergeDeep] on parsed JSON.  [mergeValue o s]
    is the value a key (or index) holds after the merge, from the value
    [o] it held in the destination ([None] when absent) and the value [s]
    of the source:
    - a primitive source value (also [null]) is assigned;
    - an array merges, index by index, into an array (into a new one when
      the destination holds none);
    - an object merges, key by key, into an object (into a new one when
      the destination holds a primitive or nothing).
    [None] marks the results that are no JSON value: the fields of an
    object landing on an array, an array landing on an array-like object,
    and the key [__proto__], which lodash treats apart. *)
Fixpoint mergeValue (objValue : option t) (srcValue : t) {struct srcValue}
  : option t :=
  let mergeElements :=
    fix mergeElements (dst src : list t) {struct src} : option (list t) :=
      match src with
      | [] => Some dst
      | s :: src' =>
          let (o, dst') :=
            match dst with
            | [] => (None, [])
            | d :: dst' => (Some d, dst')
            end in
          match mergeValue o s, mergeElements dst' src' with
          | Some v, Some r => Some (v :: r)
          | _, _ => None
          end
      end in
  let mergeFields :=
    fix mergeFields (dst : list (string * t)) (src : list (string * t))
        {struct src} : option (list (string * t)) :=
      match src with
      | [] => Some dst
      | (k, s) :: src' =>
          if (k =? "__proto__") then None
          else
            match mergeValue (lookup k dst) s with
            | Some v => mergeFields (assign k v dst) src'
            | None => None
            end
      end in
  match srcValue with
  | JArr src =>
      match objValue with
      | Some (JArr dst) => option_map JArr (mergeElements dst src)
      | Some (JObj fields) =>
          if arrayLikeObject fields then None
          else option_map JArr (mergeElements [] src)
      | _ => option_map JArr (mergeElements [] src)
      end
  | JObj src =>
      match objValue with
      | Some (JObj dst) => option_map JObj (mergeFields dst src)
      | Some (JArr _) => None
      | _ => option_map JObj (mergeFields [] src)
      end
  | primitive => Some primitive
  end.

(** The index-wise merge of an array into an array. *)
Fixpoint mergeElements (dst src : list t) : option (list t) :=
  match src with
  | [] => Some dst
  | s :: src' =>
      let (o, dst') :=
        match dst with
        | [] => (None, [])
        | d :: dst' => (Some d, dst')
        end in
      match mergeValue o s, mergeElements dst' src' with
      | Some v, Some r => Some (v :: r)
      | _, _ => None
      end
  end.

(** The key-wise merge of the fields of an object into an object. *)
Fixpoint mergeFields (dst src : list (string * t))
  : option (list (string * t)) :=
  match src with
  | [] => Some dst
  | (k, s) :: src' =>
      if (k =? "__proto__") then None
      else
        match mergeValue (lookup k dst) s with
        | Some v => mergeFields (assign k v dst) src'
        | None => None
        end
  end.

(** lodash [merge(object, source)] on two parsed notes.  [Object(null)] is
    a new object and a falsy source is skipped.  The other values that are
    not plain objects give no JSON value ([None]): a primitive destination
    is boxed, and an array or a string as source spreads its indices. *)
Definition merge (object source : t) : option t :=
  let destination :=
    match object with
    | JNull => Some []
    | JObj fields => Some fields
    | _ => None
    end in
  match destination with
  | None => None
  | Some dst =>
      match source with
      | JObj src => option_map JObj (mergeFields dst src)
      | JArr _ => None
      | JStr s => if (s =? "") then Some (JObj dst) else None
      | JNull | JBool _ | JNum _ => Some (JObj dst)
      end
  end.

End Json.

(* ================================================================== *)
(** * lib/git.js: tags and notes *)
(* ================================================================== *)

Module Git.

Definition GIT_NOTE_REF : string := "semantic-release".

Definition newline : ascii := ascii_of_nat 10.

Section Repository.

(** The repository as the [git] subprocess shows it, and [JSON.parse]:
    - [gitTagMerged branch] is the outcome of [git tag --merged branch]
      (its standard output, or the error of the failed command);
    - [gitNotesShow notesRef ref] is the outcome of
      [git notes --ref notesRef show ref];
    - [JSON_parse text] is [None] when [JSON.parse] throws. *)
Variable gitTagMerged : string -> Completion string.
Variable gitNotesShow : string -> string -> Completion string.
Variable JSON_parse : string -> option Json.t.

(** [getTags]: the non-empty trimmed lines of the output. *)
Definition getTags (branch : string) : Completion (list string) :=
  bindC (gitTagMerged branch)
    (fun stdout =>
       Normal (List.filter (fun tag => negb (tag =? ""))
                 (map Str.trim (Str.split newline stdout)))).

(** The [exitCode] of what was thrown. *)
Definition exitCodeOf (t : Thrown) : option Z :=
  match t with
  | Single e => err_exitCode e
  | AggregateError _ => None
  end.

Definition exitCodeIs1 (t : Thrown) : bool :=
  match exitCodeOf t with
  | Some 1%Z => true
  | _ => false
  end.

(** [handleError] of [getNote], on the rejection of a [git notes show]. *)
Definition handleError (error : Thrown) : Completion string :=
  if exitCodeIs1 error then Normal "{}" else Throw error.

(** [(await execa(...).catch(handleError)).stdout] *)
Definition showNote (notesRef ref : string) : Completion string :=
  match gitNotesShow notesRef ref with
  | Normal stdout => Normal stdout
  | Throw error => handleError error
  end.

Definition parseJSON (text : string) : Completion Json.t :=
  match JSON_parse text with
  | Some v => Normal v
  | None => Throw SyntaxError
  end.

(** [JSON.parse((await execa(...).catch(handleError)).stdout)], one
    argument of [merge]. *)
Definition readNote (notesRef ref : string) : Completion Json.t :=
  bindC (showNote notesRef ref) parseJSON.

(** [getNote].  The arguments of [merge] are evaluated in order: the
    legacy note is shown and parsed, then the note of the tag.  The result
    [Normal None] is a merged note that is no JSON value (see
    [Json.merge]). *)
Definition getNote (ref : string) : Completion (option Json.t) :=
  let body :=
    bindC (readNote GIT_NOTE_REF ref) (fun legacy =>
    bindC (readNote (GIT_NOTE_REF ++ "-" ++ ref) ref) (fun current =>
    Normal (Json.merge legacy current))) in
  match body with
  | Normal note => Normal note
  | Throw error =>
      if exitCodeIs1 error then Normal (Some (Json.JObj [])) else Throw error
  end.

End Repository.

End Git.

(* ================================================================== *)
(** * lib/branches/get-tags.js *)
(* ================================================================== *)

Module GetTags.

(** The characters that [.] does not match. *)
Definition isLineTerminator (c : ascii) : bool :=
  let n := N_of_ascii c in ((n =? 10) || (n =? 13))%N.

Definition startsWith (p s : string) : bool :=
  match Str.stripPrefix p s with
  | Some _ => true
  | None => false
  end.

(** [(.+)] followed by the literal [post], matched from the start of [s]:
    the longest capture wins. *)
Fixpoint capture (post : string) (s : string) : option string :=
  match s with
  | EmptyString => None
  | String c r =>
      if isLineTerminator c then None
      else
        match capture post r with
        | Some v => Some (String c v)
        | None => if startsWith post r then Some (String c EmptyString) else None
        end
  end.

(** [const [, version] = tag.match(tagRegexp) || []], where [rendered] is
    [template(tagFormat)({ version: " " })] and [tagRegexp] is
    [`^${escapeRegExp(rendered).replace(" ", "(.+)")}`]: [escapeRegExp]
    makes every character of [rendered] literal, and the first space
    becomes the group.  [None] is [undefined]. *)
Definition matchVersion (rendered tag : string) : option string :=
  match Str.cut " " rendered with
  | (pre, Some post) =>
      match Str.stripPrefix pre tag with
      | Some rest => capture post rest
      | None => None
      end
  | (_, None) => None
  end.

(** One or more digits at the front of [s], then the rest. *)
Fixpoint dropDigits (s : string) : string :=
  match s with
  | String c r => if Str.is_digit c then dropDigits r else s
  | EmptyString => EmptyString
  end.

Definition pullRefHere (s : string) : bool :=
  match Str.stripPrefix "refs/pull/" s with
  | Some (String c r) =>
      Str.is_digit c && startsWith "/merge" (dropDigits r)
  | _ => false
  end.

(** [/refs\/pull\/\d+\/merge/.test(name)] *)
Fixpoint isPullRef (name : string) : bool :=
  pullRefHere name
  || match name with
     | String _ r => isPullRef r
     | EmptyString => false
     end.

Section Resolver.

Variable gitTagMerged : string -> Completion string.
Variable gitNotesShow : string -> string -> Completion string.
Variable JSON_parse : string -> option Json.t.

(** [template(tagFormat)({ version: " " })] of lodash, taken as given. *)
Variable rendered : string.

(** [version && semver.valid(semver.clean(version))] *)
Definition keeps (tag : string) : option string :=
  match matchVersion rendered tag with
  | Some version =>
      if negb (version =? "")
         && match Semver.clean version with
            | Some v => negb (v =? "")
            | None => false
            end
      then Some version
      else None
  | None => None
  end.

(** [note.channels || [null]] *)
Definition channelsOf (note : Json.t) : Json.t :=
  match Json.property "channels" note with
  | Some channels =>
      if Json.truthy channels then channels else Json.JArr [Json.JNull]
  | None => Json.JArr [Json.JNull]
  end.

(** The inner [pReduce]: the tags of one branch, in order.  [Normal None]
    is a result that holds a note that is no JSON value. *)
Fixpoint resolveTags (branchTags : list (Tag.t Json.t)) (tags : list string)
  : Completion (option (list (Tag.t Json.t))) :=
  match tags with
  | [] => Normal (Some branchTags)
  | tag :: rest =>
      match keeps tag with
      | Some version =>
          bindC (Git.getNote gitNotesShow JSON_parse tag) (fun note =>
            match note with
            | Some note =>
                resolveTags
                  (branchTags ++ [Tag.mk tag version (channelsOf note)]) rest
            | None => Normal None
            end)
      | None => resolveTags branchTags rest
      end
  end.

(** [{ ...branch, tags: branchTags }] *)
Definition withTags {C} (branch : Branch.t C) (branchTags : list (Tag.t Json.t))
  : Branch.t Json.t :=
  Branch.mk (Branch.name branch) (Branch.type branch) (Branch.range branch)
    (Branch.prerelease branch) (Branch.channel branch)
    (Branch.mergeRange branch) (Branch.accept branch) branchTags.

(** The default export: the outer [pReduce] over the branches. *)
Fixpoint getTags {C} (acc : list (Branch.t Json.t))
         (branches : list (Branch.t C))
  : Completion (option (list (Branch.t Json.t))) :=
  match branches with
  | [] => Normal (Some acc)
  | branch :: rest =>
      bindC (Git.getTags gitTagMerged
               (if isPullRef (Branch.name branch) then "HEAD"
                else Branch.name branch)) (fun tags =>
      bindC (resolveTags [] tags) (fun branchTags =>
        match branchTags with
        | Some branchTags => getTags (acc ++ [withTags branch branchTags]) rest
        | None => Normal None
        end))
  end.

End Resolver.

End GetTags.

(* ================================================================== *)
(** * index.js: the release pipeline *)
(* ================================================================== *)

Module Pipeline.

(** The plugin steps. *)
Inductive Step : Type :=
| verifyConditions | analyzeCommits | verifyRelease | generateNotes
| prepare | publish | addChannel | success | fail.

(** What a tag of the current branch carries besides its name and
    version: the channels read from its note, or what [run] pushes for a
    release added to a channel. *)
Inductive TagInfo : Type :=
| Resolved (channels : list Value)
| Added (channel : Value) (gitHead : Value).

Definition Branch := Branch.t TagInfo.
Definition Release := list (string * Value).
Definition Commit := string.

Record NextRelease : Type := mkNextRelease {
  type : option Semver.ReleaseType;
  channel : Value;
  gitHead : Value;
  version : Value;
  gitTag : Value;
  name : Value;
  notes : Value
}.

Record CurrentRelease : Type := mkCurrentRelease {
  currentChannels : list Value;
  currentGitHead : Value
}.

(** The release that [getReleaseToAdd] finds to add to a channel. *)
Record AddedRelease : Type := mkAddedRelease {
  addedVersion : string;
  addedChannel : Value;
  addedGitTag : string;
  addedGitHead : Value;
  addedNotes : Value
}.

(** The result of [getReleaseToAdd]. *)
Record ReleaseToAdd : Type := mkReleaseToAdd {
  addLastRelease : LastRelease.t;
  addCurrentRelease : CurrentRelease;
  addNextRelease : AddedRelease
}.

Record EnvCi : Type := mkEnvCi {
  isCi : bool;
  ciBranch : string;
  prBranch : string;
  isPr : bool
}.

Record RunOptions : Type := mkRunOptions {
  dryRun : bool;
  noCi : bool;
  publishOnPr : bool;
  versionOptions : Options.t
}.

(** The context: [None] is a property not set yet. *)
Record Context : Type := mkContext {
  envCi : EnvCi;
  options : RunOptions;
  packageVersion : Value;
  branches : option (list Branch);
  branch : option Branch;
  releases : option (list Release);
  lastRelease : option LastRelease.t;
  commits : option (list Commit);
  nextRelease : option NextRelease
}.

(** What a plugin step hands back to [run]. *)
Inductive StepResult : Type :=
| NoResult
| Analysed (type : option Semver.ReleaseType)
| Notes (notes : Value)
| Released (releases : list Release).

(** What [terminalOutput] is asked to render: the notes of the release,
    or the details of an error. *)
Inductive Text : Type :=
| OfNotes (notes : Value)
| OfDetails (error : Error).

Inductive Stream : Type := Stdout | Stderr.

(** What [run] and the default export do to the outside, in order; a
    plugin step is invoked ([EvPlugin], [EvPluginFail] for the Fail step
    and the errors it receives) and, when it did not fail, done with its
    result ([EvPluginDone]); a text is handed to [terminalOutput]
    ([EvTerminalOutput]) and what it gives is written to a stream
    ([EvWrite]); an error is handed to [logger.error] ([EvLogError]). *)
Inductive Event : Type :=
| EvGetConfig
| EvVerify
| EvGetGitAuthUrl
| EvGetBranches
| EvVerifyAuth
| EvIsBranchUpToDate
| EvPlugin (s : Step)
| EvPluginDone (s : Step) (result : StepResult)
| EvPluginFail (errors : list Error)
| EvGetTagHead (ref : Value)
| EvGetCommits
| EvGetGitHead
| EvTag (tagName : Value) (ref : Value)
| EvAddNote (channels : list Value) (ref : Value)
| EvPush
| EvPushNotes (ref : Value)
| EvTerminalOutput (text : Text)
| EvWrite (stream : Stream) (text : string)
| EvLogError (error : Error)
| EvUnhook.

Definition Trace := list Event.

(** The git mutations of [run]: tag creation, note write, push. *)
Definition isGitMutation (e : Event) : bool :=
  match e with
  | EvTag _ _ | EvAddNote _ _ | EvPush | EvPushNotes _ => true
  | _ => false
  end.

(** The field values of a result object. *)
Inductive Field : Type :=
| FLastRelease (r : LastRelease.t)
| FCommits (c : list Commit)
| FNextRelease (r : NextRelease)
| FReleases (r : list Release).

(** What [run] resolves with: [false] or an object. *)
Inductive Result : Type :=
| RFalse
| RObject (fields : list (string * Field)).

(** The collaborators of [run] that are not under src/, and the outside
    world.  What a subprocess or a plugin answers depends on all that
    happened before: it is a function of the trace so far (the call
    included).  [getReleaseToAdd], [getLastRelease], [makeTag] and
    [semver.satisfies] are synchronous functions of their arguments.
    [terminalOutput] (lines 27-35) imports [marked-terminal] on its first
    call and hands the text to [marked.parse]: it is an awaited call to
    the outside, and it can throw.  [w_sort] is [Array.prototype.sort]
    under the comparator of line 235, which takes one argument and is not
    consistent: the order it leaves is the one of the engine. *)
Record World : Type := mkWorld {
  w_getConfig : Trace -> Completion unit;
  w_verify : Trace -> Completion unit;
  w_getGitAuthUrl : Trace -> Completion string;
  w_getBranches : Trace -> Completion (list Branch);
  w_verifyAuth : Trace -> Completion unit;
  w_isBranchUpToDate : Trace -> Completion bool;
  w_step : Step -> Trace -> Completion unit;
  w_analyzeCommits : Trace -> Completion (option Semver.ReleaseType);
  w_generateNotes : Trace -> Completion Value;
  w_releases : Step -> Trace -> Completion (list Release);
  w_getReleaseToAdd : Context -> Completion (option ReleaseToAdd);
  w_getLastRelease : Context -> Completion LastRelease.t;
  w_getCommits : Trace -> Completion (list Commit);
  w_getTagHead : Trace -> Completion Value;
  w_getGitHead : Trace -> Completion Value;
  w_git : Trace -> Completion unit;
  w_satisfies : Value -> Value -> bool;
  w_makeTag : Value -> Value;
  w_terminalOutput : Trace -> Completion string;
  w_sort : list Error -> list Error
}.

(** ** The monad of [run] *)

(** A step of [run] gives a value and goes on, returns early from [run],
    or throws. *)
Inductive Outcome (A : Type) : Type :=
| Next (a : A)
| Return (r : Result)
| Raise (t : Thrown).
Arguments Next {A} a.
Arguments Return {A} r.
Arguments Raise {A} t.

(** A computation reads the history (the events so far) and gives the
    events it adds, in order, and its outcome. *)
Definition M (A : Type) : Type := Trace -> Trace * Outcome A.

Definition ret {A} (a : A) : M A := fun _ => ([], Next a).

Definition bind {A B} (m : M A) (k : A -> M B) : M B :=
  fun history =>
    let (d, o) := m history in
    match o with
    | Next a => let (d', o') := k a (history ++ d) in (d ++ d', o')
    | Return r => (d, Return r)
    | Raise t => (d, Raise t)
    end.

Notation "x <- m ;; k" := (bind m (fun x => k))
  (at level 61, m at next level, right associativity).
Notation "m ;;; k" := (bind m (fun _ => k))
  (at level 61, right associativity).

Definition throw {A} (t : Thrown) : M A := fun _ => ([], Raise t).

Definition returns {A} (r : Result) : M A := fun _ => ([], Return r).

(** [try { m } catch (error) { handler error }] *)
Definition tryCatch {A} (m : M A) (handler : Thrown -> M A) : M A :=
  fun history =>
    let (d, o) := m history in
    match o with
    | Raise t => let (d', o') := handler t (history ++ d) in (d ++ d', o')
    | _ => (d, o)
    end.

(** A synchronous call. *)
Definition lift {A} (c : Completion A) : M A :=
  match c with
  | Normal a => ret a
  | Throw t => throw t
  end.

(** An awaited call to the outside: the event, then the answer, which
    depends on the history up to the call. *)
Definition call {A} (e : Event) (answer : Trace -> Completion A) : M A :=
  fun history =>
    ([e], match answer (history ++ [e]) with
          | Normal a => Next a
          | Throw t => Raise t
          end).

Definition emit (e : Event) : M unit := fun _ => ([e], Next tt).

(** A plugin step: invoked, then done when it did not fail. *)
Definition plugin {A} (s : Step) (answer : Trace -> Completion A)
           (result : A -> StepResult) : M A :=
  a <- call (EvPlugin s) answer ;;
  emit (EvPluginDone s (result a)) ;;;
  ret a.

Definition pluginStep (w : World) (s : Step) : M unit :=
  plugin s (w_step w s) (fun _ => NoResult).

Definition pluginNotes (w : World) : M Value :=
  plugin generateNotes (w_generateNotes w) Notes.

Definition pluginReleases (w : World) (s : Step) : M (list Release) :=
  plugin s (w_releases w s) Released.

(** Modelled from the spec: [getError] of lib/get-error.js is not under
    src/.  "Every fatal error carries a stable code and a human-readable
    explanation" (section 7): the code, and details that are there; the
    errors it builds are the domain errors of semantic-release. *)
Definition getError (code : string) : Error :=
  mkError "SemanticReleaseError" (Some code) true None true.

Definition invalidNextVersionError : Thrown :=
  Single (getError "EINVALIDNEXTVERSION").

(** lodash [pick(context, ["lastRelease", "commits", "nextRelease",
    "releases"])]: the properties that are set. *)
Definition pick (context : Context) : list (string * Field) :=
  match lastRelease context with
  | Some r => [("lastRelease", FLastRelease r)] | None => [] end
  ++ match commits context with
     | Some c => [("commits", FCommits c)] | None => [] end
  ++ match nextRelease context with
     | Some r => [("nextRelease", FNextRelease r)] | None => [] end
  ++ match releases context with
     | Some r => [("releases", FReleases r)] | None => [] end.

Definition releasesOf (context : Context) : list Release :=
  match releases context with
  | Some r => r
  | None => []
  end.

Definition setDryRun (o : RunOptions) : RunOptions :=
  mkRunOptions true (noCi o) (publishOnPr o) (versionOptions o).

Definition setOptions (c : Context) (o : RunOptions) : Context :=
  mkContext (envCi c) o (packageVersion c) (branches c) (branch c)
    (releases c) (lastRelease c) (commits c) (nextRelease c).

Definition setBranches (c : Context) (bs : list Branch) (b : option Branch)
  : Context :=
  mkContext (envCi c) (options c) (packageVersion c) (Some bs) b
    (releases c) (lastRelease c) (commits c) (nextRelease c).

Definition setBranch (c : Context) (b : Branch) : Context :=
  mkContext (envCi c) (options c) (packageVersion c) (branches c) (Some b)
    (releases c) (lastRelease c) (commits c) (nextRelease c).

Definition setReleases (c : Context) (r : list Release) : Context :=
  mkContext (envCi c) (options c) (packageVersion c) (branches c) (branch c)
    (Some r) (lastRelease c) (commits c) (nextRelease c).

Definition setLastRelease (c : Context) (r : LastRelease.t) : Context :=
  mkContext (envCi c) (options c) (packageVersion c) (branches c) (branch c)
    (releases c) (Some r) (commits c) (nextRelease c).

Definition setCommits (c : Context) (cs : list Commit) : Context :=
  mkContext (envCi c) (options c) (packageVersion c) (branches c) (branch c)
    (releases c) (lastRelease c) (Some cs) (nextRelease c).

Definition setNextRelease (c : Context) (r : NextRelease) : Context :=
  mkContext (envCi c) (options c) (packageVersion c) (branches c) (branch c)
    (releases c) (lastRelease c) (commits c) (Some r).

(** [context.branch.tags.push({ version, channel, gitTag, gitHead })] *)
Definition pushTag (b : Branch) (r : AddedRelease) : Branch :=
  Branch.mk (Branch.name b) (Branch.type b) (Branch.range b)
    (Branch.prerelease b) (Branch.channel b) (Branch.mergeRange b)
    (Branch.accept b)
    (Branch.tags b
     ++ [Tag.mk (addedGitTag r) (addedVersion r)
           (Added (addedChannel r) (addedGitHead r))]).

Definition isEmpty {A} (l : list A) : bool :=
  match l with [] => true | _ => false end.

(** Modelled from the spec: [extractErrors] of lib/utils.js is not under
    src/.  It gives "the aggregated error set" (section 7): the errors of
    an aggregate, or the one error thrown. *)
Definition extractErrors (err : Thrown) : list Error :=
  match err with
  | Single e => [e]
  | AggregateError errors => errors
  end.

(** ** [run] *)

(** Lines 43-57: outside a known CI environment the run is a dry run.
    (The other branch sets the git author in [env].) *)
Definition forceDryRun (context : Context) : Context :=
  let o := options context in
  if negb (isCi (envCi context)) && negb (dryRun o) && negb (noCi o)
  then setOptions context (setDryRun o)
  else context.

(** Lines 86-102: the push permission probe. *)
Definition checkAuth (w : World) : M unit :=
  tryCatch
    (tryCatch
       (call EvVerifyAuth (w_verifyAuth w))
       (fun error =>
          upToDate <- call EvIsBranchUpToDate (w_isBranchUpToDate w) ;;
          if negb upToDate then returns RFalse else throw error))
    (fun _ => throw (Single (getError "EGITNOPERMISSION"))).

(** Lines 112-153: a release to add to a channel.  The result is the
    context, the current branch and the errors collected. *)
Definition addChannelPath (w : World) (context : Context) (branch : Branch)
           (releaseToAdd : ReleaseToAdd)
  : M (Context * Branch * list Error) :=
  let next := addNextRelease releaseToAdd in
  let current := addCurrentRelease releaseToAdd in
  nextHead <- call (EvGetTagHead (addedGitHead next)) (w_getTagHead w) ;;
  let next := mkAddedRelease (addedVersion next) (addedChannel next)
                (addedGitTag next) nextHead (addedNotes next) in
  currentHead <- call (EvGetTagHead (currentGitHead current)) (w_getTagHead w) ;;
  if truthy (Branch.mergeRange branch)
     && negb (w_satisfies w (vstr (addedVersion next)) (Branch.mergeRange branch))
  then ret (context, branch, [getError "EINVALIDMAINTENANCEMERGE"])
  else
    commits <- call EvGetCommits (w_getCommits w) ;;
    notes <- pluginNotes w ;;
    (if dryRun (options context) then ret tt
     else
       call (EvAddNote (currentChannels current ++ [addedChannel next])
               (vstr (addedGitTag next))) (w_git w) ;;;
       call EvPush (w_git w) ;;;
       call (EvPushNotes (vstr (addedGitTag next))) (w_git w)) ;;;
    let branch := pushTag branch next in
    let context := setBranch context branch in
    added <- pluginReleases w addChannel ;;
    let context := setReleases context (releasesOf context ++ added) in
    pluginStep w success ;;;
    ret (context, branch, []).

(** [{ branch, nextRelease: { type, channel }, lastRelease, packageVersion,
    options }] as [getNextVersion] destructures the context. *)
Definition versionContext (context : Context) (branch : Branch)
           (last : LastRelease.t) (ty : Semver.ReleaseType) (ch : Value)
  : NextVersion.Context TagInfo :=
  NextVersion.mkContext branch (NextVersion.mkNextRelease ty ch) last
    (packageVersion context) (versionOptions (options context)).

Definition isPrereleaseBranch (branch : Branch) : bool :=
  match Branch.type branch with
  | Some BranchType.prerelease => true
  | _ => false
  end.

(** Lines 189-196: the check of the next version against the range of the
    branch. *)
Definition invalidNextVersion (w : World) (branch : Branch) (next : NextRelease)
  : bool :=
  negb (isPrereleaseBranch branch)
  && negb (w_satisfies w (version next) (Branch.range branch)).

(** Lines 198-231: from [verifyRelease] to the result. *)
Definition publishRelease (w : World) (context : Context) (next : NextRelease)
  : M Result :=
  pluginStep w verifyRelease ;;;
  notes <- pluginNotes w ;;
  let next := mkNextRelease (type next) (channel next) (gitHead next)
                (version next) (gitTag next) (name next) notes in
  let context := setNextRelease context next in
  pluginStep w prepare ;;;
  (if dryRun (options context) then ret tt
   else
     call (EvTag (gitTag next) (gitHead next)) (w_git w) ;;;
     call (EvAddNote [channel next] (gitTag next)) (w_git w) ;;;
     call EvPush (w_git w) ;;;
     call (EvPushNotes (gitTag next)) (w_git w)) ;;;
  published <- pluginReleases w publish ;;
  let context := setReleases context (releasesOf context ++ published) in
  pluginStep w success ;;;
  (if dryRun (options context) && truthy (notes)
   then
     text <- call (EvTerminalOutput (OfNotes notes)) (w_terminalOutput w) ;;
     emit (EvWrite Stdout text)
   else ret tt) ;;;
  ret (RObject (pick context)).

(** Lines 184-196: the next version, its tag, and the range check. *)
Definition fromVersion (w : World) (context : Context) (branch : Branch)
           (next : NextRelease) (v : Value) : M Result :=
  let tag := w_makeTag w v in
  let next := mkNextRelease (type next) (channel next) (gitHead next)
                v tag tag (notes next) in
  let context := setNextRelease context next in
  if invalidNextVersion w branch next
  then throw invalidNextVersionError
  else publishRelease w context next.

(** Lines 159-185: the last release, the commits, the analysis and,
    when it calls for a release, the next version.  The result is the
    context, the release so far and the version. *)
Definition computeVersion (w : World) (context : Context) (branch : Branch)
  : M (Context * NextRelease * Value) :=
  last <- lift (w_getLastRelease w context) ;;
  last <- (if truthy (LastRelease.gitHead last)
           then
             head <- call (EvGetTagHead (LastRelease.gitHead last))
                       (w_getTagHead w) ;;
             ret (LastRelease.mk (LastRelease.version last)
                    (LastRelease.gitTag last) head (LastRelease.channels last))
           else ret last) ;;
  let context := setLastRelease context last in
  commits <- call EvGetCommits (w_getCommits w) ;;
  let context := setCommits context commits in
  ty <- plugin analyzeCommits (w_analyzeCommits w) Analysed ;;
  head <- call EvGetGitHead (w_getGitHead w) ;;
  let next :=
    mkNextRelease ty
      (if truthy (Branch.channel branch) then Branch.channel branch else vnull)
      head vundefined vundefined vundefined vundefined in
  match ty with
  | None =>
      returns (if isEmpty (releasesOf context) then RFalse
               else RObject [("releases", FReleases (releasesOf context))])
  | Some t =>
      let context := setNextRelease context next in
      v <- lift (NextVersion.getNextVersion
                   (versionContext context branch last t (channel next))) ;;
      ret (context, next, v)
  end.

(** Lines 159-231: the new release. *)
Definition newReleasePath (w : World) (context : Context) (branch : Branch)
  : M Result :=
  computed <- computeVersion w context branch ;;
  let '(context, next, v) := computed in
  fromVersion w context branch next v.

(** Lines 108-157, then the new release. *)
Definition afterVerifyConditions (w : World) (context : Context)
           (branch : Branch) : M Result :=
  let context := setReleases context [] in
  releaseToAdd <- lift (w_getReleaseToAdd w context) ;;
  r <- match releaseToAdd with
       | Some r => addChannelPath w context branch r
       | None => ret (context, branch, [])
       end ;;
  let '(context, branch, errors) := r in
  if isEmpty errors then newReleasePath w context branch
  else throw (AggregateError errors).

(** Lines 39-106: up to the VerifyConditions step.  The result is the
    context and the current branch. *)
Definition prelude (w : World) (context : Context) : M (Context * Branch) :=
  let ci := envCi context in
  let ciBranch := if isPr ci then prBranch ci else ciBranch ci in
  let context := forceDryRun context in
  let o := options context in
  if isCi ci && isPr ci && negb (noCi o) && negb (publishOnPr o)
  then returns RFalse
  else
    call EvVerify (w_verify w) ;;;
    url <- call EvGetGitAuthUrl (w_getGitAuthUrl w) ;;
    branches <- call EvGetBranches (w_getBranches w) ;;
    let found := List.find (fun b => Branch.name b =? ciBranch) branches in
    let context := setBranches context branches found in
    match found with
    | None => returns RFalse
    | Some branch =>
        checkAuth w ;;;
        pluginStep w verifyConditions ;;;
        ret (context, branch)
    end.

Definition run (w : World) (context : Context) : M Result :=
  started <- prelude w context ;;
  afterVerifyConditions w (fst started) (snd started).

(** ** [logErrors], [callFail] and the default export *)

Definition option_eqb {A} (eqb : A -> A -> bool) (a b : option A) : bool :=
  match a, b with
  | Some x, Some y => eqb x y
  | None, None => true
  | _, _ => false
  end.

Definition Error_eqb (a b : Error) : bool :=
  (err_name a =? err_name b)%string
  && option_eqb String.eqb (err_code a) (err_code b)
  && Bool.eqb (err_semanticRelease a) (err_semanticRelease b)
  && option_eqb Z.eqb (err_exitCode a) (err_exitCode b)
  && Bool.eqb (err_details a) (err_details b).

(** [l] without the first occurrence of [e], when there is one. *)
Fixpoint removeFirst (e : Error) (l : list Error) : option (list Error) :=
  match l with
  | [] => None
  | x :: r =>
      if Error_eqb e x then Some r
      else match removeFirst e r with
           | Some r' => Some (x :: r')
           | None => None
           end
  end.

(** [a] holds the elements of [b], each as many times, in some order. *)
Fixpoint rearranges (a b : list Error) : bool :=
  match a with
  | [] => isEmpty b
  | x :: r =>
      match removeFirst x b with
      | Some b' => rearranges r b'
      | None => false
      end
  end.

(** Line 235: [extractErrors(err).sort((error) => (error.semanticRelease ?
    -1 : 0))].  [sort] rearranges the errors, in the order of the engine;
    an answer of [w_sort] that is no rearrangement is not one of an
    engine, and is not followed. *)
Definition sortErrors (w : World) (errors : list Error) : list Error :=
  if rearranges (w_sort w errors) errors then w_sort w errors else errors.

(** Lines 237-244: one error.  What [terminalOutput] throws leaves the
    loop, and [logErrors]. *)
Definition logError (w : World) (error : Error) : M unit :=
  emit (EvLogError error) ;;;
  if err_semanticRelease error && err_details error
  then
    text <- call (EvTerminalOutput (OfDetails error)) (w_terminalOutput w) ;;
    emit (EvWrite Stderr text)
  else ret tt.

Fixpoint logEach (w : World) (errors : list Error) : M unit :=
  match errors with
  | [] => ret tt
  | error :: rest => logError w error ;;; logEach w rest
  end.

Definition logErrors (w : World) (err : Thrown) : M unit :=
  logEach w (sortErrors w (extractErrors err)).

Definition callFail (w : World) (err : Thrown) : M unit :=
  let errors := List.filter err_semanticRelease (extractErrors err) in
  if isEmpty errors then ret tt
  else
    tryCatch
      (call (EvPluginFail errors) (w_step w fail) ;;;
       emit (EvPluginDone fail NoResult))
      (fun error => logErrors w error).

(** The value an [async] function resolves with: an early [return] is its
    result. *)
Definition resolved (m : M Result) : M Result :=
  fun history =>
    let (d, o) := m history in
    (d, match o with
        | Return r => Next r
        | other => other
        end).

(** The default export. *)
Definition main (w : World) (context : Context) : M Result :=
  resolved
    (tryCatch
       (call EvGetConfig (w_getConfig w) ;;;
        tryCatch
          (result <- resolved (run w context) ;;
           emit EvUnhook ;;;
           ret result)
          (fun error => callFail w error ;;; throw error))
       (fun error => logErrors w error ;;; emit EvUnhook ;;; throw error)).

End Pipeline.

(* ================================================================== *)
(** * lib/branches/index.js: the validation of the branches *)
(* ================================================================== *)

Module Driver.

Import Branches.

Section Validation.

Context {C : Type}.
Variable isMaintenanceRange : Value -> bool.
Variable validRange : Value -> option string.
Variable ctx : option ValidatorContext.

(** Modelled from the spec: the driver lib/branches/index.js is not under
    src/.  Every fatal error "carries a stable code" (section 7): the code
    of an error of the validation is made of the name of the category and
    of the validator that failed. *)
Definition categoryName (ty : BranchType.t) : string :=
  match ty with
  | BranchType.maintenance => "MAINTENANCE"
  | BranchType.prerelease => "PRERELEASE"
  | BranchType.release => "RELEASE"
  end.

(** Modelled from the spec: section 4.2, "Failure of any validator is a
    fatal configuration error enumerating every offending branch": an
    error for every branch that the validator of a branch rejects, and an
    error for the category whose validator rejects its branches. *)
Definition offences (ty : BranchType.t) (branches : list (Branch.t C))
  : list Error :=
  let branchesOfType := ofType ty branches in
  map (fun _ => Pipeline.getError ("E" ++ categoryName ty ++ "BRANCH"))
    (List.filter
       (fun b => negb (branchPasses isMaintenanceRange validRange ctx ty b))
       branchesOfType)
  ++ (if branchesValidator (definitionOf isMaintenanceRange validRange ty)
           (map (normalized isMaintenanceRange ty) branchesOfType)
      then []
      else [Pipeline.getError ("E" ++ categoryName ty ++ "BRANCHES")]).

(** Modelled from the spec: the errors of the three categories. *)
Definition configurationErrors (branches : list (Branch.t C)) : list Error :=
  offences BranchType.maintenance branches
  ++ offences BranchType.prerelease branches
  ++ offences BranchType.release branches.

(** Modelled from the spec: the end of [getBranches], on the classified
    branch set.  The errors of the validators are thrown together, and the
    branches are the result when there is none. *)
Definition validate (branches : list (Branch.t C))
  : Completion (list (Branch.t C)) :=
  match configurationErrors branches with
  | [] => Normal branches
  | errors => Throw (AggregateError errors)
  end.

End Validation.

End Driver.

(* ================================================================== *)
(** * Notions used to state the results *)
(* ================================================================== *)

Module Terms.

(** The release type that [inc] hands to [semver.inc] for a version [v]. *)
Definition dampened (v : Semver.SemVer) (type : Semver.ReleaseType)
  : Semver.ReleaseType :=
  if (Semver.major v =? 0)%N then NextVersion.majorZeroRelease type else type.

(** The effective [prereleaseIdentifierBase]. *)
Definition base {C} (ctx : NextVersion.Context C) : Value :=
  orDefault (Options.prereleaseIdentifierBase (NextVersion.options ctx))
    (vstr NextVersion.DEFAULT_PRERELEASE_IDENTIFIER_BASE).

(** [x] followed by [-<identifier>.<base>] of the branch. *)
Definition suffixed {C} (ctx : NextVersion.Context C) (x : string) : string :=
  (x ++ "-" ++ template (Branch.prerelease (NextVersion.branch ctx))
     ++ "." ++ template (base ctx))%string.

(** The major, minor and patch of a version, nothing else. *)
Definition triplet (v : Semver.SemVer) : Semver.SemVer :=
  Semver.mkSemVer (Semver.major v) (Semver.minor v) (Semver.patch v) [] [].

(** The same context with another requested bump. *)
Definition withType {C} (ctx : NextVersion.Context C)
           (type : Semver.ReleaseType) : NextVersion.Context C :=
  NextVersion.mkContext (NextVersion.branch ctx)
    (NextVersion.mkNextRelease type
       (NextVersion.channel (NextVersion.nextRelease ctx)))
    (NextVersion.lastRelease ctx) (NextVersion.packageVersion ctx)
    (NextVersion.options ctx).

(** The continuation applies: [lastRelease.version] is a prerelease and
    one of [lastRelease.channels] is the channel of the new release (the
    test of lines 66-69 of get-next-version.js). *)
Definition continues {C} (ctx : NextVersion.Context C) : bool :=
  match LastRelease.version (NextVersion.lastRelease ctx) with
  | vstr s =>
      match Semver.prereleaseOf s with
      | Some _ => true
      | None => false
      end
  | _ => false
  end
  && existsb
       (fun c => Utils.isSameChannel c
                   (NextVersion.channel (NextVersion.nextRelease ctx)))
       (LastRelease.channels (NextVersion.lastRelease ctx)).

(** A JSON value that is neither an array nor an object. *)
Definition isPrimitive (v : Json.t) : bool :=
  match v with
  | Json.JArr _ | Json.JObj _ => false
  | _ => true
  end.

(** The error of a [git] command that exits with [code]. *)
Definition exited (code : Z) : Thrown :=
  Single (mkError "Error" None false (Some code) false).

(** The tags of [tags] that the resolver keeps, in order. *)
Definition keptTags (rendered : string) (tags : list string) : list string :=
  List.filter
    (fun tag => match GetTags.keeps rendered tag with
                | Some _ => true
                | None => false
                end) tags.

(** A resolved tag: its version is what the expression captured, and its
    channels come from its note. *)
Definition resolvedFrom (gitNotesShow : string -> string -> Completion string)
           (JSON_parse : string -> option Json.t) (rendered : string)
           (t : Tag.t Json.t) : Prop :=
  GetTags.keeps rendered (Tag.gitTag t) = Some (Tag.version t)
  /\ exists note,
       Git.getNote gitNotesShow JSON_parse (Tag.gitTag t) = Normal (Some note)
       /\ Tag.channels t = GetTags.channelsOf note.

(** The branch [r] is [b] with the tags resolved from the output of
    [git tag --merged]: the candidates kept, in order. *)
Definition resolvedBranch (gitTagMerged : string -> Completion string)
           (gitNotesShow : string -> string -> Completion string)
           (JSON_parse : string -> option Json.t) (rendered : string)
           {C} (b : Branch.t C) (r : Branch.t Json.t) : Prop :=
  Branch.name r = Branch.name b
  /\ exists candidates,
       Git.getTags gitTagMerged
         (if GetTags.isPullRef (Branch.name b) then "HEAD" else Branch.name b)
       = Normal candidates
       /\ map (@Tag.gitTag _) (Branch.tags r) = keptTags rendered candidates
       /\ Forall (resolvedFrom gitNotesShow JSON_parse rendered)
            (Branch.tags r).

(** What the validators of lib/definitions/branches.js ask of a classified
    branch set: every branch passes the validator of its category, no two
    maintenance branches have the same [semver.validRange] of their range
    (the one inferred from the name when none is declared), no two
    prerelease branches the same identifier (the name when [prerelease] is
    [true]), and there are one to three release branches. *)
Definition wellFormed {C} (isMaintenanceRange : Value -> bool)
           (validRange : Value -> option string)
           (ctx : option Branches.ValidatorContext)
           (branches : list (Branch.t C)) : Prop :=
  (forall ty b,
     In b (Branches.ofType ty branches) ->
     Branches.branchPasses isMaintenanceRange validRange ctx ty b = true)
  /\ NoDup (map (fun b =>
                   validRange (Branches.inferredRange isMaintenanceRange b))
              (Branches.ofType BranchType.maintenance branches))
  /\ NoDup (map Branches.identifierOf
              (Branches.ofType BranchType.prerelease branches))
  /\ (1 <= length (Branches.ofType BranchType.release branches) <= 3)%nat.

End Terms.

(* ================================================================== *)
(** * The rules as the specification words them *)
(* ================================================================== *)

(** Section 4.4, rule 4, written from the words of the specification, to
    be compared with [NextVersion.getNextVersion].  "The branch's own
    highest known released triplet (ignoring prerelease suffixes, scanning
    this branch's resolved tag set)" reads two ways: the suffix of every
    tag is dropped and the highest triplet taken ([SuffixDropped]), or the
    tags that carry a suffix are left out ([PrereleasesLeftOut]). *)
Module Claimed.

Inductive Reading : Type := SuffixDropped | PrereleasesLeftOut.

(** The highest triplet of the versions that parse. *)
Fixpoint highestTriplet (best : option Semver.SemVer) (versions : list string)
  : option Semver.SemVer :=
  match versions with
  | [] => best
  | s :: r =>
      match Semver.parse s with
      | Some v =>
          let t := Terms.triplet v in
          highestTriplet
            (match best with
             | Some b =>
                 match Semver.compareMain t b with
                 | Gt => Some t
                 | _ => Some b
                 end
             | None => Some t
             end) r
      | None => highestTriplet best r
      end
  end.

Definition hasSuffix (s : string) : bool :=
  match Semver.prereleaseOf s with
  | Some _ => true
  | None => false
  end.

(** The fresh candidate; [None] when the branch has no tag to start from:
    the highest triplet, bumped by the requested type under rule 1 (major
    zero), with the suffix of the branch. *)
Definition fresh {C} (reading : Reading) (ctx : NextVersion.Context C)
  : option string :=
  let versions := Utils.tagsToVersions (Branch.tags (NextVersion.branch ctx)) in
  let versions :=
    match reading with
    | SuffixDropped => versions
    | PrereleasesLeftOut => List.filter (fun s => negb (hasSuffix s)) versions
    end in
  match highestTriplet None versions with
  | Some t =>
      let type := NextVersion.type (NextVersion.nextRelease ctx) in
      Some (Terms.suffixed ctx
              (Semver.format (Semver.incSemVer t (Terms.dampened t type))))
  | None => None
  end.

(** The next version of rule 4: the semver-greater of the continuation
    candidate and the fresh one, the fresh one when the continuation does
    not apply. *)
Definition nextVersion {C} (reading : Reading) (ctx : NextVersion.Context C)
  : option (Completion Value) :=
  match fresh reading ctx with
  | Some f =>
      Some (if Terms.continues ctx
            then bindC (NextVersion.inc
                          (LastRelease.version (NextVersion.lastRelease ctx))
                          Semver.Prerelease)
                   (fun continued => Utils.highest continued (vstr f))
            else Normal (vstr f))
  | None => None
  end.

(** Section 3, the invariant of a classified branch set: "among
    maintenance branches, range values are pairwise distinct; among
    prerelease branches, prerelease identifiers are pairwise distinct; the
    count of release-type branches is between 1 and 3 inclusive".  The
    range of a maintenance branch is the one "inferred from name" when
    none is declared, and the identifier of a prerelease branch is its
    name when [prerelease] is [true]. *)
Definition branchInvariant {C} (isMaintenanceRange : Value -> bool)
           (branches : list (Branch.t C)) : Prop :=
  NoDup (map (Branches.inferredRange isMaintenanceRange)
           (Branches.ofType BranchType.maintenance branches))
  /\ NoDup (map Branches.identifierOf
              (Branches.ofType BranchType.prerelease branches))
  /\ (1 <= length (Branches.ofType BranchType.release branches) <= 3)%nat.

End Claimed.

(* ================================================================== *)
(** * Concrete inputs *)
(* ================================================================== *)

Module Inputs.

Definition tagOf (version : string) (channels : list Value)
  : Tag.t (list Value) :=
  Tag.mk ("v" ++ version)%string version channels.

Definition branchOf (name : string) (type : BranchType.t) (prerelease : Value)
           (tags : list (Tag.t (list Value))) : Branch.t (list Value) :=
  Branch.mk name (Some type) vundefined prerelease vundefined vundefined []
    tags.

Definition lastOf (version : string) (channels : list Value) : LastRelease.t :=
  LastRelease.mk (vstr version) (vstr ("v" ++ version)%string) vundefined
    channels.

Definition noOptions : Options.t := Options.mk vundefined vundefined vundefined.

Definition contextOf (branch : Branch.t (list Value))
           (type : Semver.ReleaseType) (channel : Value)
           (last : LastRelease.t) : NextVersion.Context (list Value) :=
  NextVersion.mkContext branch (NextVersion.mkNextRelease type channel) last
    vundefined noOptions.

(** Branch [master], last release 0.0.1 (the tests "... at major version
    0"). *)
Definition master_0_0_1 (type : Semver.ReleaseType)
  : NextVersion.Context (list Value) :=
  contextOf (branchOf "master" BranchType.release vundefined
               [tagOf "0.0.1" [vnull]])
    type vundefined (lastOf "0.0.1" [vnull]).

(** Branch [beta] continuing 0.0.1-beta.1 on channel [beta]. *)
Definition beta_0_0_1 (type : Semver.ReleaseType)
  : NextVersion.Context (list Value) :=
  contextOf (branchOf "beta" BranchType.prerelease (vstr "beta")
               [tagOf "0.0.0" [vnull]; tagOf "0.0.1-beta.1" [vstr "beta"]])
    type (vstr "beta") (lastOf "0.0.1-beta.1" [vstr "beta"]).

(** Branch [beta] continuing 1.0.1-beta.1 on channel [beta], after the
    prerelease 2.0.0-alpha.1 of another channel was merged into it. *)
Definition beta_after_alpha : NextVersion.Context (list Value) :=
  contextOf (branchOf "beta" BranchType.prerelease (vstr "beta")
               [tagOf "1.0.0" [vnull];
                tagOf "2.0.0-alpha.1" [vstr "alpha"];
                tagOf "1.0.1-beta.1" [vstr "beta"]])
    Semver.Patch (vstr "beta") (lastOf "1.0.1-beta.1" [vstr "beta"]).

(** Branch [alpha] starting from the release 1.0.1-beta.1 of channel
    [beta] (the test "Increase version for patch release on prerelease
    branch", third case). *)
Definition alpha_from_beta : NextVersion.Context (list Value) :=
  contextOf (branchOf "alpha" BranchType.prerelease (vstr "alpha")
               [tagOf "1.0.1-beta.1" [vstr "beta"]])
    Semver.Patch (vstr "alpha") (lastOf "1.0.1-beta.1" [vstr "beta"]).

(** ** A repository with notes *)

Definition quote : string := String (ascii_of_nat 34) EmptyString.

Definition nl : string := String Git.newline EmptyString.

(** The text [{ channels: [...] }] of a note, the names in double quotes. *)
Definition channelsText (names : list string) : string :=
  ("{" ++ quote ++ "channels" ++ quote ++ ":["
   ++ String.concat "," (map (fun n => quote ++ n ++ quote) names)
   ++ "]}")%string.

Definition channelsNote (names : list string) : Json.t :=
  Json.JObj [("channels", Json.JArr (map Json.JStr names))].

(** [JSON.parse] on the texts of the notes below; it throws on any other
    text here. *)
Definition parseNote (text : string) : option Json.t :=
  if (text =? "{}")%string then Some (Json.JObj [])
  else if (text =? channelsText ["a"])%string
  then Some (channelsNote ["a"])
  else if (text =? channelsText ["a"; "c"])%string
  then Some (channelsNote ["a"; "c"])
  else if (text =? channelsText ["b"])%string
  then Some (channelsNote ["b"])
  else None.

(** [git notes --ref notesRef show ref]: tag [v1.0.0] has a legacy note
    and a note of its own, tag [v1.1.0] a longer legacy note, tag [v2.0.0]
    a note of its own only, and no other tag has a note. *)
Definition notesShow (notesRef ref : string) : Completion string :=
  if (ref =? "v1.0.0")%string then
    if (notesRef =? Git.GIT_NOTE_REF)%string
    then Normal (channelsText ["a"])
    else Normal (channelsText ["b"])
  else if (ref =? "v1.1.0")%string then
    if (notesRef =? Git.GIT_NOTE_REF)%string
    then Normal (channelsText ["a"; "c"])
    else Normal (channelsText ["b"])
  else if (ref =? "v2.0.0")%string then
    if (notesRef =? Git.GIT_NOTE_REF)%string
    then Throw (Terms.exited 1)
    else Normal (channelsText ["b"])
  else Throw (Terms.exited 1).

(** [git tag --merged master]. *)
Definition tagMerged (branch : string) : Completion string :=
  Normal ("v1.0.0" ++ nl ++ "v1.1.0" ++ nl ++ "latest" ++ nl
          ++ "v2.0.0" ++ nl ++ "v3.0" ++ nl ++ "v3.0.0" ++ nl)%string.

(** [semver.validRange] on the ranges of the shapes N.x and N.N.x: the
    range spelled out.  Every other input counts as no valid range here
    ([None] is [null]). *)
Definition validRangeOf (range : Value) : option string :=
  match range with
  | vstr s =>
      match Str.split "." s with
      | [a; x] =>
          match Semver.numericIdentifier a with
          | Some n =>
              if (x =? "x")%string
              then Some (">=" ++ Str.of_N n ++ ".0.0 <"
                         ++ Str.of_N (n + 1) ++ ".0.0-0")%string
              else None
          | None => None
          end
      | [a; b; x] =>
          match Semver.numericIdentifier a, Semver.numericIdentifier b with
          | Some n, Some m =>
              if (x =? "x")%string
              then Some (">=" ++ Str.of_N n ++ "." ++ Str.of_N m ++ ".0 <"
                         ++ Str.of_N n ++ "." ++ Str.of_N (m + 1)
                         ++ ".0-0")%string
              else None
          | _, _ => None
          end
      | _ => None
      end
  | _ => None
  end.

(** A classified branch set: the release branch [master] and a prerelease
    branch whose identifier [rc_1] is no valid semver identifier. *)
Definition invalidIdentifierBranches : list (Branch.t (list Value)) :=
  [branchOf "master" BranchType.release vundefined [];
   branchOf "rc" BranchType.prerelease (vstr "rc_1") []].

End Inputs.

(* ================================================================== *)
(** * Observations on a trace of the pipeline *)
(* ================================================================== *)

Module Observed.

Import Pipeline.

(** Every git mutation comes after an event that [mark] singles out;
    [seen] tells whether one was met already. *)
Fixpoint mutationsAfter (mark : Event -> bool) (seen : bool) (tr : Trace)
  : bool :=
  match tr with
  | [] => true
  | e :: r =>
      if mark e then mutationsAfter mark true r
      else (negb (isGitMutation e) || seen) && mutationsAfter mark seen r
  end.

(** No git mutation among the events. *)
Definition quiet (tr : Trace) : bool :=
  forallb (fun e => negb (isGitMutation e)) tr.

(** A VerifyConditions step that is done. *)
Definition isVerified (e : Event) : bool :=
  match e with
  | EvPluginDone verifyConditions _ => true
  | _ => false
  end.

(** The call that expands, classifies and validates the branches. *)
Definition isGetBranches (e : Event) : bool :=
  match e with
  | EvGetBranches => true
  | _ => false
  end.

(** An event that [mark] singles out is among the events. *)
Definition marked (mark : Event -> bool) (tr : Trace) : bool :=
  existsb mark tr.

Definition isPublish (e : Event) : bool :=
  match e with
  | EvPlugin publish => true
  | _ => false
  end.

(** No invocation of the Publish step among the events. *)
Definition noPublish (tr : Trace) : bool :=
  forallb (fun e => negb (isPublish e)) tr.

(** How far the new release is: no tag yet, tag created, tag pushed. *)
Inductive Progress : Type := NoTag | Tagged | Pushed.

(** Every invocation of the Publish step comes after a push that comes
    after a tag creation. *)
Fixpoint publishFollowsPush (p : Progress) (tr : Trace) : bool :=
  match tr with
  | [] => true
  | EvTag _ _ :: r =>
      publishFollowsPush (match p with NoTag => Tagged | q => q end) r
  | EvPush :: r =>
      publishFollowsPush (match p with Tagged => Pushed | q => q end) r
  | EvPlugin publish :: r =>
      match p with
      | Pushed => publishFollowsPush p r
      | _ => false
      end
  | _ :: r => publishFollowsPush p r
  end.

(** The releases that the AddChannel step handed back. *)
Fixpoint addedReleases (tr : Trace) : list Release :=
  match tr with
  | [] => []
  | EvPluginDone addChannel (Released rs) :: r => rs ++ addedReleases r
  | _ :: r => addedReleases r
  end.

(** Commit analysis was done and gave no bump size. *)
Fixpoint analysedNothing (tr : Trace) : bool :=
  match tr with
  | [] => false
  | EvPluginDone analyzeCommits (Analysed None) :: _ => true
  | _ :: r => analysedNothing r
  end.

(** The fields of a result object that holds the releases only. *)
Definition onlyReleases (rs : list Release) : Result :=
  RObject [("releases"%string, FReleases rs)].

(** The semantic-release errors among those of [err]. *)
Definition failErrors (err : Thrown) : list Error :=
  List.filter err_semanticRelease (extractErrors err).

(** The errors handed to [logger.error], in order. *)
Fixpoint loggedErrors (tr : Trace) : list Error :=
  match tr with
  | [] => []
  | EvLogError error :: r => error :: loggedErrors r
  | _ :: r => loggedErrors r
  end.

(** The invocations of the Fail step, with what each received. *)
Fixpoint failInvocations (tr : Trace) : list (list Error) :=
  match tr with
  | [] => []
  | EvPluginFail errors :: r => errors :: failInvocations r
  | _ :: r => failInvocations r
  end.

(** A call of [terminalOutput] threw [t]. *)
Definition renderingFailed (w : World) (t : Thrown) : Prop :=
  exists h, w_terminalOutput w h = Throw t.

(** No call of [terminalOutput] throws. *)
Definition rendering (w : World) : Prop :=
  forall h, exists text, w_terminalOutput w h = Normal text.

(** What the Fail step threw, when it was invoked after [history] with
    the semantic-release errors of [err] and failed. *)
Definition failStepError (w : World) (history : Trace) (err : Thrown)
  : option Thrown :=
  if isEmpty (failErrors err) then None
  else match w_step w fail (history ++ [EvPluginFail (failErrors err)]) with
       | Normal _ => None
       | Throw failure => Some failure
       end.

(** The errors that [logErrors] hands to [logger.error] for [err], when
    nothing fails. *)
Definition errorsToLog (w : World) (err : Thrown) : list Error :=
  sortErrors w (extractErrors err).

(** The events of [logErrors]: an error handed to [logger.error], its
    details handed to [terminalOutput], and what comes back written to
    [stderr]. *)
Definition ofLog (e : Event) : bool :=
  match e with
  | EvLogError _ | EvTerminalOutput (OfDetails _) | EvWrite Stderr _ => true
  | _ => false
  end.

Definition isUnhook (e : Event) : bool :=
  match e with
  | EvUnhook => true
  | _ => false
  end.

(** Lines 286-290, the outer [catch] of the default export, entered with
    [error] after [history]: the events of the export and its outcome. *)
Definition caught (w : World) (history : Trace) (error : Thrown)
  : Trace * Outcome Result :=
  let (d, o) := logErrors w error history in
  match o with
  | Raise t => (history ++ d, Raise t)
  | _ => (history ++ d ++ [EvUnhook], Raise error)
  end.

(** [run] up to the next version (lines 38-185): the context, the current
    branch, the release so far and the version computed for it. *)
Definition upToVersion (w : World) (context : Context)
  : M (Context * Branch * NextRelease * Value) :=
  started <- prelude w context ;;
  let context := setReleases (fst started) [] in
  let branch := snd started in
  releaseToAdd <- lift (w_getReleaseToAdd w context) ;;
  r <- match releaseToAdd with
       | Some r => addChannelPath w context branch r
       | None => ret (context, branch, [])
       end ;;
  let '(context, branch, errors) := r in
  if isEmpty errors
  then
    computed <- computeVersion w context branch ;;
    let '(context, next, v) := computed in
    ret (context, branch, next, v)
  else throw (AggregateError errors).

(** The names of the fields of a result object. *)
Definition fieldNames (r : Result) : list string :=
  match r with
  | RFalse => []
  | RObject fields => map fst fields
  end.

(** What [run] resolves with, when it does. *)
Definition resultOf (run : Trace * Outcome Result) : option Result :=
  match snd run with
  | Next r | Return r => Some r
  | Raise _ => None
  end.

End Observed.

(* ================================================================== *)
(** * Concrete worlds *)
(* ================================================================== *)

Module Worlds.

Import Pipeline.

Definition atLeast (v lo : string) : bool :=
  match Semver.compare v lo with
  | Normal Lt => false
  | Normal _ => true
  | Throw _ => false
  end.

Definition below (v hi : string) : bool :=
  match Semver.compare v hi with
  | Normal Lt => true
  | _ => false
  end.

(** [semver.satisfies] on the ranges [>=a] and [>=a <b] and a version
    without prerelease suffix: what the package answers on these inputs
    (other ranges are not covered and give [false] here). *)
Definition satisfiesBounds (version range : Value) : bool :=
  match version, range with
  | vstr v, vstr r =>
      match Str.split " " r with
      | [lo] =>
          match Str.stripPrefix ">=" lo with
          | Some a => atLeast v a
          | None => false
          end
      | [lo; hi] =>
          match Str.stripPrefix ">=" lo, Str.stripPrefix "<" hi with
          | Some a, Some b => atLeast v a && below v b
          | _, _ => false
          end
      | _ => false
      end
  | _, _ => false
  end.

(** What the outside answers in a scripted world; everything else
    succeeds, and [sort] puts the semantic-release errors first. *)
Record Script : Type := mkScript {
  s_branches : Completion (list Branch);
  s_toAdd : option ReleaseToAdd;
  s_last : LastRelease.t;
  s_type : option Semver.ReleaseType;
  s_verifyConditions : Completion unit;
  s_fail : Completion unit;
  s_added : list Release;
  s_published : list Release
}.

Definition worldOf (s : Script) : World :=
  mkWorld
    (fun _ => Normal tt)
    (fun _ => Normal tt)
    (fun _ => Normal "https://example.com/repo.git"%string)
    (fun _ => s_branches s)
    (fun _ => Normal tt)
    (fun _ => Normal true)
    (fun step _ =>
       match step with
       | verifyConditions => s_verifyConditions s
       | fail => s_fail s
       | _ => Normal tt
       end)
    (fun _ => Normal (s_type s))
    (fun _ => Normal (vstr "notes"))
    (fun step _ =>
       Normal match step with
              | addChannel => s_added s
              | _ => s_published s
              end)
    (fun _ => Normal (s_toAdd s))
    (fun _ => Normal (s_last s))
    (fun _ => Normal ["c0ffee"%string])
    (fun _ => Normal (vstr "abc123"))
    (fun _ => Normal (vstr "abc123"))
    (fun _ => Normal tt)
    satisfiesBounds
    (fun v => vstr ("v" ++ template v)%string)
    (fun _ => Normal "rendered"%string)
    (fun errors =>
       List.filter err_semanticRelease errors
       ++ List.filter (fun e => negb (err_semanticRelease e)) errors).

(** A run on CI, on branch [name]. *)
Definition contextOn (name : string) (dry : bool) : Context :=
  mkContext (mkEnvCi true name "" false)
    (mkRunOptions dry false false
       (Options.mk vundefined vundefined vundefined))
    vundefined None None None None None None.

Definition resolvedTag (version : string) (channels : list Value)
  : Tag.t TagInfo :=
  Tag.mk ("v" ++ version)%string version (Resolved channels).

(** The release branch [master], bounded by the releases of [next]: it
    holds the releases from 1.0.0 up to, not including, 2.0.0. *)
Definition master : Branch :=
  Branch.mk "master" (Some BranchType.release) (vstr ">=1.0.0 <2.0.0")
    vundefined vundefined vundefined [Semver.Patch; Semver.Minor]
    [resolvedTag "1.0.0" [vnull]].

(** The release branch [next], on channel [next], ahead of [master]. *)
Definition next : Branch :=
  Branch.mk "next" (Some BranchType.release) (vstr ">=2.0.0")
    vundefined (vstr "next") vundefined
    [Semver.Patch; Semver.Minor; Semver.Major]
    [resolvedTag "1.0.0" [vnull]; resolvedTag "2.0.0" [vstr "next"]].

Definition lastOf (version : string) (channels : list Value) : LastRelease.t :=
  LastRelease.mk (vstr version) (vstr ("v" ++ version)%string)
    (vstr ("v" ++ version)%string) channels.



(** A semantic-release error of a plugin, with details. *)
Definition missingToken : Error :=
  mkError "SemanticReleaseError" (Some "ENOGHTOKEN"%string) true None true.

(** A breaking change lands on [master], whose last release is 1.0.0. *)
Definition breakingOnMaster : Script :=
  mkScript (Normal [master; next]) None (lastOf "1.0.0" [vnull]) (Some Semver.Major)
    (Normal tt) (Normal tt) [] [].

(** A fix lands on [master], whose last release is 1.0.0. *)
Definition fixOnMaster : Script :=
  mkScript (Normal [master; next]) None (lastOf "1.0.0" [vnull]) (Some Semver.Patch)
    (Normal tt) (Normal tt) []
    [[("name"%string, vstr "npm package")]].

(** [next] was merged into [master]: release 2.0.0 of channel [next] is to
    be added to the default channel, and there is no new commit. *)
Definition mergedNext : Script :=
  mkScript
    (Normal
       [Branch.mk "master" (Some BranchType.release) (vstr ">=1.0.0")
          vundefined vundefined vundefined
          [Semver.Patch; Semver.Minor; Semver.Major]
          [resolvedTag "1.0.0" [vnull]; resolvedTag "2.0.0" [vstr "next"]]])
    (Some (mkReleaseToAdd (lastOf "1.0.0" [vnull])
             (mkCurrentRelease [vstr "next"] (vstr "v2.0.0"))
             (mkAddedRelease "2.0.0" vnull "v2.0.0" (vstr "v2.0.0") vundefined)))
    (lastOf "2.0.0" [vstr "next"; vnull]) None
    (Normal tt) (Normal tt)
    [[("name"%string, vstr "npm package (@latest dist-tag)")]] [].



(** A classified branch set that passes: the maintenance branch [1.x],
    whose range is the one of its name, [master], and the prerelease
    branches [beta] and [alpha], whose identifier is their name. *)
Definition validBranches : list Branch :=
  [Branch.mk "1.x" (Some BranchType.maintenance) vundefined vundefined
     vundefined vundefined [] [];
   Branch.mk "master" (Some BranchType.release) vundefined vundefined
     vundefined vundefined [] [];
   Branch.mk "beta" (Some BranchType.prerelease) vundefined (vbool true)
     vundefined vundefined [] [];
   Branch.mk "alpha" (Some BranchType.prerelease) vundefined (vbool true)
     vundefined vundefined [] []].

(** A release branch without tag. *)
Definition releaseBranch (name : string) : Branch :=
  Branch.mk name (Some BranchType.release) vundefined vundefined vundefined
    vundefined [] [].

Definition fourReleaseBranches : list Branch :=
  [releaseBranch "master"; releaseBranch "next"; releaseBranch "next-major";
   releaseBranch "future"].

(** [getBranches] ends with the validation of four release branches. *)
Definition tooManyReleaseBranches : Script :=
  mkScript
    (Driver.validate Branches.isMaintenanceRange Inputs.validRangeOf None
       fourReleaseBranches)
    None (lastOf "1.0.0" [vnull]) (Some Semver.Patch) (Normal tt) (Normal tt)
    [] [].

End Worlds.

(* ================================================================== *)
(** * The lifecycle on a trace of the pipeline *)
(* ================================================================== *)

Module Lifecycle.

Import Pipeline.

(** The plugin steps invoked, in order. *)
Fixpoint invokedSteps (tr : Trace) : list Step :=
  match tr with
  | [] => []
  | EvPlugin s :: r => s :: invokedSteps r
  | _ :: r => invokedSteps r
  end.

(** The steps of lines 121-151, for a release added to a channel. *)
Definition addChannelSteps : list Step := [generateNotes; addChannel; success].

(** The steps of lines 175-218, for a new release. *)
Definition releaseSteps : list Step :=
  [analyzeCommits; verifyRelease; generateNotes; prepare; publish; success].

Definition prefixOf {A} (l full : list A) : Prop :=
  exists rest, full = l ++ rest.

(** The events of [run]: those of the default export ([getConfig], the
    Fail step, the log of an error and its details, [unhook]) are not
    among them. *)
Definition ofRun (e : Event) : bool :=
  match e with
  | EvGetConfig | EvPluginFail _ | EvLogError _ | EvUnhook
  | EvTerminalOutput (OfDetails _) | EvWrite Stderr _ => false
  | _ => true
  end.

(** The releases that the Publish step handed back. *)
Fixpoint publishedReleases (tr : Trace) : list Release :=
  match tr with
  | [] => []
  | EvPluginDone publish (Released rs) :: r => rs ++ publishedReleases r
  | _ :: r => publishedReleases r
  end.

(** A field of a result object. *)
Fixpoint fieldOf (name : string) (fields : list (string * Field))
  : option Field :=
  match fields with
  | [] => None
  | (k, v) :: r => if (k =? name)%string then Some v else fieldOf name r
  end.

Definition field (name : string) (r : Result) : option Field :=
  match r with
  | RFalse => None
  | RObject fields => fieldOf name fields
  end.

(** The result of a release: [pick(context, ["lastRelease", "commits",
    "nextRelease", "releases"])] when all four are set. *)
Definition released (last : LastRelease.t) (cs : list Commit)
           (next : NextRelease) (rs : list Release) : Result :=
  RObject [("lastRelease", FLastRelease last); ("commits", FCommits cs);
           ("nextRelease", FNextRelease next); ("releases", FReleases rs)].

(** The git mutations of lines 208-211, for the release [next]. *)
Definition releaseMutations (next : NextRelease) : list Event :=
  [EvTag (gitTag next) (gitHead next);
   EvAddNote [channel next] (gitTag next);
   EvPush;
   EvPushNotes (gitTag next)].

(** The branch [b] has the name, type, range and channel of [a]. *)
Definition samePolicy (a b : Branch) : Prop :=
  Branch.name b = Branch.name a
  /\ Branch.type b = Branch.type a
  /\ Branch.range b = Branch.range a
  /\ Branch.channel b = Branch.channel a.

(** The branch that triggered the run (lines 40-41). *)
Definition triggeredOn (context : Context) : string :=
  if isPr (envCi context) then prBranch (envCi context)
  else ciBranch (envCi context).

Definition permissionError : Thrown := Single (getError "EGITNOPERMISSION").

Definition invalidMergeError : Thrown :=
  AggregateError [getError "EINVALIDMAINTENANCEMERGE"].

End Lifecycle.

(* ================================================================== *)
(** * More concrete worlds *)
(* ================================================================== *)

Module Scenarios.

Import Pipeline.

(** The world [w] where the push permission probe and the comparison with
    the remote branch answer as given. *)
Definition withAuth (w : World) (probe : Completion unit)
           (upToDate : Completion bool) : World :=
  mkWorld (w_getConfig w) (w_verify w) (w_getGitAuthUrl w) (w_getBranches w)
    (fun _ => probe) (fun _ => upToDate)
    (w_step w) (w_analyzeCommits w) (w_generateNotes w) (w_releases w)
    (w_getReleaseToAdd w) (w_getLastRelease w) (w_getCommits w)
    (w_getTagHead w) (w_getGitHead w) (w_git w) (w_satisfies w) (w_makeTag w)
    (w_terminalOutput w) (w_sort w).

(** The world [w] where [terminalOutput] answers as given. *)
Definition withRendering (w : World) (rendered : Completion string) : World :=
  mkWorld (w_getConfig w) (w_verify w) (w_getGitAuthUrl w) (w_getBranches w)
    (w_verifyAuth w) (w_isBranchUpToDate w)
    (w_step w) (w_analyzeCommits w) (w_generateNotes w) (w_releases w)
    (w_getReleaseToAdd w) (w_getLastRelease w) (w_getCommits w)
    (w_getTagHead w) (w_getGitHead w) (w_git w) (w_satisfies w) (w_makeTag w)
    (fun _ => rendered) (w_sort w).

(** [git push --dry-run] is refused. *)
Definition refused : Thrown :=
  Single (mkError "Error" None false (Some 128%Z) false).

(** The maintenance branch [1.x], whose releases stay below 1.1.0 once
    [1.1.x] exists: a merge of 1.1.0 into it is out of its merge range. *)
Definition maintenance : Branch :=
  Branch.mk "1.x" (Some BranchType.maintenance) (vstr ">=1.0.0 <1.1.0")
    vundefined (vstr "1.x") (vstr ">=1.0.0 <1.1.0")
    [Semver.Patch; Semver.Minor] [Worlds.resolvedTag "1.0.0" [vnull]].

(** Release 1.1.0 was merged into [1.x]. *)
Definition mergedAhead : Worlds.Script :=
  Worlds.mkScript (Normal [maintenance])
    (Some (mkReleaseToAdd (Worlds.lastOf "1.0.0" [vnull])
             (mkCurrentRelease [vnull] (vstr "v1.1.0"))
             (mkAddedRelease "1.1.0" (vstr "1.x") "v1.1.0" (vstr "v1.1.0")
                vundefined)))
    (Worlds.lastOf "1.0.0" [vnull]) None (Normal tt) (Normal tt) [] [].

(** A world where the Fail step throws a semantic-release error with
    details, and [terminalOutput] throws. *)
Definition renderingError : Thrown :=
  Single (mkError "TypeError" None false None false).

Definition failingFail : Worlds.Script :=
  Worlds.mkScript (Normal [Worlds.master; Worlds.next]) None
    (Worlds.lastOf "1.0.0" [vnull]) (Some Semver.Patch)
    (Throw (Single Worlds.missingToken)) (Throw (Single Worlds.missingToken))
    [] [].

Definition noRendering : World :=
  withRendering (Worlds.worldOf failingFail) (Throw renderingError).

(** A world where VerifyConditions throws a semantic-release error with
    details, the Fail step succeeds, and [terminalOutput] throws. *)
Definition tokenMissing : Worlds.Script :=
  Worlds.mkScript (Normal [Worlds.master; Worlds.next]) None
    (Worlds.lastOf "1.0.0" [vnull]) (Some Semver.Patch)
    (Throw (Single Worlds.missingToken)) (Normal tt) [] [].

Definition brokenRendering : World :=
  withRendering (Worlds.worldOf tokenMissing) (Throw renderingError).

(** How far [run] is when the next version is computed: the events so
    far, the context, the current branch, the release and the version
    (when [run] does not get that far, the events and a release without
    version). *)
Definition versionPoint (w : World) (context : Context)
  : Trace * Context * Branch * NextRelease * Value :=
  match Observed.upToVersion w context [] with
  | (d, Next (c, b, next, v)) => (d, c, b, next, v)
  | (d, _) =>
      (d, context, Worlds.master,
       mkNextRelease None vnull vnull vundefined vundefined vundefined
         vundefined,
       vundefined)
  end.

Definition breakingPoint : Trace * Context * Branch * NextRelease * Value :=
  Eval vm_compute in
    versionPoint (Worlds.worldOf Worlds.breakingOnMaster)
      (Worlds.contextOn "master" false).

Definition fixPoint : Trace * Context * Branch * NextRelease * Value :=
  Eval vm_compute in
    versionPoint (Worlds.worldOf Worlds.fixOnMaster)
      (Worlds.contextOn "master" false).

(** What [run] resolves with when a fix lands on [master]. *)
Definition fixReleased : Result :=
  Eval vm_compute in
    match snd (run (Worlds.worldOf Worlds.fixOnMaster)
                 (Worlds.contextOn "master" false) []) with
    | Next r => r
    | _ => RFalse
    end.

End Scenarios.

(* ================================================================== *)
(** * Bumps *)
(* ================================================================== *)

Module Bumps.

(** The three bump sizes that commit analysis asks for. *)
Definition isBump (type : Semver.ReleaseType) : bool :=
  match type with
  | Semver.Major | Semver.Minor | Semver.Patch => true
  | _ => false
  end.

Definition belowMax (v : Semver.SemVer) : Prop :=
  (Semver.major v < Semver.MAX_SAFE_INTEGER)%N
  /\ (Semver.minor v < Semver.MAX_SAFE_INTEGER)%N
  /\ (Semver.patch v < Semver.MAX_SAFE_INTEGER)%N.

(** A prerelease identifier as semver words it: not empty, made of
    letters, digits and [-], and without leading zero when it is made of
    digits only. *)
Definition isIdentifier (id : string) : bool :=
  negb (id =? "")%string && Str.forallb Str.is_letterdashnumber id
  && negb (Str.forallb Str.is_digit id && Semver.leadingZero id).

End Bumps.

(* ================================================================== *)
(** * lib/git.js: branches, the remote head and the notes written *)
(* ================================================================== *)

Module GitCommands.

(** The capture of [(?<branch>.+)$] after the rightmost [refs/heads/] in
    [s] that leaves something to capture: the first [.+] of the
    expression is greedy. *)
Fixpoint lastHeads (s : string) : option string :=
  match s with
  | EmptyString => None
  | String c r =>
      match lastHeads r with
      | Some branch => Some branch
      | None =>
          match Str.stripPrefix "refs/heads/" s with
          | Some (String x y) => Some (String x y)
          | _ => None
          end
      end
  end.

(** [line.match(/^.+refs\/heads\/(?<branch>.+)$/)[1]]; [None] when the
    line does not match ([match] gives [null]).  No character of a line
    that matches is a line terminator, and at least one character comes
    before [refs/heads/]. *)
Definition headsBranch (line : string) : option string :=
  if Str.forallb (fun c => negb (GetTags.isLineTerminator c)) line
  then match line with
       | String _ r => lastHeads r
       | EmptyString => None
       end
  else None.

(** [\w] *)
Definition isWord (c : ascii) : bool :=
  Str.is_digit c || Str.is_letter c || (c =? "_")%char.

(** The longest run of [\w] at the front of [s]. *)
Fixpoint leadingWord (s : string) : string :=
  match s with
  | String c r => if isWord c then String c (leadingWord r) else EmptyString
  | EmptyString => EmptyString
  end.

(** [stdout.match(/^(?<ref>\w+)?/)[1]]: the expression always matches,
    and the group is [undefined] when no [\w] is at the front. *)
Definition remoteRef (stdout : string) : Value :=
  match leadingWord stdout with
  | EmptyString => vundefined
  | word => vstr word
  end.

Section Repository.

(** The outcome of [git ls-remote --heads url] and of
    [git ls-remote --heads url branch], and of [git rev-parse HEAD]. *)
Variable gitLsRemoteHeads : string -> Completion string.
Variable gitLsRemoteHead : string -> string -> Completion string.
Variable gitRevParseHead : Completion string.

(** [getBranches]: [map] throws a [TypeError] on the first line that
    does not match, as [null] has no property [1]. *)
Definition getBranches (repositoryUrl : string) : Completion (list string) :=
  bindC (gitLsRemoteHeads repositoryUrl)
    (fun stdout =>
       match Str.traverse headsBranch
               (List.filter (fun line => negb (line =? ""))
                  (Str.split Git.newline stdout)) with
       | Some branches => Normal branches
       | None => Throw TypeError
       end).

(** [getGitHead] *)
Definition getGitHead : Completion string := gitRevParseHead.

(** [isBranchUpToDate]: the left operand of [===] is evaluated first. *)
Definition isBranchUpToDate (repositoryUrl branch : string)
  : Completion bool :=
  bindC getGitHead (fun head =>
  bindC (gitLsRemoteHead repositoryUrl branch) (fun stdout =>
  Normal (strictEq (vstr head) (remoteRef stdout)))).

End Repository.

(** ** The notes of a repository *)

(** The notes that the repository holds: the text of the note of [ref]
    under [refs/notes/notesRef], when there is one.  This is git, not the
    code: [git notes show] prints the note, and exits with code 1 when
    there is none; [git notes add -f -m text] sets it. *)
Definition Notes : Type := string -> string -> option string.

Definition gitNotesShow (notes : Notes) (notesRef ref : string)
  : Completion string :=
  match notes notesRef ref with
  | Some text => Normal text
  | None => Throw (Terms.exited 1)
  end.

Definition gitNotesAdd (notesRef text ref : string) (notes : Notes) : Notes :=
  fun notesRef' ref' =>
    if (notesRef' =? notesRef) && (ref' =? ref) then Some text
    else notes notesRef' ref'.

(** [addNote], when the command succeeds: [JSON_stringify note] is the
    text that [JSON.stringify] gives. *)
Definition addNote (JSON_stringify : Json.t -> string) (note : Json.t)
           (ref : string) (notes : Notes) : Notes :=
  gitNotesAdd (Git.GIT_NOTE_REF ++ "-" ++ ref) (JSON_stringify note) ref notes.

(** The note [{ channels }] that [run] writes. *)
Definition channelsNote (channels : list Json.t) : Json.t :=
  Json.JObj [("channels", Json.JArr channels)].

End GitCommands.

(* ================================================================== *)
(** * Notions on the output of git *)
(* ================================================================== *)

Module Lines.

(** A line that is not empty, has no white space at either end and holds
    no newline. *)
Definition cleanLine (line : string) : Prop :=
  line <> ""
  /\ Str.trim line = line
  /\ Str.forallb (fun c => negb (c =? Git.newline)%char) line = true.

(** The line that [git ls-remote --heads] prints for the branch [name]
    at commit [sha]. *)
Definition headLine (sha name : string) : string :=
  (sha ++ String (ascii_of_nat 9) "" ++ "refs/heads/" ++ name)%string.

(** A sha and a branch name that a line can hold: the name is not empty,
    neither holds a line terminator, and the name holds no [refs/heads/]
    followed by more text. *)
Definition headRef (sha name : string) : Prop :=
  sha <> "" /\ name <> ""
  /\ Str.forallb (fun c => negb (GetTags.isLineTerminator c)) sha = true
  /\ Str.forallb (fun c => negb (GetTags.isLineTerminator c)) name = true
  /\ GitCommands.lastHeads name = None.

End Lines.

(* ================================================================== *)
(** * lib/branches/expand.js *)
(* ================================================================== *)

Module Expand.

(** A branch of the configuration: its [name], a glob, and its other
    properties. *)
Record ConfigBranch : Type := mkConfigBranch {
  name : string;
  properties : list (string * Value)
}.

Section Expansion.

(** [micromatch(list, pattern)] and [template(text)({ name })] are not
    under src/. *)
Variable micromatch : list string -> string -> list string.
Variable template : string -> string -> string.

(** [list.includes(name)] *)
Definition includes (name : string) (names : list string) : bool :=
  existsb (String.eqb name) names.

(** [remove(gitBranches, (name) => micromatch(gitBranches,
    pattern).includes(name))] of lodash: the predicate runs on every
    element before any is removed; the result is what was removed, then
    what is left of [gitBranches]. *)
Definition remove (gitBranches : list string) (pattern : string)
  : list string * list string :=
  List.partition (fun name => includes name (micromatch gitBranches pattern))
    gitBranches.

(** [mapValues(omit(branch, "name"), (value) => isString(value) ?
    template(value)({ name }) : value)] under [{ name, ... }] *)
Definition instantiate (branch : ConfigBranch) (name : string) : ConfigBranch :=
  mkConfigBranch name
    (map (fun p => (fst p,
                    match snd p with
                    | vstr text => vstr (template text name)
                    | other => other
                    end))
       (properties branch)).

(** The [reduce] over the configured branches; [gitBranches] is what
    [remove] has left so far. *)
Fixpoint expandFrom (gitBranches : list string) (branches : list ConfigBranch)
  : list ConfigBranch :=
  match branches with
  | [] => []
  | branch :: rest =>
      let (removed, left) := remove gitBranches (name branch) in
      map (instantiate branch) removed ++ expandFrom left rest
  end.

(** Lines 7-9: the branch of the CI counts as a git branch when
    [publishOnPr] is set. *)
Definition candidates (gitBranches : list string) (publishOnPr : bool)
           (ciBranch : string) : list string :=
  if publishOnPr && negb (includes ciBranch gitBranches)
  then gitBranches ++ [ciBranch]
  else gitBranches.

(** The default export; [getBranches] is the outcome of [getBranches] of
    lib/git.js. *)
Definition expand (getBranches : Completion (list string)) (publishOnPr : bool)
           (ciBranch : string) (branches : list ConfigBranch)
  : Completion (list ConfigBranch) :=
  bindC getBranches
    (fun gitBranches =>
       Normal (expandFrom (candidates gitBranches publishOnPr ciBranch)
                 branches)).

End Expansion.

End Expand.

(* ================================================================== *)
(** * A small repository and configuration *)
(* ================================================================== *)

Module Outputs.

(** [git tag --merged]: two tags, one a line. *)
Definition tags (branch : string) : Completion string :=
  Normal (String.concat (String Git.newline "") ["v1.0.0"; "v1.1.0"]).

Definition refs : list (string * string) :=
  [("abc123", "master"); ("def456", "feature/login")].

(** [git ls-remote --heads]: two branches. *)
Definition heads (url : string) : Completion string :=
  Normal (String.concat (String Git.newline "")
            (map (fun ref => Lines.headLine (fst ref) (snd ref)) refs)).

(** [git ls-remote --heads url branch] for a branch at [abc123]. *)
Definition head (url branch : string) : Completion string :=
  Normal (Lines.headLine "abc123" branch).

(** [JSON.stringify] on the notes [{ channels: [...] }] of strings; any
    other value is not printed here. *)
Definition printChannels (note : Json.t) : string :=
  match note with
  | Json.JObj [(key, Json.JArr channels)] =>
      if (key =? "channels")%string
      then Inputs.channelsText
             (map (fun c => match c with
                            | Json.JStr s => s
                            | _ => ""
                            end) channels)
      else "{}"
  | _ => "{}"
  end.

(** A repository without notes. *)
Definition noNotes : GitCommands.Notes := fun _ _ => None.

(** [micromatch] on patterns without glob characters: the names equal to
    the pattern. *)
Definition literally (pattern name : string) : bool := (pattern =? name)%string.

Definition select (names : list string) (pattern : string) : list string :=
  List.filter (literally pattern) names.

(** [template] on texts without placeholder. *)
Definition constant (text name : string) : string := text.

(** The configured branches [master] and [next], the latter on channel
    [next]. *)
Definition configured : list Expand.ConfigBranch :=
  [Expand.mkConfigBranch "master" [];
   Expand.mkConfigBranch "next" [("channel", vstr "next")]].

End Outputs.

(* ================================================================== *)
(** * The origin of an error *)
(* ================================================================== *)

Module Blame.

Import Pipeline.

(** The error [t] is one that a collaborator of [run] threw: a
    verification, a git command other than the push permission probe and
    the comparison with the remote branch, a plugin step, the version
    calculator or [terminalOutput]. *)
Definition thrownOutside (w : World) (t : Thrown) : Prop :=
  (exists h, w_verify w h = Throw t)
  \/ (exists h, w_getGitAuthUrl w h = Throw t)
  \/ (exists h, w_getBranches w h = Throw t)
  \/ (exists s h, w_step w s h = Throw t)
  \/ (exists h, w_analyzeCommits w h = Throw t)
  \/ (exists h, w_generateNotes w h = Throw t)
  \/ (exists s h, w_releases w s h = Throw t)
  \/ (exists c, w_getReleaseToAdd w c = Throw t)
  \/ (exists c, w_getLastRelease w c = Throw t)
  \/ (exists h, w_getCommits w h = Throw t)
  \/ (exists h, w_getTagHead w h = Throw t)
  \/ (exists h, w_getGitHead w h = Throw t)
  \/ (exists h, w_git w h = Throw t)
  \/ (exists c, NextVersion.getNextVersion (C := TagInfo) c = Throw t)
  \/ (exists h, w_terminalOutput w h = Throw t).

(** The errors that [run] makes itself. *)
Definition ownError (t : Thrown) : Prop :=
  t = Lifecycle.permissionError
  \/ t = invalidNextVersionError
  \/ t = Lifecycle.invalidMergeError.

End Blame.

(* ================================================================== *)
(** * Facts about strings and versions *)
(* ================================================================== *)

Module SemverFacts.

Local Open Scope string_scope.

Lemma forallb_app p a b :
  Str.forallb p (a ++ b) = Str.forallb p a && Str.forallb p b.
Proof.
  induction a as [|c a IH]; simpl; [reflexivity|].
  now rewrite IH, andb_assoc.
Qed.

Lemma forallb_impl (p q : ascii -> bool) s :
  (forall c, p c = true -> q c = true) ->
  Str.forallb p s = true -> Str.forallb q s = true.
Proof.
  intros Hpq; induction s as [|c s IH]; simpl; [reflexivity|].
  intros H; apply andb_true_iff in H as [Hc Hs].
  now rewrite (Hpq _ Hc), IH.
Qed.

Definition isNot (sep c : ascii) : bool := negb (c =? sep)%char.

Lemma cut_absent sep s :
  Str.forallb (isNot sep) s = true -> Str.cut sep s = (s, None).
Proof.
  induction s as [|c s IH]; simpl; [reflexivity|].
  unfold isNot at 1; intros H; apply andb_true_iff in H as [Hc Hs].
  apply negb_true_iff in Hc; rewrite Hc, (IH Hs); reflexivity.
Qed.

Lemma split_absent sep s :
  Str.forallb (isNot sep) s = true -> Str.split sep s = [s].
Proof.
  induction s as [|c s IH]; simpl; [reflexivity|].
  unfold isNot at 1; intros H; apply andb_true_iff in H as [Hc Hs].
  apply negb_true_iff in Hc; rewrite Hc, (IH Hs); reflexivity.
Qed.

Lemma split_app sep a b :
  Str.forallb (isNot sep) a = true ->
  Str.split sep (a ++ String sep b) = a :: Str.split sep b.
Proof.
  induction a as [|c a IH]; simpl.
  - intros _; now rewrite Ascii.eqb_refl.
  - unfold isNot at 1; intros H; apply andb_true_iff in H as [Hc Hs].
    apply negb_true_iff in Hc; rewrite Hc, (IH Hs); reflexivity.
Qed.

Lemma trimEnd_id s :
  Str.forallb (fun c => negb (Str.is_space c)) s = true -> Str.trimEnd s = s.
Proof.
  induction s as [|c s IH]; simpl; [reflexivity|].
  intros H; apply andb_true_iff in H as [Hc Hs].
  apply negb_true_iff in Hc; rewrite (IH Hs), Hc.
  destruct s; reflexivity.
Qed.

Lemma trimStart_id s :
  Str.forallb (fun c => negb (Str.is_space c)) s = true -> Str.trimStart s = s.
Proof.
  destruct s as [|c s]; simpl; [reflexivity|].
  intros H; apply andb_true_iff in H as [Hc Hs].
  apply negb_true_iff in Hc; now rewrite Hc.
Qed.

Lemma trim_id s :
  Str.forallb (fun c => negb (Str.is_space c)) s = true -> Str.trim s = s.
Proof.
  intros H; unfold Str.trim; rewrite (trimStart_id _ H); now apply trimEnd_id.
Qed.

Lemma length_app a b :
  String.length (a ++ b) = String.length a + String.length b.
Proof. induction a; simpl; congruence. Qed.

(** The decimal digits of a number. *)

Lemma digits_of_uint d :
  Str.forallb Str.is_digit (NilEmpty.string_of_uint d) = true.
Proof. induction d; simpl; auto. Qed.

Lemma of_N_digits n : Str.forallb Str.is_digit (Str.of_N n) = true.
Proof. apply digits_of_uint. Qed.

Lemma length_of_uint d :
  String.length (NilEmpty.string_of_uint d) = Decimal.nb_digits d.
Proof. induction d; simpl; congruence. Qed.

Lemma nb_digits_double d :
  Decimal.nb_digits (Decimal.Little.double d) <= S (Decimal.nb_digits d)
  /\ Decimal.nb_digits (Decimal.Little.succ_double d) <= S (Decimal.nb_digits d).
Proof. induction d; simpl; lia. Qed.

Lemma nb_digits_little p :
  Decimal.nb_digits (Pos.to_little_uint p) <= Pos.size_nat p.
Proof.
  induction p; simpl.
  - pose proof (nb_digits_double (Pos.to_little_uint p)); lia.
  - pose proof (nb_digits_double (Pos.to_little_uint p)); lia.
  - lia.
Qed.

Lemma size_nat_bound p k :
  (N.pos p < 2 ^ N.of_nat k)%N -> Pos.size_nat p <= k.
Proof.
  revert k; induction p; intros k H; simpl.
  - destruct k as [|k]; [simpl in H; lia|].
    rewrite Nat2N.inj_succ, N.pow_succ_r' in H.
    apply le_n_S, IHp. lia.
  - destruct k as [|k]; [simpl in H; lia|].
    rewrite Nat2N.inj_succ, N.pow_succ_r' in H.
    apply le_n_S, IHp. lia.
  - destruct k as [|k]; [simpl in H; lia|]. lia.
Qed.

Lemma length_of_N n :
  (n <= Semver.MAX_SAFE_INTEGER)%N -> String.length (Str.of_N n) <= 53.
Proof.
  intros H; unfold Str.of_N; rewrite length_of_uint.
  destruct n as [|p]; simpl; [lia|].
  unfold Pos.to_uint; rewrite nb_digits_rev.
  etransitivity; [apply nb_digits_little|].
  apply size_nat_bound.
  eapply N.le_lt_trans; [exact H|]. reflexivity.
Qed.

Lemma of_N_not_empty n : Str.of_N n <> "".
Proof.
  unfold Str.of_N; intros H.
  assert (E : Decimal.nb_digits (N.to_uint n) = 0)
    by (rewrite <- length_of_uint, H; reflexivity).
  apply nb_digits_0 in E.
  rewrite <- (DecimalN.Unsigned.of_to n) in E.
  rewrite DecimalN.Unsigned.to_of in E.
  now apply unorm_nonnil in E.
Qed.

Lemma to_uint_no_leading_zero n d :
  N.to_uint n = Decimal.D0 d -> d = Decimal.Nil.
Proof.
  intros E.
  assert (U : Decimal.unorm (N.to_uint n) = N.to_uint n).
  { rewrite <- (DecimalN.Unsigned.of_to n) at 2.
    now rewrite DecimalN.Unsigned.to_of. }
  rewrite E, unorm_D0 in U.
  destruct d; try reflexivity;
    match type of U with
    | Decimal.unorm ?u = _ =>
        assert (L : Decimal.nb_digits (Decimal.unorm u) <= Decimal.nb_digits u)
          by (apply nb_digits_unorm; discriminate);
        rewrite U in L; simpl in L; lia
    end.
Qed.

Lemma of_N_leadingZero n : Semver.leadingZero (Str.of_N n) = false.
Proof.
  unfold Str.of_N.
  destruct (N.to_uint n) as [|d|d|d|d|d|d|d|d|d|d] eqn:E;
    try reflexivity;
    try (simpl; destruct (NilEmpty.string_of_uint d); reflexivity).
  apply to_uint_no_leading_zero in E; subst d; reflexivity.
Qed.

Lemma numericIdentifier_of_N n :
  Semver.numericIdentifier (Str.of_N n) = Some n.
Proof.
  unfold Semver.numericIdentifier.
  rewrite of_N_leadingZero.
  destruct (Str.of_N n =? "") eqn:E.
  - apply String.eqb_eq in E. now apply of_N_not_empty in E.
  - simpl. unfold Str.of_N. rewrite NilEmpty.usu.
    now rewrite DecimalN.Unsigned.of_to.
Qed.


Lemma digit_isNot sep c :
  Str.is_digit sep = false -> Str.is_digit c = true -> isNot sep c = true.
Proof.
  intros Hs Hc; unfold isNot.
  destruct (Ascii.eqb_spec c sep); [congruence | reflexivity].
Qed.

Lemma of_N_isNot sep n :
  Str.is_digit sep = false -> Str.forallb (isNot sep) (Str.of_N n) = true.
Proof.
  intros H. apply (forallb_impl Str.is_digit); [|apply of_N_digits].
  intros c Hc. now apply digit_isNot.
Qed.

Lemma digit_not_space c :
  Str.is_digit c = true -> negb (Str.is_space c) = true.
Proof.
  destruct c as [[] [] [] [] [] [] [] []]; (discriminate || reflexivity).
Qed.

Lemma mainIdentifier_of_N n :
  (n <= Semver.MAX_SAFE_INTEGER)%N ->
  Semver.mainIdentifier (Str.of_N n) = Some n.
Proof.
  intros H; unfold Semver.mainIdentifier.
  rewrite numericIdentifier_of_N.
  apply N.leb_le in H; now rewrite H.
Qed.

(** A triplet printed by [formatMain] parses back to itself. *)
Lemma parse_formatMain ma mi pa :
  (ma <= Semver.MAX_SAFE_INTEGER)%N ->
  (mi <= Semver.MAX_SAFE_INTEGER)%N ->
  (pa <= Semver.MAX_SAFE_INTEGER)%N ->
  Semver.parse (Semver.formatMain ma mi pa)
  = Some (Semver.mkSemVer ma mi pa [] []).
Proof.
  intros Hma Hmi Hpa.
  set (isMain := fun c => Str.is_digit c || (c =? ".")%char).
  assert (Hall : Str.forallb isMain (Semver.formatMain ma mi pa) = true).
  { assert (D : forall n, Str.forallb isMain (Str.of_N n) = true).
    { intros n. apply (forallb_impl Str.is_digit); [|apply of_N_digits].
      intros c H; unfold isMain; now rewrite H. }
    unfold Semver.formatMain. rewrite !forallb_app, !D. reflexivity. }
  assert (Hlen : String.length (Semver.formatMain ma mi pa) <= 256).
  { unfold Semver.formatMain. rewrite !length_app. simpl.
    pose proof (length_of_N _ Hma). pose proof (length_of_N _ Hmi).
    pose proof (length_of_N _ Hpa). lia. }
  assert (Hnot : forall sep, isMain sep = false ->
            Str.forallb (isNot sep) (Semver.formatMain ma mi pa) = true).
  { intros sep Hsep. eapply forallb_impl; [|exact Hall].
    intros c Hc. unfold isNot.
    destruct (Ascii.eqb_spec c sep); [congruence|reflexivity]. }
  unfold Semver.parse.
  replace (Semver.MAX_LENGTH <? _)%nat with false
    by (symmetry; apply Nat.ltb_ge; exact Hlen).
  rewrite trim_id.
  2:{ eapply forallb_impl; [|exact Hall]. intros c Hc.
      destruct c as [[] [] [] [] [] [] [] []]; (discriminate || reflexivity). }
  replace (Str.stripPrefix "v" (Semver.formatMain ma mi pa)) with (@None string).
  2:{ unfold Semver.formatMain.
      pose proof (of_N_digits ma) as D. pose proof (of_N_not_empty ma) as NE.
      destruct (Str.of_N ma) as [|c r]; [congruence|].
      apply andb_true_iff in D as [D _].
      change (Str.stripPrefix "v" (String c r ++ "." ++ Str.of_N mi ++ "." ++ Str.of_N pa))
        with (if ("v" =? c)%char
              then Some (r ++ "." ++ Str.of_N mi ++ "." ++ Str.of_N pa)
              else None).
      destruct (Ascii.eqb_spec "v" c) as [<-|]; [discriminate|reflexivity]. }
  rewrite (cut_absent "+") by (apply Hnot; reflexivity).
  rewrite (cut_absent "-") by (apply Hnot; reflexivity).
  unfold Semver.formatMain.
  change ("." ++ Str.of_N mi ++ "." ++ Str.of_N pa)
    with (String "." (Str.of_N mi ++ String "." (Str.of_N pa))).
  rewrite !split_app by (apply of_N_isNot; reflexivity).
  rewrite split_absent by (apply of_N_isNot; reflexivity).
  rewrite !mainIdentifier_of_N by assumption.
  reflexivity.
Qed.

Lemma mainIdentifier_bound s n :
  Semver.mainIdentifier s = Some n -> (n <= Semver.MAX_SAFE_INTEGER)%N.
Proof.
  unfold Semver.mainIdentifier.
  destruct (Semver.numericIdentifier s) as [m|]; [|discriminate].
  destruct (m <=? Semver.MAX_SAFE_INTEGER)%N eqn:E; [|discriminate].
  intros [= <-]. now apply N.leb_le.
Qed.

(** The fields of a parsed version are safe integers. *)
Lemma parse_bounds s v :
  Semver.parse s = Some v ->
  (Semver.major v <= Semver.MAX_SAFE_INTEGER)%N
  /\ (Semver.minor v <= Semver.MAX_SAFE_INTEGER)%N
  /\ (Semver.patch v <= Semver.MAX_SAFE_INTEGER)%N.
Proof.
  unfold Semver.parse.
  destruct (Semver.MAX_LENGTH <? String.length s)%nat; [discriminate|].
  destruct (Str.cut "+" _) as [mainpre b].
  destruct (Str.cut "-" mainpre) as [main p].
  destruct (Str.split "." main) as [|x [|y [|z [|? ?]]]]; try discriminate.
  destruct (Semver.mainIdentifier x) as [a|] eqn:Ha; [|discriminate].
  destruct (Semver.mainIdentifier y) as [b'|] eqn:Hb; [|discriminate].
  destruct (Semver.mainIdentifier z) as [c|] eqn:Hc; [|discriminate].
  destruct (Semver.optionalPart Semver.prereleaseIdentifier p); [|discriminate].
  destruct (Semver.optionalPart Semver.buildIdentifier b); [|discriminate].
  intros [= <-]; simpl.
  repeat split; eapply mainIdentifier_bound; eassumption.
Qed.

End SemverFacts.

(* ================================================================== *)
(** * The version calculator *)
(* ================================================================== *)

Module NextVersionFacts.

Import SemverFacts.

(** [inc] on a version that parses. *)
Lemma inc_parsed s v release :
  Semver.parse s = Some v ->
  NextVersion.inc (vstr s) release
  = Normal (vstr (Semver.format
                    (Semver.incSemVer v
                       (if (Semver.major v =? 0)%N
                        then NextVersion.majorZeroRelease release
                        else release)))).
Proof.
  intros H. unfold NextVersion.inc, NextVersion.parseValue, Semver.inc.
  rewrite H. reflexivity.
Qed.

Lemma inc_unparsed s release :
  Semver.parse s = None -> NextVersion.inc (vstr s) release = Throw TypeError.
Proof.
  intros H. unfold NextVersion.inc, NextVersion.parseValue. now rewrite H.
Qed.

Lemma truthy_vstr s : truthy (vstr s) = true -> s <> "".
Proof. simpl. intros H ->. discriminate. Qed.

Lemma parse_nonempty s v : Semver.parse s = Some v -> truthy (vstr s) = true.
Proof.
  destruct s; [|reflexivity]. vm_compute. discriminate.
Qed.

Section Calculator.

Context {C : Type}.
Variable ctx : NextVersion.Context C.
Variable s : string.
Variable v : Semver.SemVer.
Hypothesis Hversion :
  LastRelease.version (NextVersion.lastRelease ctx) = vstr s.
Hypothesis Hparse : Semver.parse s = Some v.

Let suffix (bumped : Value) : Value :=
  vstr (Terms.suffixed ctx (template bumped)).

(** A branch that is not a prerelease branch: the last version bumped. *)
Lemma getNextVersion_release :
  Branch.type (NextVersion.branch ctx) <> Some BranchType.prerelease ->
  NextVersion.getNextVersion ctx
  = NextVersion.inc (vstr s) (NextVersion.type (NextVersion.nextRelease ctx)).
Proof.
  intros Hty. unfold NextVersion.getNextVersion.
  rewrite Hversion, (parse_nonempty _ _ Hparse).
  unfold NextVersion.parseValue. rewrite Hparse.
  destruct (Branch.type (NextVersion.branch ctx)) as [[]|];
    try reflexivity. congruence.
Qed.

(** A prerelease branch where the continuation does not apply. *)
Lemma getNextVersion_fresh :
  Branch.type (NextVersion.branch ctx) = Some BranchType.prerelease ->
  Terms.continues ctx = false ->
  NextVersion.getNextVersion ctx
  = bindC (NextVersion.inc
             (vstr (Semver.formatMain (Semver.major v) (Semver.minor v)
                      (Semver.patch v)))
             (NextVersion.type (NextVersion.nextRelease ctx)))
      (fun bumped => Normal (suffix bumped)).
Proof.
  intros Hty Hc. unfold NextVersion.getNextVersion.
  rewrite Hversion, (parse_nonempty _ _ Hparse), Hty.
  unfold NextVersion.parseValue. rewrite Hparse.
  unfold Terms.continues in Hc. rewrite Hversion in Hc. rewrite Hc.
  reflexivity.
Qed.

(** A prerelease branch where the continuation applies. *)
Lemma getNextVersion_continued :
  Branch.type (NextVersion.branch ctx) = Some BranchType.prerelease ->
  Terms.continues ctx = true ->
  NextVersion.getNextVersion ctx
  = bindC (NextVersion.inc (vstr s) Semver.Prerelease) (fun continued =>
    bindC (Utils.getLatestVersion
             (Utils.tagsToVersions (Branch.tags (NextVersion.branch ctx)))
             true) (fun latest =>
    bindC (NextVersion.inc latest
             (NextVersion.type (NextVersion.nextRelease ctx))) (fun bumped =>
    Utils.highest continued (suffix bumped)))).
Proof.
  intros Hty Hc. unfold NextVersion.getNextVersion.
  rewrite Hversion, (parse_nonempty _ _ Hparse), Hty.
  unfold NextVersion.parseValue. rewrite Hparse.
  unfold Terms.continues in Hc. rewrite Hversion in Hc. rewrite Hc.
  reflexivity.
Qed.

End Calculator.


Lemma BranchType_prerelease_dec (ty : option BranchType.t) :
  {ty = Some BranchType.prerelease} + {ty <> Some BranchType.prerelease}.
Proof. destruct ty as [[]|]; (now left) || (right; discriminate). Qed.

(** ** The helper [inc] of get-next-version.js *)






(** ** Major zero *)

Lemma continues_withType {C} (ctx : NextVersion.Context C) type :
  Terms.continues (Terms.withType ctx type) = Terms.continues ctx.
Proof. reflexivity. Qed.

Lemma parse_triplet v s :
  Semver.parse s = Some v ->
  Semver.parse (Semver.formatMain (Semver.major v) (Semver.minor v)
                  (Semver.patch v))
  = Some (Terms.triplet v).
Proof.
  intros H. destruct (parse_bounds _ _ H) as (Ha & Hb & Hc).
  now apply parse_formatMain.
Qed.

Lemma inc_minor_patch s v :
  Semver.parse s = Some v -> Semver.major v = 0%N ->
  NextVersion.inc (vstr s) Semver.Minor = NextVersion.inc (vstr s) Semver.Patch.
Proof.
  intros H H0. rewrite !(inc_parsed _ _ _ H), H0. reflexivity.
Qed.

Lemma inc_major_zero s v :
  Semver.parse s = Some v -> Semver.major v = 0%N ->
  NextVersion.inc (vstr s) Semver.Major
  = Normal (vstr (Semver.format (Semver.incSemVer v Semver.Minor))).
Proof.
  intros H H0. rewrite (inc_parsed _ _ _ H), H0. reflexivity.
Qed.

(** C2, as amended.  For a last release [s] with major 0: the calculator
    returns for a requested "minor" what it returns for "patch", on every
    branch (where the continuation applies, the highest tag of the branch
    is bumped too, and it must have major 0 as well); and a requested
    "major" is computed as a semver minor increment: of [s] on a release or
    maintenance branch, of the triplet of [s], with the suffix of the
    branch, on a prerelease branch where the continuation does not apply;
    and where the continuation applies, the result is the higher of [s]
    with its prerelease counter incremented and of the highest tag of the
    branch, bumped by a minor increment when that tag has major 0 and by a
    major increment when it has not, with the suffix of the branch (a
    [TypeError] when the branch has no tag, or when its highest tag does
    not parse, and the error of the comparison of the tags when it
    throws). *)
Theorem major_zero_dampening
  {C} (ctx : NextVersion.Context C) (s : string) (v : Semver.SemVer) :
  LastRelease.version (NextVersion.lastRelease ctx) = vstr s ->
  Semver.parse s = Some v ->
  Semver.major v = 0%N ->
  ((Branch.type (NextVersion.branch ctx) = Some BranchType.prerelease ->
    Terms.continues ctx = true ->
    forall latest lv,
      Utils.getLatestVersion
        (Utils.tagsToVersions (Branch.tags (NextVersion.branch ctx))) true
      = Normal (vstr latest) ->
      Semver.parse latest = Some lv -> Semver.major lv = 0%N) ->
   NextVersion.getNextVersion (Terms.withType ctx Semver.Minor)
   = NextVersion.getNextVersion (Terms.withType ctx Semver.Patch))
  /\ NextVersion.inc (vstr s) Semver.Minor
     = NextVersion.inc (vstr s) Semver.Patch
  /\ NextVersion.inc (vstr s) Semver.Major
     = Normal (vstr (Semver.format (Semver.incSemVer v Semver.Minor)))
  /\ (Branch.type (NextVersion.branch ctx) <> Some BranchType.prerelease ->
      NextVersion.getNextVersion (Terms.withType ctx Semver.Major)
      = Normal (vstr (Semver.format (Semver.incSemVer v Semver.Minor))))
  /\ (Branch.type (NextVersion.branch ctx) = Some BranchType.prerelease ->
      Terms.continues ctx = false ->
      NextVersion.getNextVersion (Terms.withType ctx Semver.Major)
      = Normal (vstr (Terms.suffixed ctx
                        (Semver.format
                           (Semver.incSemVer (Terms.triplet v) Semver.Minor)))))
  /\ (Branch.type (NextVersion.branch ctx) = Some BranchType.prerelease ->
      Terms.continues ctx = true ->
      forall error,
        Utils.getLatestVersion
          (Utils.tagsToVersions (Branch.tags (NextVersion.branch ctx))) true
        = Throw error ->
        NextVersion.getNextVersion (Terms.withType ctx Semver.Major)
        = Throw error)
  /\ (Branch.type (NextVersion.branch ctx) = Some BranchType.prerelease ->
      Terms.continues ctx = true ->
      forall latest,
        Utils.getLatestVersion
          (Utils.tagsToVersions (Branch.tags (NextVersion.branch ctx))) true
        = Normal latest ->
        (NextVersion.parseValue latest = None ->
         NextVersion.getNextVersion (Terms.withType ctx Semver.Major)
         = Throw TypeError)
        /\ (forall lv,
              NextVersion.parseValue latest = Some lv ->
              NextVersion.getNextVersion (Terms.withType ctx Semver.Major)
              = Utils.highest
                  (vstr (Semver.format (Semver.incSemVer v Semver.Prerelease)))
                  (vstr (Terms.suffixed ctx
                           (Semver.format
                              (Semver.incSemVer lv
                                 (Terms.dampened lv Semver.Major))))))).
Proof.
  intros Hversion Hparse Hmajor.
  pose proof (parse_triplet _ _ Hparse) as Htriplet.
  assert (Htmajor : Semver.major (Terms.triplet v) = 0%N) by exact Hmajor.
  split; [|split; [|split; [|split; [|split; [|split]]]]].
  - intros Hlatest.
    destruct (BranchType_prerelease_dec (Branch.type (NextVersion.branch ctx)))
      as [Hty|Hty].
    + destruct (Terms.continues ctx) eqn:Hc.
      * rewrite !(getNextVersion_continued (Terms.withType ctx _) s v
                    Hversion Hparse Hty Hc).
        cbn [Terms.withType NextVersion.branch NextVersion.nextRelease
             NextVersion.type].
        destruct (NextVersion.inc (vstr s) Semver.Prerelease); [|reflexivity].
        cbn [bindC].
        destruct (Utils.getLatestVersion _ true) as [latest|] eqn:El;
          [|reflexivity].
        cbn [bindC].
        destruct latest as [| |b|l]; try reflexivity.
        destruct (Semver.parse l) as [lv|] eqn:Epl.
        -- now rewrite (inc_minor_patch l lv Epl
                          (Hlatest Hty eq_refl l lv eq_refl Epl)).
        -- now rewrite !(inc_unparsed _ _ Epl).
      * rewrite !(getNextVersion_fresh (Terms.withType ctx _) s v
                    Hversion Hparse Hty Hc).
        cbn [Terms.withType NextVersion.branch NextVersion.nextRelease
             NextVersion.type].
        now rewrite (inc_minor_patch _ _ Htriplet Htmajor).
    + rewrite !(getNextVersion_release (Terms.withType ctx _) s v
                  Hversion Hparse Hty).
      now apply inc_minor_patch with v.
  - now apply inc_minor_patch with v.
  - now apply inc_major_zero.
  - intros Hty.
    rewrite (getNextVersion_release (Terms.withType ctx _) s v
               Hversion Hparse Hty).
    now apply inc_major_zero.
  - intros Hty Hc.
    rewrite (getNextVersion_fresh (Terms.withType ctx _) s v
               Hversion Hparse Hty Hc).
    cbn [Terms.withType NextVersion.branch NextVersion.nextRelease
         NextVersion.type].
    rewrite (inc_major_zero _ _ Htriplet Htmajor). reflexivity.
  - intros Hty Hc error El.
    rewrite (getNextVersion_continued (Terms.withType ctx _) s v
               Hversion Hparse Hty Hc).
    cbn [Terms.withType NextVersion.branch NextVersion.nextRelease
         NextVersion.type].
    now rewrite (inc_parsed _ _ _ Hparse), El.
  - intros Hty Hc latest El.
    rewrite (getNextVersion_continued (Terms.withType ctx _) s v
               Hversion Hparse Hty Hc).
    cbn [Terms.withType NextVersion.branch NextVersion.nextRelease
         NextVersion.type].
    rewrite (inc_parsed _ _ _ Hparse), Hmajor, El.
    cbn [bindC N.eqb NextVersion.majorZeroRelease].
    split.
    + intros Hnone. destruct latest as [| |b|l]; try reflexivity.
      cbn [NextVersion.parseValue] in Hnone.
      now rewrite (inc_unparsed _ _ Hnone).
    + intros lv Hlv. destruct latest as [| |b|l]; try discriminate Hlv.
      cbn [NextVersion.parseValue] in Hlv.
      rewrite (inc_parsed _ _ _ Hlv). reflexivity.
Qed.


Lemma major_zero_dampening_witness :
  NextVersion.getNextVersion
    (Terms.withType (Inputs.beta_0_0_1 Semver.Patch) Semver.Minor)
  = NextVersion.getNextVersion
      (Terms.withType (Inputs.beta_0_0_1 Semver.Patch) Semver.Patch)
  /\ NextVersion.inc (vstr "0.0.1-beta.1") Semver.Major
     = Normal (vstr "0.1.0")
  /\ NextVersion.getNextVersion
       (Terms.withType (Inputs.beta_0_0_1 Semver.Patch) Semver.Major)
     = Normal (vstr "0.1.0-beta.1").
Proof.
  assert (Hlatest :
    Branch.type (NextVersion.branch (Inputs.beta_0_0_1 Semver.Patch))
    = Some BranchType.prerelease ->
    Terms.continues (Inputs.beta_0_0_1 Semver.Patch) = true ->
    forall latest lv,
      Utils.getLatestVersion
        (Utils.tagsToVersions
           (Branch.tags (NextVersion.branch (Inputs.beta_0_0_1 Semver.Patch))))
        true = Normal (vstr latest) ->
      Semver.parse latest = Some lv -> Semver.major lv = 0%N).
  { intros _ _ latest lv H. vm_compute in H. injection H as <-.
    intros H. vm_compute in H. injection H as <-. reflexivity. }
  destruct (major_zero_dampening (Inputs.beta_0_0_1 Semver.Patch)
              "0.0.1-beta.1"
              (Semver.mkSemVer 0 0 1 [Semver.IStr "beta"; Semver.INum 1] [])
              eq_refl eq_refl eq_refl)
    as (Hminor & _ & Hmajor & _ & _ & _ & Hcont).
  split; [exact (Hminor Hlatest)|]. split; [rewrite Hmajor; reflexivity|].
  destruct (Hcont eq_refl eq_refl (vstr "0.0.1-beta.1") eq_refl) as [_ H].
  rewrite (H (Semver.mkSemVer 0 0 1 [Semver.IStr "beta"; Semver.INum 1] [])
             eq_refl).
  reflexivity.
Defined.

(** C2, as stated, fails on a release branch whose last release is 0.0.1:
    a requested "major" gives 0.1.0 and a requested "minor" gives 0.0.2
    (the tests "Increase version for major release at major version 0" and
    "Increase version for minor release at major version 0"). *)
Lemma major_differs_from_minor_at_major_zero :
  NextVersion.getNextVersion (Inputs.master_0_0_1 Semver.Major)
  = Normal (vstr "0.1.0")
  /\ NextVersion.getNextVersion (Inputs.master_0_0_1 Semver.Minor)
     = Normal (vstr "0.0.2")
  /\ NextVersion.getNextVersion (Inputs.master_0_0_1 Semver.Major)
     <> NextVersion.getNextVersion (Inputs.master_0_0_1 Semver.Minor).
Proof.
  split; [reflexivity|]. split; [reflexivity|].
  vm_compute. discriminate.
Qed.

(** ** The prerelease branch *)

Lemma dampened_prerelease v :
  Terms.dampened v Semver.Prerelease = Semver.Prerelease.
Proof. unfold Terms.dampened. now destruct (Semver.major v =? 0)%N. Qed.

Lemma highest_parsed a b x y :
  Semver.parse a = Some x -> Semver.parse b = Some y ->
  Utils.highest (vstr a) (vstr b)
  = Normal (vstr match Semver.compareSemVer x y with
                 | Gt => a
                 | _ => b
                 end).
Proof.
  intros Ha Hb. unfold Utils.highest.
  pose proof (parse_nonempty _ _ Ha) as Na.
  pose proof (parse_nonempty _ _ Hb) as Nb.
  cbn [truthy] in Na, Nb.
  apply negb_true_iff in Na, Nb. rewrite Na, Nb.
  unfold Semver.gt, Semver.compare. rewrite Ha, Hb. cbn [bindC].
  now destruct (Semver.compareSemVer x y).
Qed.

(** C1, as amended.  On a prerelease branch with a last release [s]:
    - when the continuation does not apply, the next version is the
      triplet of [s] (not the highest tag of the branch) bumped by the
      requested type under the major-zero rule, with
      [-<identifier>.<base>] appended;
    - when it applies, the next version is the semver-greater of [s] with
      its prerelease counter incremented and of the fresh candidate: the
      highest version among the tags of the branch, prereleases included
      and with their suffix, bumped by [semver.inc] with the requested
      type under the major-zero rule, with [-<identifier>.<base>]
      appended. *)
Theorem prerelease_branch_next_version
  {C} (ctx : NextVersion.Context C) (s : string) (v : Semver.SemVer) :
  Branch.type (NextVersion.branch ctx) = Some BranchType.prerelease ->
  LastRelease.version (NextVersion.lastRelease ctx) = vstr s ->
  Semver.parse s = Some v ->
  let type := NextVersion.type (NextVersion.nextRelease ctx) in
  (Terms.continues ctx = false ->
   NextVersion.getNextVersion ctx
   = Normal (vstr (Terms.suffixed ctx
                     (Semver.format
                        (Semver.incSemVer (Terms.triplet v)
                           (Terms.dampened (Terms.triplet v) type))))))
  /\ (Terms.continues ctx = true ->
      forall latest lv c f,
        Utils.getLatestVersion
          (Utils.tagsToVersions (Branch.tags (NextVersion.branch ctx))) true
        = Normal (vstr latest) ->
        Semver.parse latest = Some lv ->
        let continued :=
          Semver.format (Semver.incSemVer v Semver.Prerelease) in
        let fresh :=
          Terms.suffixed ctx
            (Semver.format (Semver.incSemVer lv (Terms.dampened lv type))) in
        Semver.parse continued = Some c ->
        Semver.parse fresh = Some f ->
        NextVersion.getNextVersion ctx
        = Normal (vstr match Semver.compareSemVer c f with
                       | Gt => continued
                       | _ => fresh
                       end)).
Proof.
  intros Hty Hversion Hparse type. split.
  - intros Hc.
    rewrite (getNextVersion_fresh ctx s v Hversion Hparse Hty Hc).
    rewrite (inc_parsed _ _ _ (parse_triplet _ _ Hparse)). reflexivity.
  - intros Hc latest lv c f Hlatest Hlv continued fresh Hpc Hpf.
    rewrite (getNextVersion_continued ctx s v Hversion Hparse Hty Hc).
    rewrite (inc_parsed _ _ _ Hparse). cbn [bindC].
    rewrite Hlatest. cbn [bindC].
    rewrite (inc_parsed _ _ _ Hlv). cbn [bindC template].
    fold (Terms.dampened v Semver.Prerelease). rewrite dampened_prerelease.
    fold (Terms.dampened lv type).
    now apply highest_parsed.
Qed.

Lemma prerelease_branch_next_version_witness :
  NextVersion.getNextVersion Inputs.alpha_from_beta
  = Normal (vstr "1.0.2-alpha.1")
  /\ NextVersion.getNextVersion Inputs.beta_after_alpha
     = Normal (vstr "2.0.0-beta.1").
Proof.
  split.
  - destruct (prerelease_branch_next_version Inputs.alpha_from_beta
                "1.0.1-beta.1"
                (Semver.mkSemVer 1 0 1 [Semver.IStr "beta"; Semver.INum 1] [])
                eq_refl eq_refl eq_refl) as [H _].
    rewrite (H eq_refl). reflexivity.
  - destruct (prerelease_branch_next_version Inputs.beta_after_alpha
                "1.0.1-beta.1"
                (Semver.mkSemVer 1 0 1 [Semver.IStr "beta"; Semver.INum 1] [])
                eq_refl eq_refl eq_refl) as [_ H].
    rewrite (H eq_refl "2.0.0-alpha.1"
               (Semver.mkSemVer 2 0 0 [Semver.IStr "alpha"; Semver.INum 1] [])
               (Semver.mkSemVer 1 0 1 [Semver.IStr "beta"; Semver.INum 2] [])
               (Semver.mkSemVer 2 0 0 [Semver.IStr "beta"; Semver.INum 1] [])
               eq_refl eq_refl eq_refl eq_refl).
    reflexivity.
Defined.

(** C1, as stated, fails for the branch [beta] that continues
    1.0.1-beta.1 and holds the tags 1.0.0, 2.0.0-alpha.1 and 1.0.1-beta.1,
    with a requested patch: the code returns 2.0.0-beta.1, while the rule
    of the claim gives 2.0.1-beta.1 when the suffix of the highest tag is
    dropped, and 1.0.1-beta.2 when the tags with a suffix are left out. *)
Lemma claimed_prerelease_rule_fails :
  NextVersion.getNextVersion Inputs.beta_after_alpha
  = Normal (vstr "2.0.0-beta.1")
  /\ Claimed.nextVersion Claimed.SuffixDropped Inputs.beta_after_alpha
     = Some (Normal (vstr "2.0.1-beta.1"))
  /\ Claimed.nextVersion Claimed.PrereleasesLeftOut Inputs.beta_after_alpha
     = Some (Normal (vstr "1.0.1-beta.2"))
  /\ (forall reading,
        Claimed.nextVersion reading Inputs.beta_after_alpha
        <> Some (NextVersion.getNextVersion Inputs.beta_after_alpha)).
Proof.
  split; [reflexivity|]. split; [reflexivity|]. split; [reflexivity|].
  intros [] H; vm_compute in H; discriminate.
Qed.

End NextVersionFacts.

(* ================================================================== *)
(** * Facts about traces *)
(* ================================================================== *)

Module TraceFacts.

Import Pipeline Observed.

Lemma mutationsAfter_seen mark d : mutationsAfter mark true d = true.
Proof.
  induction d as [|e d IH]; [reflexivity|].
  cbn [mutationsAfter]. destruct (mark e); [exact IH|].
  now rewrite orb_true_r.
Qed.

Lemma mutationsAfter_app mark seen d1 d2 :
  quiet d1 = true ->
  mutationsAfter mark seen (d1 ++ d2)
  = mutationsAfter mark (seen || marked mark d1) d2.
Proof.
  revert seen; induction d1 as [|e d1 IH]; intros seen Hq.
  - simpl. now rewrite orb_false_r.
  - cbn [quiet forallb] in Hq. apply andb_true_iff in Hq as [He Hq].
    cbn [app mutationsAfter marked existsb].
    destruct (mark e).
    + rewrite (IH true Hq). cbn [orb]. now rewrite orb_true_r.
    + rewrite He. cbn [orb andb]. exact (IH seen Hq).
Qed.

Lemma quiet_mutationsAfter mark seen d :
  quiet d = true -> mutationsAfter mark seen d = true.
Proof.
  intros H. rewrite <- (List.app_nil_r d), (mutationsAfter_app _ _ _ _ H).
  reflexivity.
Qed.

(** What [mutationsAfter] checks. *)
Lemma mutationsAfter_sound mark seen tr :
  mutationsAfter mark seen tr = true ->
  forall pre e post,
    tr = pre ++ e :: post -> isGitMutation e = true -> mark e = false ->
    seen = true \/ exists m, In m pre /\ mark m = true.
Proof.
  revert seen; induction tr as [|x tr IH]; intros seen H pre e post E Hm Hk.
  - destruct pre; discriminate.
  - destruct pre as [|y pre]; cbn [app] in E; injection E as E1 E2;
      subst x tr; cbn [mutationsAfter] in H.
    + rewrite Hk, Hm in H. cbn [negb orb] in H.
      apply andb_true_iff in H as [H _]. now left.
    + destruct (mark y) eqn:Hy.
      * right. exists y. split; [now left | exact Hy].
      * apply andb_true_iff in H as [_ H].
        destruct (IH seen H pre e post eq_refl Hm Hk) as [->|(m & Hin & Hmark)];
          [now left | right; exists m; split; [now right | exact Hmark]].
Qed.

Lemma noPublish_follows p d : noPublish d = true -> publishFollowsPush p d = true.
Proof.
  revert p; induction d as [|e d IH]; intros p H; [reflexivity|].
  cbn [noPublish forallb] in H. apply andb_true_iff in H as [He H].
  destruct e as [| | | | | |s|s r| | | | | | | | | | | |];
    try (cbn [publishFollowsPush]; apply IH; exact H).
  destruct s; try discriminate He; cbn [publishFollowsPush]; apply IH; exact H.
Qed.

Lemma publishFollowsPush_app p d1 d2 :
  noPublish d1 = true ->
  (forall q, publishFollowsPush q d2 = true) ->
  publishFollowsPush p (d1 ++ d2) = true.
Proof.
  revert p; induction d1 as [|e d1 IH]; intros p H H2; [apply H2|].
  cbn [noPublish forallb] in H. apply andb_true_iff in H as [He H].
  destruct e as [| | | | | |s|s r| | | | | | | | | | | |];
    try (cbn [app publishFollowsPush]; apply IH; assumption).
  destruct s; try discriminate He; cbn [app publishFollowsPush]; apply IH;
    assumption.
Qed.

(** What [publishFollowsPush] checks. *)
Lemma publishFollowsPush_sound tr :
  publishFollowsPush NoTag tr = true ->
  forall pre post,
    tr = pre ++ EvPlugin publish :: post ->
    exists a tagName ref b c,
      pre = a ++ EvTag tagName ref :: b ++ EvPush :: c.
Proof.
  assert (G : forall tr p, publishFollowsPush p tr = true ->
            forall pre post, tr = pre ++ EvPlugin publish :: post ->
            match p with
            | Pushed => True
            | Tagged => exists b c, pre = b ++ EvPush :: c
            | NoTag => exists a tagName ref b c,
                         pre = a ++ EvTag tagName ref :: b ++ EvPush :: c
            end).
  { clear tr. induction tr as [|x tr IH]; intros p H pre post E.
    - destruct pre; discriminate.
    - destruct pre as [|y pre]; cbn [app] in E; injection E as E1 E2;
        subst x tr.
      + cbn in H. destruct p; try discriminate H. exact I.
      + destruct p; [| |exact I].
        * (* no tag yet *)
          destruct y as [| | | | | |s|s r| | | | |tn rf| | | | | | |];
            try (cbn in H;
                 destruct (IH NoTag H pre post eq_refl)
                   as (a & tn' & rf' & b & c & ->);
                 eexists (_ :: a), tn', rf', b, c; reflexivity).
          -- destruct s;
               try (cbn in H;
                    destruct (IH NoTag H pre post eq_refl)
                      as (a & tn' & rf' & b & c & ->);
                    eexists (_ :: a), tn', rf', b, c; reflexivity).
             discriminate H.
          -- cbn in H. destruct (IH Tagged H pre post eq_refl) as (b & c & ->).
             exists [], tn, rf, b, c. reflexivity.
        * (* tag created *)
          destruct y as [| | | | | |s|s r| | | | | | | | | | | |];
            try (cbn in H;
                 destruct (IH Tagged H pre post eq_refl) as (b & c & ->);
                 eexists (_ :: b), c; reflexivity).
          -- destruct s;
               try (cbn in H;
                    destruct (IH Tagged H pre post eq_refl) as (b & c & ->);
                    eexists (_ :: b), c; reflexivity).
             discriminate H.
          -- exists [], pre. reflexivity. }
  intros H pre post E. exact (G tr NoTag H pre post E).
Qed.

Lemma addedReleases_app d1 d2 :
  addedReleases (d1 ++ d2) = addedReleases d1 ++ addedReleases d2.
Proof.
  induction d1 as [|e d1 IH]; [reflexivity|].
  destruct e as [| | | | | |s|s r| | | | | | | | | | | |];
    try (cbn [app addedReleases]; exact IH).
  destruct s; try (cbn [app addedReleases]; exact IH).
  destruct r; try (cbn [app addedReleases]; exact IH).
  cbn [app addedReleases]. now rewrite IH, List.app_assoc.
Qed.

Lemma analysedNothing_app d1 d2 :
  analysedNothing (d1 ++ d2) = analysedNothing d1 || analysedNothing d2.
Proof.
  induction d1 as [|e d1 IH]; [reflexivity|].
  destruct e as [| | | | | |s|s r| | | | | | | | | | | |];
    try (cbn [app analysedNothing]; exact IH).
  destruct s; try (cbn [app analysedNothing]; exact IH).
  destruct r as [|[t|]| |]; try (cbn [app analysedNothing]; exact IH).
  reflexivity.
Qed.

End TraceFacts.

(* ================================================================== *)
(** * The release pipeline                                              *)
(* ================================================================== *)

Module PipelineFacts.

Import Pipeline Observed TraceFacts.

(** Symbolic execution of a part of [run]: unfold the monad, then split on
    whatever the outside answers. *)
Ltac reduce :=
  cbv beta iota zeta
      delta [prelude afterVerifyConditions newReleasePath computeVersion
             fromVersion
             publishRelease addChannelPath checkAuth invalidNextVersion
             plugin pluginStep pluginNotes pluginReleases
             call emit ret bind tryCatch throw returns lift resolved
             callFail logErrors fst snd isEmpty negb orb andb
             setOptions setBranches setBranch setReleases setLastRelease
             setCommits setNextRelease releasesOf pick
             envCi options packageVersion branches Pipeline.branch releases
             lastRelease commits nextRelease dryRun];
  cbn [app].

Ltac step :=
  match goal with
  | |- context [match ?x with _ => _ end] =>
      lazymatch x with
      | context [match _ with _ => _ end] => fail
      | _ => destruct x
      end
  end.

Ltac explore := reduce; repeat (step; reduce).

(** Up to VerifyConditions: no git mutation, no Publish step, nothing
    added or analysed.  The part goes on only when the branches were read
    and VerifyConditions is done, with the options of the start (dry run
    forced outside CI); it returns only [false]. *)
Lemma prelude_spec w context history :
  let (d, o) := prelude w context history in
  quiet d = true /\ noPublish d = true
  /\ addedReleases d = [] /\ analysedNothing d = false
  /\ match o with
     | Next started =>
         marked isVerified d = true /\ marked isGetBranches d = true
         /\ options (fst started) = options (forceDryRun context)
     | Return r => r = RFalse
     | Raise _ => True
     end.
Proof.
  set (c := forceDryRun context).
  unfold prelude. fold c. destruct c as [ci o pv bs b rs lr cs nr].
  explore; repeat split; reflexivity.
Qed.

(** The release added to a channel: no Publish step, no analysis; the
    part does not return, and when it goes on, the releases of the context
    are those it had and those that the AddChannel step handed back. *)
Lemma addChannelPath_spec w context branch r history :
  let (d, o) := addChannelPath w context branch r history in
  noPublish d = true /\ analysedNothing d = false
  /\ match o with
     | Next (context', _, errors) =>
         options context' = options context
         /\ releasesOf context' = releasesOf context ++ addedReleases d
     | Return _ => False
     | Raise _ => True
     end.
Proof.
  destruct context as [ci [dry noci pub vo] pv bs b rs lr cs nr];
    explore; repeat split; cbn [addedReleases app]; rewrite ?List.app_nil_r;
    reflexivity.
Qed.

(** The new release: nothing added to a channel; outside a dry run, every
    Publish step comes after a push that comes after the tag creation; the
    part returns early exactly when the analysis gave no bump size, with
    the releases of the context when there are some, [false] when not;
    and its normal result holds the four fields. *)
Lemma newReleasePath_spec w context branch history :
  let (d, o) := newReleasePath w context branch history in
  addedReleases d = []
  /\ (dryRun (options context) = false -> forall p, publishFollowsPush p d = true)
  /\ match o with
     | Next r =>
         analysedNothing d = false
         /\ fieldNames r = ["lastRelease"; "commits"; "nextRelease"; "releases"]
     | Return r =>
         analysedNothing d = true
         /\ r = (if isEmpty (releasesOf context) then RFalse
                 else onlyReleases (releasesOf context))
     | Raise _ => True
     end.
Proof.
  destruct context as [ci [dry noci pub vo] pv bs b rs lr cs nr];
    destruct dry; explore;
    (split; [reflexivity|]);
    (split; [intros H; try discriminate H; intros []; reflexivity|]);
    repeat split; reflexivity.
Qed.

(** After VerifyConditions (lines 108-231). *)
Lemma afterVerifyConditions_spec w context branch history :
  let (d, o) := afterVerifyConditions w context branch history in
  (dryRun (options context) = false -> forall p, publishFollowsPush p d = true)
  /\ match o with
     | Next r =>
         analysedNothing d = false
         /\ fieldNames r = ["lastRelease"; "commits"; "nextRelease"; "releases"]
     | Return r =>
         analysedNothing d = true
         /\ r = (if isEmpty (addedReleases d) then RFalse
                 else onlyReleases (addedReleases d))
     | Raise _ => True
     end.
Proof.
  unfold afterVerifyConditions, bind, lift.
  set (c0 := setReleases context []).
  assert (Hopt : options c0 = options context) by reflexivity.
  assert (Hrel : releasesOf c0 = []) by reflexivity.
  clearbody c0.
  destruct (w_getReleaseToAdd w c0) as [[r|]|t]; cbn [ret throw fst snd app].
  - pose proof (addChannelPath_spec w c0 branch r (history ++ [])) as Hadd.
    destruct (addChannelPath w c0 branch r (history ++ [])) as [d1 o1].
    destruct Hadd as (Hpub1 & Han1 & Ho1).
    destruct o1 as [[[c1 b1] errors]|r1|t1];
      [|contradiction|split; [intros _ p; now apply noPublish_follows|exact I]].
    destruct Ho1 as [Hopt1 Hrel1]. rewrite Hrel in Hrel1. cbn [app] in Hrel1.
    destruct errors as [|e errors]; cbn [isEmpty].
    + pose proof (newReleasePath_spec w c1 b1 ((history ++ []) ++ d1)) as Hnew.
      destruct (newReleasePath w c1 b1 ((history ++ []) ++ d1)) as [d2 o2].
      destruct Hnew as (Hadd2 & Hpub2 & Ho2).
      rewrite Hopt1, Hopt in Hpub2.
      split.
      * intros Hdry p. apply publishFollowsPush_app; [exact Hpub1|].
        now apply Hpub2.
      * rewrite addedReleases_app, analysedNothing_app, Hadd2, Han1,
          List.app_nil_r, <- Hrel1.
        exact Ho2.
    + cbn [throw]. rewrite List.app_nil_r.
      split; [intros _ p; now apply noPublish_follows|exact I].
  - cbv beta iota zeta delta [ret throw isEmpty fst snd]; cbn [app].
    pose proof (newReleasePath_spec w c0 branch ((history ++ []) ++ [])) as Hnew.
    destruct (newReleasePath w c0 branch ((history ++ []) ++ [])) as [d2 o2].
    destruct Hnew as (Hadd2 & Hpub2 & Ho2).
    rewrite Hopt in Hpub2. rewrite Hrel in Ho2.
    split; [exact Hpub2|]. rewrite Hadd2. exact Ho2.
  - split; [intros _ p; reflexivity | exact I].
Qed.

(** The whole of [run]. *)
Lemma run_spec w context history :
  let (d, o) := run w context history in
  mutationsAfter isVerified false d = true
  /\ mutationsAfter isGetBranches false d = true
  /\ (dryRun (options (forceDryRun context)) = false ->
      publishFollowsPush NoTag d = true)
  /\ match o with
     | Next r =>
         analysedNothing d = false
         /\ fieldNames r = ["lastRelease"; "commits"; "nextRelease"; "releases"]
     | Return r =>
         (analysedNothing d = false /\ r = RFalse)
         \/ (analysedNothing d = true
             /\ r = (if isEmpty (addedReleases d) then RFalse
                     else onlyReleases (addedReleases d)))
     | Raise _ => True
     end.
Proof.
  unfold run, bind.
  pose proof (prelude_spec w context history) as Hpre.
  destruct (prelude w context history) as [d0 o0].
  destruct Hpre as (Hq & Hpub0 & Hadd0 & Han0 & Ho0).
  destruct o0 as [[c0 b0]|r0|t0]; cbn [fst snd] in *.
  - destruct Ho0 as (Hv & Hb & Hopt).
    pose proof (afterVerifyConditions_spec w c0 b0 (history ++ d0)) as Hafter.
    destruct (afterVerifyConditions w c0 b0 (history ++ d0)) as [d1 o1].
    destruct Hafter as (Hpub1 & Ho1). rewrite Hopt in Hpub1.
    rewrite !(mutationsAfter_app _ _ _ _ Hq), Hv, Hb. cbn [orb].
    rewrite !mutationsAfter_seen.
    split; [reflexivity|]. split; [reflexivity|].
    split; [intros Hdry; apply publishFollowsPush_app; auto|].
    rewrite addedReleases_app, analysedNothing_app, Hadd0, Han0.
    cbn [app orb].
    destruct o1; [exact Ho1 | now right | exact I].
  - rewrite !(quiet_mutationsAfter _ _ _ Hq).
    split; [reflexivity|]. split; [reflexivity|].
    split; [intros _; now apply noPublish_follows|].
    left. now split.
  - rewrite !(quiet_mutationsAfter _ _ _ Hq).
    split; [reflexivity|]. split; [reflexivity|].
    split; [intros _; now apply noPublish_follows|exact I].
Qed.


Lemma isVerified_iff e :
  isVerified e = true <-> exists r, e = EvPluginDone verifyConditions r.
Proof.
  split.
  - destruct e as [| | | | | |s|s r| | | | | | | | | | | |]; try discriminate.
    destruct s; try discriminate. intros _. now exists r.
  - intros [r ->]. reflexivity.
Qed.

Lemma mutation_not_verified e : isGitMutation e = true -> isVerified e = false.
Proof. destruct e; try discriminate; reflexivity. Qed.

Lemma mutation_not_getBranches e :
  isGitMutation e = true -> isGetBranches e = false.
Proof. destruct e; try discriminate; reflexivity. Qed.

(** C3.  In every execution of [run], whatever the outside answers: every
    git mutation (tag creation, note write, push of tags or notes) comes
    after a VerifyConditions step that is done; and outside a dry run,
    every invocation of the Publish step comes after a push that comes
    after the creation of the tag. *)
Theorem side_effects_ordered
  (w : World) (context : Context) (history : Trace) :
  let events := fst (run w context history) in
  (forall pre e post,
     events = pre ++ e :: post -> isGitMutation e = true ->
     exists r, In (EvPluginDone verifyConditions r) pre)
  /\ (dryRun (options (forceDryRun context)) = false ->
      forall pre post,
        events = pre ++ EvPlugin publish :: post ->
        exists a tagName ref b c,
          pre = a ++ EvTag tagName ref :: b ++ EvPush :: c).
Proof.
  pose proof (run_spec w context history) as H.
  destruct (run w context history) as [d o]. cbn [fst].
  destruct H as (Hv & _ & Hp & _). split.
  - intros pre e post E Hm.
    destruct (mutationsAfter_sound _ _ _ Hv pre e post E Hm
                (mutation_not_verified _ Hm)) as [F|(m & Hin & Hmark)];
      [discriminate|].
    apply isVerified_iff in Hmark as [r ->]. now exists r.
  - intros Hdry pre post E.
    exact (publishFollowsPush_sound d (Hp Hdry) pre post E).
Qed.

Lemma side_effects_ordered_witness :
  (exists r,
     In (EvPluginDone verifyConditions r)
        (firstn 17 (fst (run (Worlds.worldOf Worlds.fixOnMaster)
                           (Worlds.contextOn "master" false) []))))
  /\ (exists a tagName ref b c,
        firstn 21 (fst (run (Worlds.worldOf Worlds.fixOnMaster)
                          (Worlds.contextOn "master" false) []))
        = a ++ EvTag tagName ref :: b ++ EvPush :: c).
Proof.
  destruct (side_effects_ordered (Worlds.worldOf Worlds.fixOnMaster)
              (Worlds.contextOn "master" false) []) as [Hm Hp].
  split.
  - exact (Hm (firstn 17 (fst (run (Worlds.worldOf Worlds.fixOnMaster)
                                 (Worlds.contextOn "master" false) [])))
              (EvTag (vstr "v1.0.1") (vstr "abc123"))
              (skipn 18 (fst (run (Worlds.worldOf Worlds.fixOnMaster)
                                (Worlds.contextOn "master" false) [])))
              eq_refl eq_refl).
  - exact (Hp eq_refl
              (firstn 21 (fst (run (Worlds.worldOf Worlds.fixOnMaster)
                                 (Worlds.contextOn "master" false) [])))
              (skipn 22 (fst (run (Worlds.worldOf Worlds.fixOnMaster)
                                (Worlds.contextOn "master" false) [])))
              eq_refl).
Defined.

(** C5, as amended.  When [run] resolves, its result is [false], or an
    object with the one field [releases] -- this when commit analysis gave
    no bump size and releases were added to a channel: they are its
    content -- or an object with exactly the fields [lastRelease],
    [commits], [nextRelease] and [releases].  When commit analysis gave no
    bump size, the result is the releases added to a channel so far, and
    [false] when there is none. *)
Theorem run_result_shape
  (w : World) (context : Context) (history : Trace) (r : Result) :
  resultOf (run w context history) = Some r ->
  let events := fst (run w context history) in
  (r = RFalse
   \/ (analysedNothing events = true /\ addedReleases events <> []
       /\ r = onlyReleases (addedReleases events)
       /\ fieldNames r = ["releases"])
   \/ fieldNames r = ["lastRelease"; "commits"; "nextRelease"; "releases"])
  /\ (analysedNothing events = true ->
      r = if isEmpty (addedReleases events) then RFalse
          else onlyReleases (addedReleases events)).
Proof.
  pose proof (run_spec w context history) as H.
  destruct (run w context history) as [d o]. unfold resultOf. cbn [fst snd].
  destruct H as (_ & _ & _ & Ho).
  destruct o as [r'|r'|t]; intros E; try discriminate E;
    injection E as ->.
  - destruct Ho as [Han Hf]. split; [now right; right|].
    intros F. rewrite Han in F. discriminate.
  - destruct Ho as [[Han ->]|[Han ->]].
    + split; [now left|]. intros F. rewrite Han in F. discriminate.
    + split; [|reflexivity].
      destruct (addedReleases d) as [|x l] eqn:El; cbn [isEmpty];
        [now left|].
      right; left. repeat split; [exact Han|discriminate].
Qed.

Lemma run_result_shape_witness :
  resultOf (run (Worlds.worldOf Worlds.mergedNext)
              (Worlds.contextOn "master" false) [])
  = Some (onlyReleases
            [[("name", vstr "npm package (@latest dist-tag)")]])
  /\ fieldNames (onlyReleases
                   [[("name", vstr "npm package (@latest dist-tag)")]])
     = ["releases"].
Proof.
  destruct (run_result_shape (Worlds.worldOf Worlds.mergedNext)
              (Worlds.contextOn "master" false) []
              (onlyReleases [[("name", vstr "npm package (@latest dist-tag)")]])
              eq_refl) as [_ H].
  split; [reflexivity|].
  rewrite (H eq_refl). reflexivity.
Defined.

(** C5, as stated, fails when release 2.0.0 of channel [next] is added to
    the default channel and no new commit calls for a release: [run]
    resolves with an object that holds the field [releases] only, neither
    [false] nor the four fields. *)
Lemma run_resolves_with_releases_only :
  exists r,
    resultOf (run (Worlds.worldOf Worlds.mergedNext)
                (Worlds.contextOn "master" false) []) = Some r
    /\ r <> RFalse
    /\ fieldNames r = ["releases"]
    /\ fieldNames r <> ["lastRelease"; "commits"; "nextRelease"; "releases"].
Proof.
  eexists. split; [reflexivity|].
  split; [discriminate|]. split; [reflexivity|discriminate].
Qed.


(** ** The range check of the next version *)


Lemma publishRelease_starts w context next history :
  exists d, fst (publishRelease w context next history)
            = EvPlugin verifyRelease :: d.
Proof.
  unfold publishRelease, pluginStep, plugin, bind at 1 2, call.
  destruct (w_step w verifyRelease (history ++ [EvPlugin verifyRelease]));
    cbn [app].
  - cbv beta iota zeta delta [bind emit ret]. cbn [app].
    match goal with
    | |- context [let (_, _) := ?m in _] => destruct m as [d o]
    end.
    destruct o; eexists; reflexivity.
  - eexists; reflexivity.
Qed.

(** C6, as stated, fails on the release branch [master] that holds the
    releases from 1.0.0 up to 2.0.0: after a breaking change, the next
    version 2.0.0 is outside the range of the branch and [run] throws
    EINVALIDNEXTVERSION, though the branch is no maintenance branch. *)
Lemma release_branch_range_is_checked :
  Branch.type Worlds.master = Some BranchType.release
  /\ snd (run (Worlds.worldOf Worlds.breakingOnMaster)
            (Worlds.contextOn "master" false) [])
     = Raise invalidNextVersionError.
Proof. split; reflexivity. Qed.

(** ** The Fail path *)


(** ** The validation of the branches comes first *)

(** Every git mutation of [run] comes after the call of [getBranches],
    which validates the branches. *)
Lemma mutations_follow_getBranches w context history pre e post :
  fst (run w context history) = pre ++ e :: post ->
  isGitMutation e = true -> In EvGetBranches pre.
Proof.
  pose proof (run_spec w context history) as H.
  destruct (run w context history) as [d o]. cbn [fst].
  destruct H as (_ & Hb & _). intros E Hm.
  destruct (mutationsAfter_sound _ _ _ Hb pre e post E Hm
              (mutation_not_getBranches _ Hm)) as [F|(m & Hin & Hmark)];
    [discriminate|].
  destruct m; try discriminate Hmark. exact Hin.
Qed.

(** When [getBranches] throws, [run] makes no git mutation, and throws
    the same error once it got that far. *)
Lemma rejected_branches_abort w context history t :
  w_getBranches w (history ++ [EvVerify; EvGetGitAuthUrl; EvGetBranches])
  = Throw t ->
  quiet (fst (run w context history)) = true
  /\ (In EvGetBranches (fst (run w context history)) ->
      snd (run w context history) = Raise t).
Proof.
  intros Hb.
  change (history ++ [EvVerify; EvGetGitAuthUrl; EvGetBranches])
    with (history ++ [EvVerify] ++ [EvGetGitAuthUrl] ++ [EvGetBranches]) in Hb.
  rewrite !List.app_assoc in Hb.
  unfold run, prelude.
  destruct (forceDryRun context) as [ci o pv bs b rs lr cs nr].
  cbv beta iota zeta delta [bind call returns Pipeline.envCi Pipeline.options].
  destruct (isCi _ && isPr _ && negb (noCi o) && negb (publishOnPr o)).
  - split; [reflexivity|]. intros [].
  - cbn [app]. destruct (w_verify w _); cbn [app fst snd].
    + destruct (w_getGitAuthUrl w _); cbn [app fst snd].
      * rewrite Hb. cbn [app fst snd]. split; [reflexivity|]. reflexivity.
      * split; [reflexivity|].
        intros [F|[F|[]]]; discriminate F.
    + split; [reflexivity|]. intros [F|[]]; discriminate F.
Qed.

End PipelineFacts.

(* ================================================================== *)
(** * The validation of the branches                                    *)
(* ================================================================== *)

Module BranchesFacts.

Import Branches.

Lemma strictEq_iff a b : strictEq a b = true <-> a = b.
Proof.
  destruct a as [| |x|x], b as [| |y|y]; cbn;
    try (split; [reflexivity || discriminate | reflexivity || discriminate]).
  - rewrite Bool.eqb_true_iff. split; congruence.
  - rewrite String.eqb_eq. split; congruence.
Qed.

Lemma validRange_eqb_iff a b : validRange_eqb a b = true <-> a = b.
Proof.
  destruct a as [x|], b as [y|]; cbn;
    try (split; [reflexivity || discriminate | reflexivity || discriminate]).
  rewrite String.eqb_eq. split; congruence.
Qed.

Section UniqBy.

Context {A K : Type}.
Variable eqb : K -> K -> bool.
Variable iteratee : A -> K.
Hypothesis eqb_iff : forall a b, eqb a b = true <-> a = b.

Lemma seen_iff k seen : existsb (eqb k) seen = true <-> In k seen.
Proof.
  rewrite existsb_exists. split.
  - intros (x & Hin & E). apply eqb_iff in E. now subst.
  - intros Hin. exists k. split; [exact Hin|now apply eqb_iff].
Qed.

Lemma uniqByFrom_length seen l :
  (length (uniqByFrom eqb iteratee seen l) <= length l)%nat.
Proof.
  revert seen. induction l as [|x r IH]; intros seen; cbn; [lia|].
  destruct (existsb (eqb (iteratee x)) seen); cbn.
  - specialize (IH seen). lia.
  - specialize (IH (iteratee x :: seen)). lia.
Qed.

(** [uniqBy] keeps every element exactly when no key comes twice. *)
Lemma uniqByFrom_keeps_all seen l :
  length (uniqByFrom eqb iteratee seen l) = length l
  <-> NoDup (map iteratee l)
      /\ forall k, In k (map iteratee l) -> ~ In k seen.
Proof.
  revert seen. induction l as [|x r IH]; intros seen; cbn.
  - split; [intros _; split; [constructor|intros k []]|reflexivity].
  - destruct (existsb (eqb (iteratee x)) seen) eqn:E.
    + apply seen_iff in E. split.
      * intros H. pose proof (uniqByFrom_length seen r). lia.
      * intros [_ H]. exfalso. apply (H (iteratee x)); [now left|exact E].
    + assert (N : ~ In (iteratee x) seen).
      { intros H. apply seen_iff in H. congruence. }
      cbn. split.
      * intros H. injection H as H. apply IH in H as [Hnd Hs]. split.
        -- constructor; [|exact Hnd].
           intros Hin. apply (Hs _ Hin). now left.
        -- intros k [<-|Hin]; [exact N|].
           intros Hk. apply (Hs _ Hin). now right.
      * intros [Hnd Hs]. f_equal. apply IH.
        inversion Hnd as [|? ? Hx Hr]; subst. split; [exact Hr|].
        intros k Hin [<-|Hk]; [contradiction|].
        apply (Hs k); [now right|exact Hk].
Qed.

Lemma uniqBy_keeps_all l :
  (length (uniqBy eqb iteratee l) =? length l)%nat = true
  <-> NoDup (map iteratee l).
Proof.
  rewrite Nat.eqb_eq. unfold uniqBy. rewrite uniqByFrom_keeps_all.
  split; [now intros [H _]|]. intros H. split; [exact H|]. intros k _ [].
Qed.

End UniqBy.

Lemma NoDup_map_compose {A B D} (f : A -> B) (g : B -> D) (l : list A) :
  NoDup (map (fun x => g (f x)) l) -> NoDup (map f l).
Proof.
  induction l as [|x r IH]; cbn; intros H; [constructor|].
  inversion H as [|? ? Hx Hr]; subst. constructor; [|now apply IH].
  intros Hin. apply Hx. apply in_map_iff in Hin as (y & E & Hy).
  apply in_map_iff. exists y. split; [now rewrite E|exact Hy].
Qed.

Section Validation.

Context {C : Type}.
Variable isMaintenanceRange : Value -> bool.
Variable validRange : Value -> option string.

Lemma categoryPasses_iff ctx ty (branches : list (Branch.t C)) :
  categoryPasses isMaintenanceRange validRange ctx ty branches = true
  <-> (forall b, In b (ofType ty branches) ->
                 branchPasses isMaintenanceRange validRange ctx ty b = true)
      /\ branchesValidator (definitionOf isMaintenanceRange validRange ty)
           (map (normalized isMaintenanceRange ty) (ofType ty branches))
         = true.
Proof.
  unfold categoryPasses. cbv zeta.
  rewrite andb_true_iff, forallb_forall. reflexivity.
Qed.

Lemma accepted_iff ctx (branches : list (Branch.t C)) :
  accepted isMaintenanceRange validRange ctx branches = true
  <-> Terms.wellFormed isMaintenanceRange validRange ctx branches.
Proof.
  unfold accepted, Terms.wellFormed.
  rewrite !andb_true_iff, !categoryPasses_iff.
  cbn [definitionOf branchesValidator maintenance prerelease release].
  rewrite (uniqBy_keeps_all validRange_eqb _ validRange_eqb_iff).
  rewrite (uniqBy_keeps_all strictEq _ strictEq_iff).
  rewrite !List.map_map, !List.length_map.
  cbn [normalized Branch.range Branch.prerelease].
  rewrite andb_true_iff, Nat.leb_le, Nat.ltb_lt.
  split.
  - intros [[[Hm Um] [Hp Up]] [Hr Ur]]. repeat split; try tauto; try lia.
    intros [] b Hin; auto.
  - intros (Hb & Um & Up & Ur). repeat split; auto; lia.
Qed.

Lemma wellFormed_invariant ctx (branches : list (Branch.t C)) :
  Terms.wellFormed isMaintenanceRange validRange ctx branches ->
  Claimed.branchInvariant isMaintenanceRange branches.
Proof.
  intros (_ & Um & Up & Ur). repeat split; try tauto.
  exact (NoDup_map_compose (inferredRange isMaintenanceRange) validRange _ Um).
Qed.

Lemma filter_nil {A} (p : A -> bool) l :
  List.filter (fun x => negb (p x)) l = [] <-> forallb p l = true.
Proof.
  induction l as [|x l IH]; cbn; [tauto|].
  destruct (p x); cbn; [exact IH|]. split; discriminate.
Qed.

(** The validators of a category raise no error exactly when the category
    passes. *)
Lemma offences_nil ctx ty (branches : list (Branch.t C)) :
  Driver.offences isMaintenanceRange validRange ctx ty branches = []
  <-> categoryPasses isMaintenanceRange validRange ctx ty branches = true.
Proof.
  unfold Driver.offences, categoryPasses. cbv zeta.
  rewrite andb_true_iff, <- filter_nil. split.
  - intros H. apply app_eq_nil in H as [Hm Hv].
    apply map_eq_nil in Hm. split; [exact Hm|].
    destruct (branchesValidator _ _); [reflexivity|discriminate Hv].
  - intros [Hm Hv]. now rewrite Hm, Hv.
Qed.

Lemma configurationErrors_nil ctx (branches : list (Branch.t C)) :
  Driver.configurationErrors isMaintenanceRange validRange ctx branches = []
  <-> accepted isMaintenanceRange validRange ctx branches = true.
Proof.
  unfold Driver.configurationErrors, accepted.
  rewrite !andb_true_iff, <- !offences_nil. split.
  - intros H. apply app_eq_nil in H as [H1 H].
    apply app_eq_nil in H as [H2 H3]. tauto.
  - intros [[H1 H2] H3]. now rewrite H1, H2, H3.
Qed.

Lemma offences_semanticRelease ctx ty (branches : list (Branch.t C)) :
  Forall (fun e => err_semanticRelease e = true)
    (Driver.offences isMaintenanceRange validRange ctx ty branches).
Proof.
  unfold Driver.offences. cbv zeta. apply Forall_app. split.
  - apply Forall_forall. intros e Hin.
    apply in_map_iff in Hin as (b & <- & _). reflexivity.
  - destruct (branchesValidator _ _); repeat constructor.
Qed.

Lemma validate_accepted ctx (branches : list (Branch.t C)) :
  accepted isMaintenanceRange validRange ctx branches = true ->
  Driver.validate isMaintenanceRange validRange ctx branches = Normal branches.
Proof.
  intros H. apply configurationErrors_nil in H.
  unfold Driver.validate. now rewrite H.
Qed.

Lemma validate_rejected ctx (branches : list (Branch.t C)) :
  accepted isMaintenanceRange validRange ctx branches = false ->
  let errors :=
    Driver.configurationErrors isMaintenanceRange validRange ctx branches in
  errors <> []
  /\ Forall (fun e => err_semanticRelease e = true) errors
  /\ Driver.validate isMaintenanceRange validRange ctx branches
     = Throw (AggregateError errors).
Proof.
  intros H errors.
  assert (Hne : errors <> []).
  { intros E. apply configurationErrors_nil in E. congruence. }
  split; [exact Hne|]. split.
  - unfold errors, Driver.configurationErrors.
    apply Forall_app; split; [apply offences_semanticRelease|].
    apply Forall_app; split; apply offences_semanticRelease.
  - unfold Driver.validate. fold errors.
    destruct errors; [now elim Hne|reflexivity].
Qed.

End Validation.

(** C4, as amended.  The validators accept a classified branch set if and
    only if every maintenance branch and every prerelease branch passes
    the validator of its category, the ranges of the maintenance branches
    (the one inferred from the name when none is declared), as
    [semver.validRange] gives them, are pairwise distinct, the identifiers
    of the prerelease branches (the name when [prerelease] is [true]) are
    pairwise distinct, and there are one to three release branches; the
    invariant of section 3 then holds.  The validation gives the branches
    when they are accepted, and when they are not it throws an aggregate
    of semantic-release errors, one at least.  In [run], every git
    mutation comes after the call of [getBranches]; and when that call
    ends with the validation of a branch set that is not accepted, [run]
    makes no git mutation and throws the errors of the validation, once it
    got that far. *)
Theorem branch_validation
  (isMaintenanceRange : Value -> bool)
  (validRange : Value -> option string) (ctx : option ValidatorContext)
  (branches : list Pipeline.Branch)
  (w : Pipeline.World) (context : Pipeline.Context)
  (history : Pipeline.Trace) :
  let accepts := accepted isMaintenanceRange validRange ctx branches in
  let errors :=
    Driver.configurationErrors isMaintenanceRange validRange ctx branches in
  let validated :=
    Driver.validate isMaintenanceRange validRange ctx branches in
  (accepts = true
   <-> Terms.wellFormed isMaintenanceRange validRange ctx branches)
  /\ (accepts = true -> Claimed.branchInvariant isMaintenanceRange branches)
  /\ (accepts = true -> validated = Normal branches)
  /\ (accepts = false ->
      errors <> []
      /\ Forall (fun e => err_semanticRelease e = true) errors
      /\ validated = Throw (AggregateError errors))
  /\ (forall pre e post,
        fst (Pipeline.run w context history) = pre ++ e :: post ->
        Pipeline.isGitMutation e = true ->
        In Pipeline.EvGetBranches pre)
  /\ (Pipeline.w_getBranches w
        (history ++ [Pipeline.EvVerify; Pipeline.EvGetGitAuthUrl;
                     Pipeline.EvGetBranches]) = validated ->
      accepts = false ->
      Observed.quiet (fst (Pipeline.run w context history)) = true
      /\ (In Pipeline.EvGetBranches (fst (Pipeline.run w context history)) ->
          snd (Pipeline.run w context history)
          = Pipeline.Raise (AggregateError errors))).
Proof.
  cbv zeta.
  split; [apply accepted_iff|]. split.
  { intros H. apply accepted_iff in H.
    exact (wellFormed_invariant _ _ _ _ H). }
  split; [apply validate_accepted|].
  split; [apply validate_rejected|].
  split.
  - intros pre e post.
    apply PipelineFacts.mutations_follow_getBranches.
  - intros Hw Hrej.
    destruct (validate_rejected _ _ _ _ Hrej) as (_ & _ & Hthrow).
    apply PipelineFacts.rejected_branches_abort.
    now rewrite Hw.
Qed.

Lemma branch_validation_witness :
  Claimed.branchInvariant Branches.isMaintenanceRange Worlds.validBranches
  /\ Driver.validate Branches.isMaintenanceRange Inputs.validRangeOf None
       Worlds.validBranches = Normal Worlds.validBranches
  /\ Observed.quiet
       (fst (Pipeline.run (Worlds.worldOf Worlds.tooManyReleaseBranches)
               (Worlds.contextOn "master" false) [])) = true
  /\ snd (Pipeline.run (Worlds.worldOf Worlds.tooManyReleaseBranches)
            (Worlds.contextOn "master" false) [])
     = Pipeline.Raise (AggregateError [Pipeline.getError "ERELEASEBRANCHES"]).
Proof.
  destruct (branch_validation Branches.isMaintenanceRange Inputs.validRangeOf
              None Worlds.validBranches
              (Worlds.worldOf Worlds.tooManyReleaseBranches)
              (Worlds.contextOn "master" false) [])
    as (_ & Hinv & Hval & _).
  split; [exact (Hinv eq_refl)|]. split; [exact (Hval eq_refl)|].
  destruct (branch_validation Branches.isMaintenanceRange Inputs.validRangeOf
              None Worlds.fourReleaseBranches
              (Worlds.worldOf Worlds.tooManyReleaseBranches)
              (Worlds.contextOn "master" false) [])
    as (_ & _ & _ & _ & _ & Habort).
  destruct (Habort eq_refl eq_refl) as [Hq Hr].
  split; [exact Hq|]. apply Hr. right; right; left. reflexivity.
Defined.

(** C4, as stated, fails on the release branch [master] with a prerelease
    branch of identifier [rc_1], each classified by the filter of its
    category: the invariant of section 3 holds, and the validators
    reject the set, as [1.0.0-rc_1.1] is no version. *)
Lemma invalid_identifier_is_rejected :
  Forall
    (fun b =>
       exists ty,
         Branch.type b = Some ty
         /\ filter (definitionOf Branches.isMaintenanceRange
                      Inputs.validRangeOf ty) b = true)
    Inputs.invalidIdentifierBranches
  /\ Claimed.branchInvariant Branches.isMaintenanceRange
       Inputs.invalidIdentifierBranches
  /\ accepted Branches.isMaintenanceRange Inputs.validRangeOf None
       Inputs.invalidIdentifierBranches = false.
Proof.
  split.
  - repeat constructor.
    + exists BranchType.release. split; reflexivity.
    + exists BranchType.prerelease. split; reflexivity.
  - split; [|reflexivity].
    repeat split; cbn; try lia; repeat constructor; cbn; tauto.
Qed.

End BranchesFacts.

(* ================================================================== *)
(** * The notes of the tags                                             *)
(* ================================================================== *)

Module NotesFacts.

Import Json.

(** ** lodash merge *)

Lemma mergeValue_array o src :
  mergeValue o (JArr src)
  = match o with
    | Some (JArr dst) => option_map JArr (mergeElements dst src)
    | Some (JObj fields) =>
        if arrayLikeObject fields then None
        else option_map JArr (mergeElements [] src)
    | _ => option_map JArr (mergeElements [] src)
    end.
Proof. reflexivity. Qed.

Lemma mergeValue_object o src :
  mergeValue o (JObj src)
  = match o with
    | Some (JObj dst) => option_map JObj (mergeFields dst src)
    | Some (JArr _) => None
    | _ => option_map JObj (mergeFields [] src)
    end.
Proof. reflexivity. Qed.

(** A primitive of the source is assigned. *)
Lemma mergeValue_primitive o s :
  Terms.isPrimitive s = true -> mergeValue o s = Some s.
Proof. destruct s; try discriminate; reflexivity. Qed.

(** Primitives merged into an array: they take the first places, and the
    elements beyond them stay. *)
Lemma mergeElements_primitives dst src :
  forallb Terms.isPrimitive src = true ->
  mergeElements dst src = Some (src ++ skipn (length src) dst).
Proof.
  revert dst. induction src as [|s src IH]; intros dst H; [reflexivity|].
  cbn [forallb] in H. apply andb_true_iff in H as [Hs H].
  cbn [mergeElements length skipn app].
  destruct dst as [|d dst]; rewrite (mergeValue_primitive _ _ Hs), (IH _ H).
  - now destruct (length src).
  - reflexivity.
Qed.

Lemma lookup_assign_same k v fields : lookup k (assign k v fields) = Some v.
Proof.
  induction fields as [|[k' v'] r IH]; cbn.
  - now rewrite String.eqb_refl.
  - destruct (k' =? k) eqn:E; cbn; rewrite E; [reflexivity|exact IH].
Qed.

Lemma lookup_assign_other k k' v fields :
  k <> k' -> lookup k' (assign k v fields) = lookup k' fields.
Proof.
  intros N. induction fields as [|[k0 v0] r IH]; cbn.
  - destruct (k =? k') eqn:E; [apply String.eqb_eq in E; contradiction|].
    reflexivity.
  - destruct (k0 =? k) eqn:E; cbn.
    + apply String.eqb_eq in E. subst k0.
      destruct (k =? k') eqn:E'; [apply String.eqb_eq in E'; contradiction|].
      reflexivity.
    + destruct (k0 =? k'); [reflexivity|exact IH].
Qed.

Lemma lookup_absent k fields : ~ In k (map fst fields) -> lookup k fields = None.
Proof.
  induction fields as [|[k' v'] r IH]; cbn; intros N; [reflexivity|].
  destruct (k' =? k) eqn:E.
  - apply String.eqb_eq in E. exfalso. apply N. now left.
  - apply IH. intros H. apply N. now right.
Qed.

(** After the merge, a key of the source holds the merge of the two
    values, and any other key what the destination held. *)
Lemma mergeFields_lookup src :
  forall dst r,
    NoDup (map fst src) ->
    mergeFields dst src = Some r ->
    forall k,
      lookup k r = match lookup k src with
                   | Some s => mergeValue (lookup k dst) s
                   | None => lookup k dst
                   end.
Proof.
  induction src as [|[k0 s] src IH]; intros dst r Hnd H k.
  - cbn in H. injection H as <-. reflexivity.
  - cbn [mergeFields] in H. cbn [map fst] in Hnd.
    inversion Hnd as [|? ? Hk0 Hnd']; subst.
    destruct (k0 =? "__proto__"); [discriminate|].
    destruct (mergeValue (lookup k0 dst) s) as [v|] eqn:Ev; [|discriminate].
    rewrite (IH _ _ Hnd' H k). cbn [lookup].
    destruct (k0 =? k) eqn:E.
    + apply String.eqb_eq in E. subst k0.
      rewrite (lookup_absent _ _ Hk0), lookup_assign_same. now rewrite Ev.
    + assert (N : k0 <> k) by (intros F; subst; rewrite String.eqb_refl in E;
                               discriminate).
      rewrite (lookup_assign_other _ _ _ _ N). reflexivity.
Qed.

(** ** [getNote] *)

Section Notes.

Variable gitNotesShow : string -> string -> Completion string.
Variable JSON_parse : string -> option Json.t.

Hypothesis parse_empty : JSON_parse "{}" = Some (JObj []).

Lemma readNote_missing notesRef ref error :
  gitNotesShow notesRef ref = Throw error ->
  Git.exitCodeIs1 error = true ->
  Git.readNote gitNotesShow JSON_parse notesRef ref = Normal (JObj []).
Proof.
  intros H E. unfold Git.readNote, Git.showNote, Git.handleError.
  rewrite H, E. cbn. unfold Git.parseJSON. now rewrite parse_empty.
Qed.

Lemma readNote_failed notesRef ref error :
  gitNotesShow notesRef ref = Throw error ->
  Git.exitCodeIs1 error = false ->
  Git.readNote gitNotesShow JSON_parse notesRef ref = Throw error.
Proof.
  intros H E. unfold Git.readNote, Git.showNote, Git.handleError.
  now rewrite H, E.
Qed.

Lemma readNote_shown notesRef ref text :
  gitNotesShow notesRef ref = Normal text ->
  Git.readNote gitNotesShow JSON_parse notesRef ref
  = Git.parseJSON JSON_parse text.
Proof.
  intros H. unfold Git.readNote, Git.showNote. now rewrite H.
Qed.

Lemma getNote_merge ref legacy current :
  Git.readNote gitNotesShow JSON_parse Git.GIT_NOTE_REF ref = Normal legacy ->
  Git.readNote gitNotesShow JSON_parse (Git.GIT_NOTE_REF ++ "-" ++ ref)%string
    ref = Normal current ->
  Git.getNote gitNotesShow JSON_parse ref = Normal (merge legacy current).
Proof.
  intros Hl Hc. unfold Git.getNote. now rewrite Hl, Hc.
Qed.

End Notes.

(** C8.  [getNote] reads the legacy note and the note of the tag, each
    parsed as JSON, a missing note (the command exits with code 1) read
    as the empty object and not as an error, and returns the lodash merge
    of the first with the second.  In the merge of two objects a key of
    the note of the tag holds the merge of the two values, any other key
    the legacy value; a primitive of the note of the tag overwrites the
    legacy value; two arrays merge by position, the elements of the note
    of the tag first and the legacy elements beyond them kept.  Legacy
    channels [a] with channels [b] give [b]. *)
Theorem note_is_deep_merge
  (gitNotesShow : string -> string -> Completion string)
  (JSON_parse : string -> option Json.t) (ref : string) :
  JSON_parse "{}" = Some (JObj []) ->
  (forall notesRef error,
     gitNotesShow notesRef ref = Throw error ->
     Git.exitCodeIs1 error = true ->
     Git.readNote gitNotesShow JSON_parse notesRef ref = Normal (JObj []))
  /\ (forall notesRef text,
        gitNotesShow notesRef ref = Normal text ->
        Git.readNote gitNotesShow JSON_parse notesRef ref
        = Git.parseJSON JSON_parse text)
  /\ (forall legacy current,
        Git.readNote gitNotesShow JSON_parse Git.GIT_NOTE_REF ref
        = Normal legacy ->
        Git.readNote gitNotesShow JSON_parse
          (Git.GIT_NOTE_REF ++ "-" ++ ref)%string ref = Normal current ->
        Git.getNote gitNotesShow JSON_parse ref
        = Normal (merge legacy current))
  /\ (forall legacy current merged,
        NoDup (map fst current) ->
        merge (JObj legacy) (JObj current) = Some (JObj merged) ->
        forall key,
          lookup key merged
          = match lookup key current with
            | Some value => mergeValue (lookup key legacy) value
            | None => lookup key legacy
            end)
  /\ (forall legacy value,
        Terms.isPrimitive value = true -> mergeValue legacy value = Some value)
  /\ (forall legacy current,
        forallb Terms.isPrimitive current = true ->
        mergeValue (Some (JArr legacy)) (JArr current)
        = Some (JArr (current ++ skipn (length current) legacy)))
  /\ merge (Inputs.channelsNote ["a"]) (Inputs.channelsNote ["b"])
     = Some (Inputs.channelsNote ["b"]).
Proof.
  intros parse_empty. split.
  - intros notesRef error. now apply readNote_missing.
  - split; [intros notesRef text; apply readNote_shown|].
    split; [intros legacy current; apply getNote_merge|].
    split.
    + intros legacy current merged Hnd H key. cbn in H.
      destruct (mergeFields legacy current) as [r|] eqn:E; [|discriminate].
      injection H as <-. exact (mergeFields_lookup _ _ _ Hnd E key).
    + split; [exact mergeValue_primitive|].
      split; [|reflexivity].
      intros legacy current H. rewrite mergeValue_array.
      now rewrite (mergeElements_primitives _ _ H).
Qed.

Lemma note_is_deep_merge_witness :
  Git.getNote Inputs.notesShow Inputs.parseNote "v2.0.0"
  = Normal (merge (JObj []) (Inputs.channelsNote ["b"]))
  /\ lookup "channels" [("channels", JArr [JStr "b"; JStr "c"])]
     = mergeValue (Some (JArr [JStr "a"; JStr "c"])) (JArr [JStr "b"])
  /\ mergeValue (Some (JArr [JStr "a"; JStr "c"])) (JArr [JStr "b"])
     = Some (JArr [JStr "b"; JStr "c"]).
Proof.
  destruct (note_is_deep_merge Inputs.notesShow Inputs.parseNote "v2.0.0"
              eq_refl) as (Hmissing & Hshown & Hmerge & Hkeys & _ & Harr & _).
  split.
  - apply Hmerge.
    + apply (Hmissing _ (Terms.exited 1)); reflexivity.
    + rewrite (Hshown _ (Inputs.channelsText ["b"])); reflexivity.
  - split.
    + apply (Hkeys [("channels", JArr [JStr "a"; JStr "c"])]
               [("channels", JArr [JStr "b"])]
               [("channels", JArr [JStr "b"; JStr "c"])]);
        [constructor; [intros []|constructor]|reflexivity].
    + apply (Harr [JStr "a"; JStr "c"] [JStr "b"]). reflexivity.
Defined.

End NotesFacts.

(* ================================================================== *)
(** * The resolution of the tags                                        *)
(* ================================================================== *)

Module TagsFacts.

Import GetTags.

Lemma append_not_empty a b : a <> "" -> (a ++ b)%string <> "".
Proof. destruct a; [congruence|discriminate]. Qed.

Lemma clean_not_empty version v : Semver.clean version = Some v -> v <> "".
Proof.
  unfold Semver.clean, Semver.valid.
  destruct (Semver.parse _) as [sv|]; [|discriminate].
  intros H. injection H as <-. unfold Semver.format, Semver.formatMain.
  apply append_not_empty, append_not_empty, SemverFacts.of_N_not_empty.
Qed.

Lemma capture_not_empty post s v : capture post s = Some v -> v <> "".
Proof.
  destruct s as [|c r]; cbn; [discriminate|].
  destruct (isLineTerminator c); [discriminate|].
  destruct (capture post r); [intros H; injection H as <-; discriminate|].
  destruct (startsWith post r); [|discriminate].
  intros H; injection H as <-; discriminate.
Qed.

Lemma matchVersion_not_empty rendered tag v :
  matchVersion rendered tag = Some v -> v <> "".
Proof.
  unfold matchVersion. destruct (Str.cut " " rendered) as [pre [post|]];
    [|discriminate].
  destruct (Str.stripPrefix pre tag); [|discriminate].
  apply capture_not_empty.
Qed.

(** A tag is kept exactly when the expression matches it and what it
    captures is a version once cleaned. *)
Lemma keeps_iff rendered tag version :
  keeps rendered tag = Some version
  <-> matchVersion rendered tag = Some version
      /\ Semver.clean version <> None.
Proof.
  unfold keeps. destruct (matchVersion rendered tag) as [v|] eqn:Em.
  - pose proof (matchVersion_not_empty _ _ _ Em) as Hv.
    apply String.eqb_neq in Hv. rewrite Hv. cbn [negb andb].
    destruct (Semver.clean v) as [c|] eqn:Ec.
    + pose proof (clean_not_empty _ _ Ec) as Hc.
      apply String.eqb_neq in Hc. rewrite Hc. cbn [negb].
      split.
      * intros H. injection H as <-. split; [reflexivity|].
        rewrite Ec. discriminate.
      * intros [H _]. exact H.
    + split; [discriminate|]. intros [H N]. injection H as <-.
      contradiction.
  - split; [discriminate|]. intros [H _]. discriminate.
Qed.

Lemma channelsOf_default note :
  Json.property "channels" note = None ->
  channelsOf note = Json.JArr [Json.JNull].
Proof. unfold channelsOf. now intros ->. Qed.

Lemma channelsOf_array note channels :
  Json.property "channels" note = Some (Json.JArr channels) ->
  channelsOf note = Json.JArr channels.
Proof. unfold channelsOf. now intros ->. Qed.

Section Resolution.

Variable gitTagMerged : string -> Completion string.
Variable gitNotesShow : string -> string -> Completion string.
Variable JSON_parse : string -> option Json.t.
Variable rendered : string.

Lemma resolveTags_spec tags :
  forall acc result,
    resolveTags gitNotesShow JSON_parse rendered acc tags
    = Normal (Some result) ->
    exists added,
      result = acc ++ added
      /\ map (@Tag.gitTag _) added = Terms.keptTags rendered tags
      /\ Forall (Terms.resolvedFrom gitNotesShow JSON_parse rendered) added.
Proof.
  induction tags as [|tag rest IH]; intros acc result H.
  - cbn in H. injection H as <-. exists []. rewrite List.app_nil_r.
    repeat split. constructor.
  - cbn [resolveTags] in H. unfold Terms.keptTags. cbn [List.filter].
    destruct (keeps rendered tag) as [version|] eqn:Ek.
    + destruct (Git.getNote gitNotesShow JSON_parse tag) as [[note|]|t] eqn:En;
        cbn [bindC] in H; try discriminate H.
      apply IH in H as (added & -> & Hk & Hf).
      exists (Tag.mk tag version (channelsOf note) :: added).
      rewrite <- List.app_assoc. split; [reflexivity|]. split.
      * cbn [map Tag.gitTag]. f_equal. exact Hk.
      * constructor; [|exact Hf]. split; [exact Ek|].
        exists note. split; [exact En|reflexivity].
    + apply IH in H as (added & -> & Hk & Hf). now exists added.
Qed.

Lemma getTags_spec {C} (branches : list (Branch.t C)) :
  forall acc result,
    getTags gitTagMerged gitNotesShow JSON_parse rendered acc branches
    = Normal (Some result) ->
    exists added,
      result = acc ++ added
      /\ Forall2 (Terms.resolvedBranch gitTagMerged gitNotesShow JSON_parse
                   rendered) branches added.
Proof.
  induction branches as [|b rest IH]; intros acc result H.
  - cbn in H. injection H as <-. exists []. rewrite List.app_nil_r.
    split; [reflexivity|constructor].
  - cbn [getTags] in H.
    destruct (Git.getTags gitTagMerged _) as [candidates|t] eqn:Eg;
      cbn [bindC] in H; [|discriminate H].
    destruct (resolveTags gitNotesShow JSON_parse rendered [] candidates)
      as [[branchTags|]|t] eqn:Er; cbn [bindC] in H; try discriminate H.
    apply IH in H as (added & -> & Hf).
    apply resolveTags_spec in Er as (tags & -> & Hk & Ht).
    exists (withTags b tags :: added). rewrite <- List.app_assoc.
    split; [reflexivity|]. constructor; [|exact Hf].
    split; [reflexivity|]. exists candidates. cbn [app] in *.
    split; [exact Eg|]. split; [exact Hk|exact Ht].
Qed.

End Resolution.

(** C7.  When the resolver returns, every branch has the tags resolved
    from the candidate tags that [git tag --merged] lists for it: the
    tags kept are, in order, the candidates that the expression derived
    from the tag format matches and whose captured version, once cleaned,
    is a valid version -- the others are dropped -- and the channels of a
    kept tag are the [channels] of its merged note, or [[null]] when the
    note has no such field. *)
Theorem tag_resolution
  (gitTagMerged : string -> Completion string)
  (gitNotesShow : string -> string -> Completion string)
  (JSON_parse : string -> option Json.t) (rendered : string)
  {C : Type} (branches : list (Branch.t C))
  (result : list (Branch.t Json.t)) :
  getTags gitTagMerged gitNotesShow JSON_parse rendered [] branches
  = Normal (Some result) ->
  Forall2 (Terms.resolvedBranch gitTagMerged gitNotesShow JSON_parse rendered)
    branches result
  /\ (forall tag version,
        keeps rendered tag = Some version
        <-> matchVersion rendered tag = Some version
            /\ Semver.clean version <> None)
  /\ (forall note,
        Json.property "channels" note = None ->
        channelsOf note = Json.JArr [Json.JNull])
  /\ (forall note channels,
        Json.property "channels" note = Some (Json.JArr channels) ->
        channelsOf note = Json.JArr channels).
Proof.
  intros H. split.
  - apply getTags_spec in H as (added & -> & Hf). exact Hf.
  - split; [intros tag version; apply keeps_iff|].
    split; [exact channelsOf_default|exact channelsOf_array].
Qed.

Lemma tag_resolution_witness :
  exists result,
    getTags Inputs.tagMerged Inputs.notesShow Inputs.parseNote "v " []
      [Inputs.branchOf "master" BranchType.release vundefined []]
    = Normal (Some result)
    /\ Forall2
         (Terms.resolvedBranch Inputs.tagMerged Inputs.notesShow
            Inputs.parseNote "v ")
         [Inputs.branchOf "master" BranchType.release vundefined []] result.
Proof.
  eexists. split; [reflexivity|].
  apply (tag_resolution Inputs.tagMerged Inputs.notesShow Inputs.parseNote
           "v " [Inputs.branchOf "master" BranchType.release vundefined []]).
  reflexivity.
Defined.

End TagsFacts.

(* ================================================================== *)
(** * The lifecycle of a run *)
(* ================================================================== *)

Module LifecycleFacts.

Import Pipeline Observed TraceFacts PipelineFacts Lifecycle.

Lemma invokedSteps_app a b :
  invokedSteps (a ++ b) = invokedSteps a ++ invokedSteps b.
Proof.
  induction a as [|e a IH]; [reflexivity|].
  destruct e; cbn [app invokedSteps]; rewrite IH; reflexivity.
Qed.

Lemma prelude_steps w context history :
  let (d, o) := prelude w context history in
  forallb ofRun d = true
  /\ match o with
     | Next _ => invokedSteps d = [verifyConditions]
     | Return _ => invokedSteps d = []
     | Raise _ => prefixOf (invokedSteps d) [verifyConditions]
     end.
Proof.
  set (c := forceDryRun context).
  unfold prelude. fold c. destruct c as [ci o pv bs b rs lr cs nr].
  explore; (split; [reflexivity|]); try reflexivity; eexists; reflexivity.
Qed.

Lemma addChannelPath_steps w context branch r history :
  let (d, o) := addChannelPath w context branch r history in
  forallb ofRun d = true
  /\ (dryRun (options context) = true -> quiet d = true)
  /\ match o with
     | Next (_, _, []) => invokedSteps d = addChannelSteps
     | Next (_, _, errors) =>
         invokedSteps d = [] /\ quiet d = true
         /\ errors = [getError "EINVALIDMAINTENANCEMERGE"]
     | Return _ => False
     | Raise _ => prefixOf (invokedSteps d) addChannelSteps
     end.
Proof.
  destruct context as [ci [dry noci pub vo] pv bs b rs lr cs nr];
    destruct dry; explore;
    (split; [reflexivity|]);
    (split; [intros H; try discriminate H; reflexivity|]);
    try reflexivity; try (repeat split; reflexivity);
    eexists; reflexivity.
Qed.

Lemma newReleasePath_steps w context branch history :
  let (d, o) := newReleasePath w context branch history in
  forallb ofRun d = true
  /\ (dryRun (options context) = true -> quiet d = true)
  /\ match o with
     | Next _ => invokedSteps d = releaseSteps
     | Return _ => invokedSteps d = [analyzeCommits]
     | Raise _ => prefixOf (invokedSteps d) releaseSteps
     end.
Proof.
  destruct context as [ci [dry noci pub vo] pv bs b rs lr cs nr];
    destruct dry; explore;
    (split; [reflexivity|]);
    (split; [intros H; try discriminate H; reflexivity|]);
    try reflexivity; eexists; reflexivity.
Qed.

Lemma prefixOf_app {A} (a l full : list A) :
  prefixOf l full -> prefixOf (a ++ l) (a ++ full).
Proof. intros [rest ->]. exists rest. now rewrite List.app_assoc. Qed.

Lemma prefixOf_weaken {A} (l a b : list A) :
  prefixOf l a -> prefixOf l (a ++ b).
Proof. intros [rest ->]. exists (rest ++ b). now rewrite List.app_assoc. Qed.

Lemma prefixOf_refl {A} (l : list A) : prefixOf l l.
Proof. exists []. now rewrite List.app_nil_r. Qed.

Lemma prefixOf_nil {A} (l : list A) : prefixOf [] l.
Proof. now exists l. Qed.

Lemma quiet_app a b : quiet (a ++ b) = quiet a && quiet b.
Proof. apply forallb_app. Qed.

(** After VerifyConditions: the steps of the release added to a channel,
    when there is one, then those of the new release. *)
Lemma afterVerifyConditions_steps w context branch history :
  let (d, o) := afterVerifyConditions w context branch history in
  forallb ofRun d = true
  /\ (dryRun (options context) = true -> quiet d = true)
  /\ match o with
     | Next _ =>
         invokedSteps d = releaseSteps
         \/ invokedSteps d = addChannelSteps ++ releaseSteps
     | Return _ =>
         invokedSteps d = [analyzeCommits]
         \/ invokedSteps d = addChannelSteps ++ [analyzeCommits]
     | Raise _ =>
         prefixOf (invokedSteps d) releaseSteps
         \/ prefixOf (invokedSteps d) (addChannelSteps ++ releaseSteps)
     end.
Proof.
  unfold afterVerifyConditions, bind, lift.
  set (c0 := setReleases context []).
  assert (Hopt : options c0 = options context) by reflexivity.
  clearbody c0.
  destruct (w_getReleaseToAdd w c0) as [[r|]|t]; cbn [ret throw fst snd app].
  - pose proof (addChannelPath_spec w c0 branch r (history ++ [])) as Hspec.
    pose proof (addChannelPath_steps w c0 branch r (history ++ [])) as Hadd.
    destruct (addChannelPath w c0 branch r (history ++ [])) as [d1 o1].
    destruct Hadd as (Hrun1 & Hq1 & Ho1). destruct Hspec as (_ & _ & Hs1).
    rewrite Hopt in Hq1.
    destruct o1 as [[[c1 b1] errors]|r1|t1]; [|contradiction|].
    + destruct Hs1 as [Hopt1 _].
      destruct errors as [|e errors]; cbn [isEmpty].
      * pose proof (newReleasePath_steps w c1 b1 ((history ++ []) ++ d1))
          as Hnew.
        destruct (newReleasePath w c1 b1 ((history ++ []) ++ d1)) as [d2 o2].
        destruct Hnew as (Hrun2 & Hq2 & Ho2). rewrite Hopt1, Hopt in Hq2.
        rewrite forallb_app, Hrun1, Hrun2, invokedSteps_app, Ho1.
        split; [reflexivity|].
        split; [intros Hdry; rewrite quiet_app, Hq1, Hq2; auto|].
        destruct o2; right; [now rewrite Ho2..|now apply prefixOf_app].
      * cbn [throw]. rewrite List.app_nil_r. destruct Ho1 as (Hs & Hq & _).
        split; [exact Hrun1|]. split; [intros _; exact Hq|].
        left. rewrite Hs. apply prefixOf_nil.
    + split; [exact Hrun1|]. split; [exact Hq1|].
      right. now apply prefixOf_weaken.
  - cbv beta iota zeta delta [ret throw isEmpty fst snd]; cbn [app].
    pose proof (newReleasePath_steps w c0 branch ((history ++ []) ++ []))
      as Hnew.
    destruct (newReleasePath w c0 branch ((history ++ []) ++ [])) as [d2 o2].
    destruct Hnew as (Hrun2 & Hq2 & Ho2). rewrite Hopt in Hq2.
    split; [exact Hrun2|]. split; [exact Hq2|].
    destruct o2; now left.
  - split; [reflexivity|]. split; [reflexivity|]. left. apply prefixOf_nil.
Qed.

(** The whole of [run]. *)
Lemma run_steps w context history :
  let (d, o) := run w context history in
  forallb ofRun d = true
  /\ (dryRun (options (forceDryRun context)) = true -> quiet d = true)
  /\ match o with
     | Next _ =>
         invokedSteps d = verifyConditions :: releaseSteps
         \/ invokedSteps d = verifyConditions :: addChannelSteps ++ releaseSteps
     | Return _ =>
         invokedSteps d = []
         \/ invokedSteps d = [verifyConditions; analyzeCommits]
         \/ invokedSteps d
            = verifyConditions :: addChannelSteps ++ [analyzeCommits]
     | Raise _ =>
         prefixOf (invokedSteps d) (verifyConditions :: releaseSteps)
         \/ prefixOf (invokedSteps d)
              (verifyConditions :: addChannelSteps ++ releaseSteps)
     end.
Proof.
  unfold run, bind.
  pose proof (prelude_spec w context history) as Hspec.
  pose proof (prelude_steps w context history) as Hpre.
  destruct (prelude w context history) as [d0 o0].
  destruct Hpre as (Hrun0 & Ho0). destruct Hspec as (Hq0 & _ & _ & _ & Hs0).
  destruct o0 as [[c0 b0]|r0|t0]; cbn [fst snd] in *.
  - destruct Hs0 as (_ & _ & Hopt).
    pose proof (afterVerifyConditions_steps w c0 b0 (history ++ d0)) as Hafter.
    destruct (afterVerifyConditions w c0 b0 (history ++ d0)) as [d1 o1].
    destruct Hafter as (Hrun1 & Hq1 & Ho1). rewrite Hopt in Hq1.
    rewrite forallb_app, Hrun0, Hrun1, invokedSteps_app, Ho0. cbn [app].
    split; [reflexivity|].
    split; [intros Hdry; rewrite quiet_app, Hq0, Hq1; auto|].
    destruct o1.
    + destruct Ho1 as [->| ->]; [now left|now right].
    + destruct Ho1 as [->| ->]; [right; now left|right; now right].
    + destruct Ho1 as [H|H];
        [left|right]; exact (prefixOf_app [verifyConditions] _ _ H).
  - split; [exact Hrun0|]. split; [intros _; exact Hq0|]. now left.
  - split; [exact Hrun0|]. split; [intros _; exact Hq0|].
    left. now apply (prefixOf_weaken _ [verifyConditions]).
Qed.

End LifecycleFacts.

(* ================================================================== *)
(** * What a run does and does not *)
(* ================================================================== *)

Module RunFacts.

Import Pipeline Observed TraceFacts PipelineFacts Lifecycle LifecycleFacts.

(** ** Dry runs *)

Lemma forceDryRun_outside_ci context :
  isCi (envCi context) = false -> noCi (options context) = false ->
  dryRun (options (forceDryRun context)) = true.
Proof.
  intros Hci Hno. unfold forceDryRun. rewrite Hci, Hno.
  destruct (dryRun (options context)) eqn:E; cbn; [exact E|reflexivity].
Qed.

Lemma forceDryRun_keeps context :
  dryRun (options context) = true ->
  dryRun (options (forceDryRun context)) = true.
Proof.
  intros H. unfold forceDryRun. rewrite H.
  now rewrite andb_false_r, andb_false_l.
Qed.

(** X1.  In dry-run mode, and outside a known CI environment unless [noCi] is
    set, [run] makes no git mutation: no tag, no note, no push, whatever
    the plugins and the repository answer. *)
Theorem dry_run_never_mutates
  (w : World) (context : Context) (history : Trace) :
  dryRun (options context) = true
  \/ (isCi (envCi context) = false /\ noCi (options context) = false) ->
  forall e, In e (fst (run w context history)) -> isGitMutation e = false.
Proof.
  intros H e Hin.
  assert (Hdry : dryRun (options (forceDryRun context)) = true).
  { destruct H as [H|[Hci Hno]];
      [now apply forceDryRun_keeps|now apply forceDryRun_outside_ci]. }
  pose proof (run_steps w context history) as Hrun.
  destruct (run w context history) as [d o]. cbn [fst] in Hin.
  destruct Hrun as (_ & Hq & _). specialize (Hq Hdry).
  unfold quiet in Hq. rewrite forallb_forall in Hq.
  apply negb_true_iff. now apply Hq.
Qed.

Lemma dry_run_never_mutates_witness :
  isGitMutation (EvPlugin publish) = false.
Proof.
  apply (dry_run_never_mutates (Worlds.worldOf Worlds.fixOnMaster)
           (Worlds.contextOn "master" true) [] (or_introl eq_refl)
           (EvPlugin publish)).
  cbn. do 17 right. now left.
Defined.

(** ** The order of the plugin steps *)

(** X2.  The plugin steps that [run] invokes are, in order, a beginning of
    VerifyConditions, then for a release added to a channel GenerateNotes,
    AddChannel and Success, then AnalyzeCommits, VerifyRelease,
    GenerateNotes, Prepare, Publish and Success.  [run] resolves with a
    release only after all of them, and resolves early only before any of
    them or right after AnalyzeCommits. *)
Theorem lifecycle_order
  (w : World) (context : Context) (history : Trace) :
  let steps := invokedSteps (fst (run w context history)) in
  (prefixOf steps (verifyConditions :: releaseSteps)
   \/ prefixOf steps (verifyConditions :: addChannelSteps ++ releaseSteps))
  /\ (forall r,
        snd (run w context history) = Next r ->
        steps = verifyConditions :: releaseSteps
        \/ steps = verifyConditions :: addChannelSteps ++ releaseSteps)
  /\ (forall r,
        snd (run w context history) = Return r ->
        steps = []
        \/ steps = [verifyConditions; analyzeCommits]
        \/ steps = verifyConditions :: addChannelSteps ++ [analyzeCommits]).
Proof.
  pose proof (run_steps w context history) as Hrun.
  destruct (run w context history) as [d o]. cbn [fst snd].
  destruct Hrun as (_ & _ & Ho). split.
  - destruct o.
    + destruct Ho as [->| ->]; [left|right]; apply prefixOf_refl.
    + destruct Ho as [->|[->| ->]].
      * left. apply prefixOf_nil.
      * left. now exists [verifyRelease; generateNotes; prepare; publish; success].
      * right.
        now exists [verifyRelease; generateNotes; prepare; publish; success].
    + exact Ho.
  - split; intros r E; subst o; exact Ho.
Qed.

Lemma lifecycle_order_witness :
  invokedSteps
    (fst (run (Worlds.worldOf Worlds.fixOnMaster)
            (Worlds.contextOn "master" false) []))
  = verifyConditions :: releaseSteps
  \/ invokedSteps
       (fst (run (Worlds.worldOf Worlds.fixOnMaster)
               (Worlds.contextOn "master" false) []))
     = verifyConditions :: addChannelSteps ++ releaseSteps.
Proof.
  destruct (lifecycle_order (Worlds.worldOf Worlds.fixOnMaster)
              (Worlds.contextOn "master" false) []) as (_ & H & _).
  exact (H Scenarios.fixReleased eq_refl).
Defined.

(** ** The push permission probe *)

(** X3.  When [verifyAuth] throws, [run] resolves with [false] if the local
    branch is behind the remote one, and throws EGITNOPERMISSION in every
    other case, also when the comparison with the remote branch itself
    throws: the error of the command is never thrown, and no plugin step
    is invoked. *)
Theorem refused_push_probe
  (w : World) (context : Context) (history : Trace) (error : Thrown) :
  let events := fst (run w context history) in
  let probed :=
    history ++ [EvVerify; EvGetGitAuthUrl; EvGetBranches; EvVerifyAuth] in
  w_verifyAuth w probed = Throw error ->
  In EvVerifyAuth events ->
  invokedSteps events = []
  /\ snd (run w context history)
     = match w_isBranchUpToDate w (probed ++ [EvIsBranchUpToDate]) with
       | Normal false => Return RFalse
       | _ => Raise permissionError
       end.
Proof.
  intros events probed. subst events probed. intros Hp.
  change (history ++ [EvVerify; EvGetGitAuthUrl; EvGetBranches; EvVerifyAuth])
    with (history ++ [EvVerify] ++ [EvGetGitAuthUrl] ++ [EvGetBranches]
                  ++ [EvVerifyAuth]) in *.
  rewrite !List.app_assoc in *.
  unfold run, prelude.
  destruct (forceDryRun context) as [ci o pv bs b rs lr cs nr].
  cbv beta iota zeta delta [bind call returns Pipeline.envCi Pipeline.options].
  destruct (isCi _ && isPr _ && negb (noCi o) && negb (publishOnPr o)).
  - intros [].
  - cbn [app]. destruct (w_verify w _); cbn [app fst snd].
    + destruct (w_getGitAuthUrl w _); cbn [app fst snd].
      * destruct (w_getBranches w _) as [branches|t]; cbn [app fst snd].
        -- match goal with
           | |- context [find ?f branches] =>
               destruct (find f branches) as [found|]
           end; cbn [app fst snd].
           ++ cbv beta iota zeta
                  delta [checkAuth tryCatch bind call returns throw].
              cbn [app]. rewrite <- !List.app_assoc in Hp |- *. cbn [app] in *.
              rewrite Hp. cbn [app]. intros _.
              destruct (w_isBranchUpToDate w _) as [[|]|t];
                cbn [negb app fst snd]; split; reflexivity.
           ++ intros [F|[F|[F|[]]]]; discriminate F.
        -- intros [F|[F|[F|[]]]]; discriminate F.
      * intros [F|[F|[]]]; discriminate F.
    + intros [F|[]]; discriminate F.
Qed.

Lemma refused_push_probe_witness :
  invokedSteps
    (fst (run (Scenarios.withAuth (Worlds.worldOf Worlds.fixOnMaster)
                 (Throw Scenarios.refused) (Normal true))
            (Worlds.contextOn "master" false) [])) = []
  /\ snd (run (Scenarios.withAuth (Worlds.worldOf Worlds.fixOnMaster)
                 (Throw Scenarios.refused) (Normal true))
            (Worlds.contextOn "master" false) [])
     = Raise permissionError.
Proof.
  apply (refused_push_probe
           (Scenarios.withAuth (Worlds.worldOf Worlds.fixOnMaster)
              (Throw Scenarios.refused) (Normal true))
           (Worlds.contextOn "master" false) [] Scenarios.refused eq_refl).
  cbn. do 3 right. now left.
Defined.

(** ** A merge out of the range of a maintenance branch *)

(** X4.  When the release to add to the channel of the branch is outside the
    merge range of the branch, what follows VerifyConditions only resolves
    the two tag heads and throws: EINVALIDMAINTENANCEMERGE, in an
    aggregate, or the error of [getTagHead]; no plugin step is invoked,
    nothing is written, and no new release is looked for. *)
Theorem merge_out_of_range
  (w : World) (context : Context) (branch : Branch) (r : ReleaseToAdd)
  (history : Trace) :
  w_getReleaseToAdd w (setReleases context []) = Normal (Some r) ->
  truthy (Branch.mergeRange branch) = true ->
  w_satisfies w (vstr (addedVersion (addNextRelease r)))
    (Branch.mergeRange branch) = false ->
  let events := fst (afterVerifyConditions w context branch history) in
  Forall (fun e => exists ref, e = EvGetTagHead ref) events
  /\ exists error,
       snd (afterVerifyConditions w context branch history) = Raise error
       /\ (error = invalidMergeError
           \/ exists h, w_getTagHead w h = Throw error).
Proof.
  intros Hadd Hrange Hsat. cbv zeta.
  unfold afterVerifyConditions, bind at 1, lift. rewrite Hadd.
  cbv beta iota zeta delta [ret]. cbn [app].
  unfold addChannelPath. cbv beta iota zeta delta [bind call]. cbn [app].
  destruct (w_getTagHead w _) as [h1|t1] eqn:E1; cbn [app fst snd].
  - destruct (w_getTagHead w (_ ++ [EvGetTagHead (currentGitHead _)]))
      as [h2|t2] eqn:E2; cbn [app fst snd].
    + cbn [addedVersion] in *. rewrite Hrange, Hsat.
      cbv beta iota zeta delta [ret throw negb andb isEmpty]. cbn [app fst snd].
      split; [repeat constructor; eexists; reflexivity|].
      eexists. split; [reflexivity|now left].
    + split; [repeat constructor; eexists; reflexivity|].
      eexists. split; [reflexivity|]. right. eexists. exact E2.
  - split; [repeat constructor; eexists; reflexivity|].
    eexists. split; [reflexivity|]. right. eexists. exact E1.
Qed.

Lemma merge_out_of_range_witness :
  Forall (fun e => exists ref, e = EvGetTagHead ref)
    (fst (afterVerifyConditions (Worlds.worldOf Scenarios.mergedAhead)
            (Worlds.contextOn "1.x" false) Scenarios.maintenance []))
  /\ exists error,
       snd (afterVerifyConditions (Worlds.worldOf Scenarios.mergedAhead)
              (Worlds.contextOn "1.x" false) Scenarios.maintenance [])
       = Raise error
       /\ (error = invalidMergeError
           \/ exists h,
                w_getTagHead (Worlds.worldOf Scenarios.mergedAhead) h
                = Throw error).
Proof.
  exact (merge_out_of_range (Worlds.worldOf Scenarios.mergedAhead)
           (Worlds.contextOn "1.x" false) Scenarios.maintenance
           (mkReleaseToAdd (Worlds.lastOf "1.0.0" [vnull])
              (mkCurrentRelease [vnull] (vstr "v1.1.0"))
              (mkAddedRelease "1.1.0" (vstr "1.x") "v1.1.0" (vstr "v1.1.0")
                 vundefined))
           [] eq_refl eq_refl eq_refl).
Defined.

(** ** A branch that is not configured *)

(** X6.  When no validated branch has the name of the branch that triggered
    the run, [run] resolves with [false] right after the validation of
    the branches: the push permission is not probed and no plugin step is
    invoked. *)
Theorem unconfigured_branch_is_skipped
  (w : World) (context : Context) (history : Trace)
  (branches : list Branch) :
  w_getBranches w (history ++ [EvVerify; EvGetGitAuthUrl; EvGetBranches])
  = Normal branches ->
  List.find (fun b => Branch.name b =? triggeredOn context) branches = None ->
  In EvGetBranches (fst (run w context history)) ->
  run w context history
  = ([EvVerify; EvGetGitAuthUrl; EvGetBranches], Return RFalse).
Proof.
  intros Hb Hfind.
  change (history ++ [EvVerify; EvGetGitAuthUrl; EvGetBranches])
    with (history ++ [EvVerify] ++ [EvGetGitAuthUrl] ++ [EvGetBranches]) in Hb.
  rewrite !List.app_assoc in Hb.
  unfold run, prelude. unfold triggeredOn in Hfind.
  cbv beta iota zeta delta [bind call returns].
  destruct (isCi _ && isPr _ && negb (noCi _) && negb (publishOnPr _)).
  - intros [].
  - cbn [app]. destruct (w_verify w _); cbn [app fst snd].
    + destruct (w_getGitAuthUrl w _); cbn [app fst snd].
      * rewrite Hb. cbn [app fst snd]. rewrite Hfind. reflexivity.
      * intros [F|[F|[]]]; discriminate F.
    + intros [F|[]]; discriminate F.
Qed.

Lemma unconfigured_branch_is_skipped_witness :
  run (Worlds.worldOf Worlds.fixOnMaster) (Worlds.contextOn "dev" false) []
  = ([EvVerify; EvGetGitAuthUrl; EvGetBranches], Return RFalse).
Proof.
  apply (unconfigured_branch_is_skipped (Worlds.worldOf Worlds.fixOnMaster)
           (Worlds.contextOn "dev" false) [] [Worlds.master; Worlds.next]);
    try reflexivity.
  cbn. do 2 right. now left.
Defined.

End RunFacts.

(* ================================================================== *)
(** * The release of a run *)
(* ================================================================== *)

Module ReleaseFacts.

Import Pipeline Observed TraceFacts PipelineFacts Lifecycle LifecycleFacts.

(** Symbolic execution that keeps what each answer was. *)
Ltac stepE :=
  match goal with
  | |- context [match ?x with _ => _ end] =>
      lazymatch x with
      | context [match _ with _ => _ end] => fail
      | _ => destruct x eqn:?
      end
  end.

Ltac exploreE := reduce; repeat (stepE; reduce).

Lemma publishedReleases_app a b :
  publishedReleases (a ++ b) = publishedReleases a ++ publishedReleases b.
Proof.
  induction a as [|e a IH]; [reflexivity|].
  destruct e as [| | | | | |s|s r| | | | | | | | | | | |];
    cbn [app publishedReleases]; try exact IH.
  destruct s; try exact IH.
  destruct r; try exact IH. now rewrite IH, List.app_assoc.
Qed.

Lemma prelude_published w context history :
  publishedReleases (fst (prelude w context history)) = [].
Proof.
  set (c := forceDryRun context).
  unfold prelude. fold c. destruct c as [ci o pv bs b rs lr cs nr].
  explore; reflexivity.
Qed.

Lemma addChannelPath_published w context branch r history :
  publishedReleases (fst (addChannelPath w context branch r history)) = [].
Proof.
  destruct context as [ci [dry noci pub vo] pv bs b rs lr cs nr];
    explore; reflexivity.
Qed.

(** The new release that [run] resolves with. *)
Lemma newReleasePath_record w context branch history :
  let (d, o) := newReleasePath w context branch history in
  match o with
  | Next r =>
      exists last cs next,
        r = released last cs next (releasesOf context ++ publishedReleases d)
        /\ gitTag next = w_makeTag w (version next)
        /\ name next = gitTag next
        /\ channel next
           = (if truthy (Branch.channel branch) then Branch.channel branch
              else vnull)
        /\ (isPrereleaseBranch branch = true
            \/ w_satisfies w (version next) (Branch.range branch) = true)
        /\ (dryRun (options context) = false ->
            List.filter isGitMutation d = releaseMutations next)
  | _ => True
  end.
Proof.
  destruct context as [ci [dry noci pub vo] pv bs b rs lr cs nr];
    destruct dry; exploreE; try exact I;
    eexists _, _, _;
    (split; [unfold released; cbn [publishedReleases app];
             rewrite ?List.app_nil_r; reflexivity|]);
    cbn [gitTag version name channel gitHead];
    (split; [reflexivity|]); (split; [reflexivity|]);
    (split; [reflexivity|]);
    (split; [first [left; reflexivity | left; assumption
                    | right; assumption]|]);
    intros Hdry; try discriminate Hdry; reflexivity.
Qed.

Lemma addChannelPath_branch w context branch r history :
  match snd (addChannelPath w context branch r history) with
  | Next (_, branch', _) => samePolicy branch branch'
  | _ => True
  end.
Proof.
  destruct context as [ci [dry noci pub vo] pv bs b rs lr cs nr];
    explore; cbn [snd]; try exact I; repeat split.
Qed.

Lemma samePolicy_prerelease a b :
  samePolicy a b -> isPrereleaseBranch b = isPrereleaseBranch a.
Proof. intros (_ & H & _). unfold isPrereleaseBranch. now rewrite H. Qed.

Lemma filter_mutations_quiet d :
  quiet d = true -> List.filter isGitMutation d = [].
Proof.
  induction d as [|e d IH]; [reflexivity|]. cbn [quiet forallb filter].
  intros H. apply andb_true_iff in H as [He H].
  apply negb_true_iff in He. rewrite He. now apply IH.
Qed.

(** After VerifyConditions, the release that [run] resolves with. *)
Lemma afterVerifyConditions_record w context branch history :
  let (d, o) := afterVerifyConditions w context branch history in
  match o with
  | Next r =>
      exists last cs next,
        r = released last cs next (addedReleases d ++ publishedReleases d)
        /\ gitTag next = w_makeTag w (version next)
        /\ name next = gitTag next
        /\ channel next
           = (if truthy (Branch.channel branch) then Branch.channel branch
              else vnull)
        /\ (isPrereleaseBranch branch = true
            \/ w_satisfies w (version next) (Branch.range branch) = true)
        /\ (dryRun (options context) = false ->
            exists before,
              List.filter isGitMutation d = before ++ releaseMutations next)
  | _ => True
  end.
Proof.
  unfold afterVerifyConditions, bind, lift.
  set (c0 := setReleases context []).
  assert (Hopt : options c0 = options context) by reflexivity.
  assert (Hrel : releasesOf c0 = []) by reflexivity.
  clearbody c0.
  destruct (w_getReleaseToAdd w c0) as [[r|]|t]; cbn [ret throw fst snd app];
    [| |exact I].
  - pose proof (addChannelPath_spec w c0 branch r (history ++ [])) as Hspec.
    pose proof (addChannelPath_published w c0 branch r (history ++ []))
      as Hpub.
    pose proof (addChannelPath_branch w c0 branch r (history ++ [])) as Hbr.
    destruct (addChannelPath w c0 branch r (history ++ [])) as [d1 o1].
    cbn [fst snd] in *. destruct Hspec as (_ & _ & Hs1).
    destruct o1 as [[[c1 b1] errors]|r1|t1]; [|contradiction|exact I].
    destruct Hs1 as [Hopt1 Hrel1]. rewrite Hrel in Hrel1. cbn [app] in Hrel1.
    destruct errors as [|e errors]; cbn [isEmpty]; [|exact I].
    pose proof (newReleasePath_spec w c1 b1 ((history ++ []) ++ d1)) as Hnew.
    pose proof (newReleasePath_record w c1 b1 ((history ++ []) ++ d1)) as Hrec.
    destruct (newReleasePath w c1 b1 ((history ++ []) ++ d1)) as [d2 o2].
    destruct Hnew as (Hadd2 & _). destruct o2 as [r2| |]; try exact I.
    destruct Hrec as (last & cs & next & -> & Htag & Hname & Hch & Hsat & Hmut).
    exists last, cs, next.
    rewrite addedReleases_app, publishedReleases_app, Hadd2, Hpub, Hrel1.
    rewrite List.app_nil_r. cbn [app].
    destruct Hbr as (_ & Hty & Hrg & Hchan).
    split; [reflexivity|]. split; [exact Htag|]. split; [exact Hname|].
    split; [now rewrite <- Hchan|].
    split.
    + unfold isPrereleaseBranch in *. rewrite <- Hty, <- Hrg. exact Hsat.
    + intros Hdry. exists (List.filter isGitMutation d1).
      rewrite List.filter_app. f_equal. apply Hmut. now rewrite Hopt1, Hopt.
  - cbv beta iota zeta delta [ret throw isEmpty fst snd]; cbn [app].
    pose proof (newReleasePath_spec w c0 branch ((history ++ []) ++ [])) as Hnew.
    pose proof (newReleasePath_record w c0 branch ((history ++ []) ++ []))
      as Hrec.
    destruct (newReleasePath w c0 branch ((history ++ []) ++ [])) as [d2 o2].
    destruct Hnew as (Hadd2 & _). destruct o2 as [r2| |]; try exact I.
    destruct Hrec as (last & cs & next & -> & Htag & Hname & Hch & Hsat & Hmut).
    exists last, cs, next. rewrite Hadd2, Hrel in *. cbn [app].
    repeat (split; [assumption|]).
    split; [reflexivity|]. repeat (split; [assumption|]).
    intros Hdry. exists []. apply Hmut. now rewrite Hopt.
Qed.

(** The branch that [run] works on: the one of the validated branches
    that has the name of the branch that triggered the run. *)
Lemma prelude_branch w context history :
  match snd (prelude w context history) with
  | Next (c, b) =>
      exists branches,
        w_getBranches w
          (history ++ [EvVerify; EvGetGitAuthUrl; EvGetBranches])
        = Normal branches
        /\ List.find (fun b => Branch.name b =? triggeredOn context) branches
           = Some b
  | _ => True
  end.
Proof.
  unfold prelude.
  change (history ++ [EvVerify; EvGetGitAuthUrl; EvGetBranches])
    with (history ++ [EvVerify] ++ [EvGetGitAuthUrl] ++ [EvGetBranches]).
  rewrite !List.app_assoc.
  cbv beta iota zeta delta [bind call returns].
  destruct (isCi _ && isPr _ && negb (noCi _) && negb (publishOnPr _));
    [exact I|].
  cbn [app]. destruct (w_verify w _); cbn [app fst snd]; [|exact I].
  destruct (w_getGitAuthUrl w _); cbn [app fst snd]; [|exact I].
  destruct (w_getBranches w _) as [branches|t]; cbn [app fst snd]; [|exact I].
  unfold triggeredOn.
  match goal with
  | |- context [find ?f branches] =>
      destruct (find f branches) as [found|] eqn:Ef
  end; cbn [app fst snd]; [|exact I].
  destruct (checkAuth w _) as [d1 [[]| |]]; cbn [snd]; try exact I.
  destruct (pluginStep w verifyConditions _) as [d2 [[]| |]]; cbn [snd];
    try exact I.
  cbv beta iota zeta delta [ret]. cbn [snd].
  exists branches. split; [reflexivity|exact Ef].
Qed.

(** The whole of [run], when it resolves with a release. *)
Lemma run_record w context history r :
  snd (run w context history) = Next r ->
  exists branches b last cs next,
    w_getBranches w (history ++ [EvVerify; EvGetGitAuthUrl; EvGetBranches])
    = Normal branches
    /\ List.find (fun b => Branch.name b =? triggeredOn context) branches
       = Some b
    /\ r = released last cs next
             (addedReleases (fst (run w context history))
              ++ publishedReleases (fst (run w context history)))
    /\ gitTag next = w_makeTag w (version next)
    /\ name next = gitTag next
    /\ channel next
       = (if truthy (Branch.channel b) then Branch.channel b else vnull)
    /\ (isPrereleaseBranch b = true
        \/ w_satisfies w (version next) (Branch.range b) = true)
    /\ (dryRun (options (forceDryRun context)) = false ->
        exists before,
          List.filter isGitMutation (fst (run w context history))
          = before ++ releaseMutations next).
Proof.
  unfold run, bind.
  pose proof (prelude_spec w context history) as Hspec.
  pose proof (prelude_published w context history) as Hpub.
  pose proof (prelude_branch w context history) as Hbr.
  destruct (prelude w context history) as [d0 o0]. cbn [fst snd] in *.
  destruct Hspec as (Hq0 & _ & Hadd0 & _ & Hs0).
  destruct o0 as [[c0 b0]|r0|t0]; cbn [fst snd] in *; try discriminate.
  destruct Hs0 as (_ & _ & Hopt). destruct Hbr as (branches & Hget & Hfind).
  pose proof (afterVerifyConditions_record w c0 b0 (history ++ d0)) as Hrec.
  destruct (afterVerifyConditions w c0 b0 (history ++ d0)) as [d1 o1].
  cbn [fst snd]. intros E. subst o1.
  destruct Hrec as (last & cs & next & -> & Htag & Hname & Hch & Hsat & Hmut).
  exists branches, b0, last, cs, next.
  rewrite addedReleases_app, publishedReleases_app, Hadd0, Hpub. cbn [app].
  repeat (split; [assumption || reflexivity|]).
  intros Hdry. rewrite Hopt in Hmut. destruct (Hmut Hdry) as [before Hb].
  exists before.
  now rewrite List.filter_app, (filter_mutations_quiet _ Hq0).
Qed.

(** ** The release that [run] resolves with *)

(** X7.  When [run] resolves with a release, the branch it worked on is the
    validated branch named as the branch that triggered the run, and
    unless that branch is a prerelease branch the version released
    satisfies its range. *)
Theorem released_version_in_range
  (w : World) (context : Context) (history : Trace) (r : Result) :
  snd (run w context history) = Next r ->
  exists branches b next,
    w_getBranches w (history ++ [EvVerify; EvGetGitAuthUrl; EvGetBranches])
    = Normal branches
    /\ List.find (fun b => Branch.name b =? triggeredOn context) branches
       = Some b
    /\ field "nextRelease" r = Some (FNextRelease next)
    /\ (Branch.type b = Some BranchType.prerelease
        \/ w_satisfies w (version next) (Branch.range b) = true).
Proof.
  intros H.
  destruct (run_record _ _ _ _ H)
    as (branches & b & last & cs & next & Hget & Hfind & -> & _ & _ & _
        & Hsat & _).
  exists branches, b, next. repeat (split; [assumption || reflexivity|]).
  destruct Hsat as [Hp|Hs]; [left|now right].
  unfold isPrereleaseBranch in Hp.
  destruct (Branch.type b) as [[]|]; try discriminate Hp. reflexivity.
Qed.

Lemma released_version_in_range_witness :
  exists branches b next,
    w_getBranches (Worlds.worldOf Worlds.fixOnMaster)
      [EvVerify; EvGetGitAuthUrl; EvGetBranches] = Normal branches
    /\ List.find
         (fun b => Branch.name b
                   =? triggeredOn (Worlds.contextOn "master" false))
         branches = Some b
    /\ field "nextRelease" Scenarios.fixReleased = Some (FNextRelease next)
    /\ (Branch.type b = Some BranchType.prerelease
        \/ w_satisfies (Worlds.worldOf Worlds.fixOnMaster) (version next)
             (Branch.range b) = true).
Proof.
  exact (released_version_in_range (Worlds.worldOf Worlds.fixOnMaster)
           (Worlds.contextOn "master" false) [] Scenarios.fixReleased
           eq_refl).
Defined.

(** X8.  When [run] resolves with a release, the releases of its result are
    those that the AddChannel step handed back followed by those that the
    Publish step handed back. *)
Theorem result_collects_releases
  (w : World) (context : Context) (history : Trace) (r : Result) :
  snd (run w context history) = Next r ->
  field "releases" r
  = Some (FReleases (addedReleases (fst (run w context history))
                     ++ publishedReleases (fst (run w context history)))).
Proof.
  intros H.
  destruct (run_record _ _ _ _ H)
    as (branches & b & last & cs & next & _ & _ & -> & _).
  reflexivity.
Qed.

Lemma result_collects_releases_witness :
  field "releases" Scenarios.fixReleased
  = Some (FReleases
            (addedReleases
               (fst (run (Worlds.worldOf Worlds.fixOnMaster)
                       (Worlds.contextOn "master" false) []))
             ++ publishedReleases
                  (fst (run (Worlds.worldOf Worlds.fixOnMaster)
                          (Worlds.contextOn "master" false) [])))).
Proof.
  exact (result_collects_releases (Worlds.worldOf Worlds.fixOnMaster)
           (Worlds.contextOn "master" false) [] Scenarios.fixReleased
           eq_refl).
Defined.

(** X9.  When [run] resolves with a release, the tag of the release is
    [makeTag] of its version and its name is the tag; outside a dry run,
    the last git mutations of [run] are the creation of that tag on the
    head of the release, the note of the tag with the channel of the
    release, the push and the push of that note, in this order. *)
Theorem reported_tag_is_created
  (w : World) (context : Context) (history : Trace) (r : Result) :
  snd (run w context history) = Next r ->
  exists next,
    field "nextRelease" r = Some (FNextRelease next)
    /\ gitTag next = w_makeTag w (version next)
    /\ name next = gitTag next
    /\ (dryRun (options (forceDryRun context)) = false ->
        exists before,
          List.filter isGitMutation (fst (run w context history))
          = before ++ releaseMutations next).
Proof.
  intros H.
  destruct (run_record _ _ _ _ H)
    as (branches & b & last & cs & next & _ & _ & -> & Htag & Hname & _ & _
        & Hmut).
  exists next. repeat (split; [assumption || reflexivity|]). exact Hmut.
Qed.

Lemma reported_tag_is_created_witness :
  exists next,
    field "nextRelease" Scenarios.fixReleased = Some (FNextRelease next)
    /\ gitTag next
       = w_makeTag (Worlds.worldOf Worlds.fixOnMaster) (version next)
    /\ name next = gitTag next
    /\ exists before,
         List.filter isGitMutation
           (fst (run (Worlds.worldOf Worlds.fixOnMaster)
                   (Worlds.contextOn "master" false) []))
         = before ++ releaseMutations next.
Proof.
  destruct (reported_tag_is_created (Worlds.worldOf Worlds.fixOnMaster)
              (Worlds.contextOn "master" false) [] Scenarios.fixReleased
              eq_refl)
    as (next & Hf & Htag & Hname & Hmut).
  exists next. repeat (split; [assumption|]). exact (Hmut eq_refl).
Defined.

(** ** A release added to a channel *)

(** X10.  Adding a release to a channel creates no tag.  Outside a dry run,
    when it goes through, its git mutations are the note of the tag of
    the release, with the channels the release had followed by the new
    one, the push and the push of that note, in this order. *)
Theorem added_channel_is_noted
  (w : World) (context : Context) (branch : Branch) (r : ReleaseToAdd)
  (history : Trace) :
  let events := fst (addChannelPath w context branch r history) in
  (forall tagName ref, ~ In (EvTag tagName ref) events)
  /\ (dryRun (options context) = false ->
      forall context' branch',
        snd (addChannelPath w context branch r history)
        = Next (context', branch', []) ->
        List.filter isGitMutation events
        = [EvAddNote (currentChannels (addCurrentRelease r)
                      ++ [addedChannel (addNextRelease r)])
             (vstr (addedGitTag (addNextRelease r)));
           EvPush;
           EvPushNotes (vstr (addedGitTag (addNextRelease r)))]).
Proof.
  cbv zeta.
  destruct context as [ci [dry noci pub vo] pv bs b rs lr cs nr];
    destruct dry; explore; cbn [fst snd];
    (split;
     [intros tagName ref H; cbn in H;
      repeat (destruct H as [H|H]; [discriminate H|]); exact H|]);
    intros Hdry; try discriminate Hdry;
    intros context' branch' E; try discriminate E; reflexivity.
Qed.

Lemma added_channel_is_noted_witness :
  List.filter isGitMutation
    (fst (addChannelPath (Worlds.worldOf Worlds.mergedNext)
            (Worlds.contextOn "master" false) Worlds.master
            (mkReleaseToAdd (Worlds.lastOf "1.0.0" [vnull])
               (mkCurrentRelease [vstr "next"] (vstr "v2.0.0"))
               (mkAddedRelease "2.0.0" vnull "v2.0.0" (vstr "v2.0.0")
                  vundefined)) []))
  = [EvAddNote [vstr "next"; vnull] (vstr "v2.0.0"); EvPush;
     EvPushNotes (vstr "v2.0.0")].
Proof.
  exact (proj2 (added_channel_is_noted (Worlds.worldOf Worlds.mergedNext)
                  (Worlds.contextOn "master" false) Worlds.master
                  (mkReleaseToAdd (Worlds.lastOf "1.0.0" [vnull])
                     (mkCurrentRelease [vstr "next"] (vstr "v2.0.0"))
                     (mkAddedRelease "2.0.0" vnull "v2.0.0" (vstr "v2.0.0")
                        vundefined)) [])
           eq_refl _ _ eq_refl).
Defined.

End ReleaseFacts.

(* ================================================================== *)
(** * Bumps of the last release *)
(* ================================================================== *)

Module BumpFacts.

Import SemverFacts NextVersionFacts Bumps.

Lemma append_empty s : (s ++ "")%string = s.
Proof. induction s as [|c s IH]; [reflexivity|]. cbn. now rewrite IH. Qed.

Lemma incSemVer_plain v type :
  isBump type = true -> Semver.prerelease (Semver.incSemVer v type) = [].
Proof. destruct type; try discriminate; reflexivity. Qed.

Lemma incSemVer_bounds v type :
  isBump type = true -> belowMax v ->
  (Semver.major (Semver.incSemVer v type) <= Semver.MAX_SAFE_INTEGER)%N
  /\ (Semver.minor (Semver.incSemVer v type) <= Semver.MAX_SAFE_INTEGER)%N
  /\ (Semver.patch (Semver.incSemVer v type) <= Semver.MAX_SAFE_INTEGER)%N.
Proof.
  intros Ht (Ha & Hb & Hc).
  assert (0 <= Semver.MAX_SAFE_INTEGER)%N by (apply N.le_0_l).
  destruct type; try discriminate; cbn;
    repeat match goal with
           | |- context [if ?c then _ else _] => destruct c
           end; repeat split; lia.
Qed.

(** A bumped version, printed, parses back to itself without its build. *)
Lemma parse_bumped v type :
  isBump type = true -> belowMax v ->
  Semver.parse (Semver.format (Semver.incSemVer v type))
  = Some (Semver.mkSemVer (Semver.major (Semver.incSemVer v type))
            (Semver.minor (Semver.incSemVer v type))
            (Semver.patch (Semver.incSemVer v type)) [] []).
Proof.
  intros Ht Hb. unfold Semver.format.
  rewrite (incSemVer_plain _ _ Ht), append_empty.
  destruct (incSemVer_bounds _ _ Ht Hb) as (H1 & H2 & H3).
  now apply parse_formatMain.
Qed.

Lemma compare_pre_plain (a b : Semver.SemVer) :
  Semver.prerelease a = [] ->
  Semver.comparePre a b = Gt \/ Semver.prerelease b = [].
Proof.
  intros Ha. unfold Semver.comparePre. rewrite Ha.
  destruct (Semver.prerelease b); [now right|now left].
Qed.

(** A bump gives a greater version. *)
Lemma incSemVer_greater v type :
  isBump type = true ->
  Semver.compareSemVer
    (Semver.mkSemVer (Semver.major (Semver.incSemVer v type))
       (Semver.minor (Semver.incSemVer v type))
       (Semver.patch (Semver.incSemVer v type)) [] []) v = Gt.
Proof.
  intros Ht. unfold Semver.compareSemVer, Semver.compareMain, Semver.comparePre.
  destruct v as [ma mi pa pre bu].
  destruct type; try discriminate; cbn [Semver.incSemVer Semver.incMajor
    Semver.incMinor Semver.incPatch Semver.major Semver.minor Semver.patch
    Semver.prerelease Semver.isEmpty].
  - (* major *)
    destruct pre as [|i pre]; cbn [Semver.isEmpty].
    + rewrite orb_true_r.
      replace (ma + 1 ?= ma)%N with Gt; [reflexivity|].
      symmetry. apply N.compare_gt_iff. lia.
    + rewrite orb_false_r.
      destruct (mi =? 0)%N eqn:Emi; destruct (pa =? 0)%N eqn:Epa;
        cbn [negb orb];
        try (replace (ma + 1 ?= ma)%N with Gt;
             [reflexivity|symmetry; apply N.compare_gt_iff; lia]).
      apply N.eqb_eq in Emi, Epa. subst. now rewrite N.compare_refl.
  - (* minor *)
    rewrite N.compare_refl.
    destruct pre as [|i pre]; cbn [Semver.isEmpty].
    + rewrite orb_true_r.
      replace (mi + 1 ?= mi)%N with Gt; [reflexivity|].
      symmetry. apply N.compare_gt_iff. lia.
    + rewrite orb_false_r.
      destruct (pa =? 0)%N eqn:Epa; cbn [negb].
      * apply N.eqb_eq in Epa. subst. now rewrite !N.compare_refl.
      * replace (mi + 1 ?= mi)%N with Gt; [reflexivity|].
        symmetry. apply N.compare_gt_iff. lia.
  - (* patch *)
    rewrite !N.compare_refl.
    destruct pre as [|i pre]; cbn [Semver.isEmpty].
    + replace (pa + 1 ?= pa)%N with Gt; [reflexivity|].
      symmetry. apply N.compare_gt_iff. lia.
    + now rewrite N.compare_refl.
Qed.

Lemma isBump_dampened type :
  isBump type = true -> isBump (NextVersion.majorZeroRelease type) = true.
Proof. destruct type; try discriminate; reflexivity. Qed.

Lemma isBump_effective v type :
  isBump type = true ->
  isBump (if (Semver.major v =? 0)%N
          then NextVersion.majorZeroRelease type else type) = true.
Proof.
  intros H. destruct (Semver.major v =? 0)%N; [now apply isBump_dampened|].
  exact H.
Qed.

(** X11.  On a release or maintenance branch, a major, minor or patch bump of a
    last release whose numbers are below [MAX_SAFE_INTEGER] gives a
    version without prerelease suffix that is greater than the last
    release, also when the last release was a prerelease. *)
Theorem next_version_increases
  {C} (ctx : NextVersion.Context C) (s : string) (v : Semver.SemVer) :
  LastRelease.version (NextVersion.lastRelease ctx) = vstr s ->
  Semver.parse s = Some v ->
  belowMax v ->
  Branch.type (NextVersion.branch ctx) <> Some BranchType.prerelease ->
  isBump (NextVersion.type (NextVersion.nextRelease ctx)) = true ->
  exists next,
    NextVersion.getNextVersion ctx = Normal (vstr next)
    /\ Semver.gt next s = Normal true
    /\ Semver.prereleaseOf next = None.
Proof.
  intros Hv Hp Hb Hty Ht.
  rewrite (getNextVersion_release ctx s v Hv Hp Hty), (inc_parsed _ _ _ Hp).
  set (type := if (Semver.major v =? 0)%N then _ else _).
  assert (Hbump : isBump type = true) by (now apply isBump_effective).
  eexists. split; [reflexivity|].
  unfold Semver.gt, Semver.compare, Semver.prereleaseOf.
  rewrite (parse_bumped _ _ Hbump Hb), Hp. cbn [bindC].
  now rewrite (incSemVer_greater _ _ Hbump).
Qed.

Lemma next_version_increases_witness :
  exists next,
    NextVersion.getNextVersion (Inputs.master_0_0_1 Semver.Major) = Normal (vstr next)
    /\ Semver.gt next "0.0.1" = Normal true
    /\ Semver.prereleaseOf next = None.
Proof.
  apply (next_version_increases (Inputs.master_0_0_1 Semver.Major) "0.0.1"
           (Semver.mkSemVer 0 0 1 [] []));
    try reflexivity; [|discriminate].
  repeat split; reflexivity.
Defined.

(** X12.  On a release or maintenance branch whose last release has major 0,
    no bump that commit analysis asks for leaves major 0: a breaking
    change gives the next minor, anything else the next patch. *)
Theorem major_zero_is_kept
  {C} (ctx : NextVersion.Context C) (s : string) (v : Semver.SemVer) :
  LastRelease.version (NextVersion.lastRelease ctx) = vstr s ->
  Semver.parse s = Some v ->
  belowMax v ->
  Semver.major v = 0%N ->
  Branch.type (NextVersion.branch ctx) <> Some BranchType.prerelease ->
  isBump (NextVersion.type (NextVersion.nextRelease ctx)) = true ->
  exists next v',
    NextVersion.getNextVersion ctx = Normal (vstr next)
    /\ Semver.parse next = Some v'
    /\ Semver.major v' = 0%N.
Proof.
  intros Hv Hp Hb H0 Hty Ht.
  rewrite (getNextVersion_release ctx s v Hv Hp Hty), (inc_parsed _ _ _ Hp).
  rewrite H0. cbn [N.eqb].
  assert (Hbump : isBump (NextVersion.majorZeroRelease
                            (NextVersion.type (NextVersion.nextRelease ctx)))
                  = true) by (now apply isBump_dampened).
  eexists _, _. split; [reflexivity|].
  split; [exact (parse_bumped _ _ Hbump Hb)|]. cbn [Semver.major].
  destruct (NextVersion.type (NextVersion.nextRelease ctx));
    try discriminate Ht; exact H0.
Qed.

Lemma major_zero_is_kept_witness :
  exists next v',
    NextVersion.getNextVersion (Inputs.master_0_0_1 Semver.Major) = Normal (vstr next)
    /\ Semver.parse next = Some v'
    /\ Semver.major v' = 0%N.
Proof.
  apply (major_zero_is_kept (Inputs.master_0_0_1 Semver.Major) "0.0.1"
           (Semver.mkSemVer 0 0 1 [] []));
    try reflexivity; [|discriminate].
  repeat split; reflexivity.
Defined.

Lemma format_not_empty v : Semver.format v <> "".
Proof.
  unfold Semver.format, Semver.formatMain.
  destruct (Str.of_N (Semver.major v)) eqn:E;
    [now apply of_N_not_empty in E|discriminate].
Qed.

(** X13.  [inc] never returns [null]: on a version that [semver.parse] rejects
    it throws a [TypeError], and on every other version it returns a
    string that is not empty. *)
Theorem inc_throws_or_returns_a_version
  (version : Value) (release : Semver.ReleaseType) :
  (NextVersion.parseValue version = None ->
   NextVersion.inc version release = Throw TypeError)
  /\ (NextVersion.parseValue version <> None ->
      exists next,
        NextVersion.inc version release = Normal (vstr next) /\ next <> "").
Proof.
  unfold NextVersion.inc. split.
  - intros H. destruct version; try reflexivity. now rewrite H.
  - intros H. destruct version as [| |b|s]; try (now elim H).
    cbn [NextVersion.parseValue] in *.
    destruct (Semver.parse s) as [v|] eqn:E; [|now elim H].
    unfold Semver.inc. rewrite E. eexists. split; [reflexivity|].
    apply format_not_empty.
Qed.

Lemma inc_throws_or_returns_a_version_witness :
  NextVersion.inc (vstr "1.0") Semver.Patch = Throw TypeError
  /\ exists next,
       NextVersion.inc (vstr "1.0.0") Semver.Patch = Normal (vstr next)
       /\ next <> "".
Proof.
  split.
  - apply (proj1 (inc_throws_or_returns_a_version (vstr "1.0") Semver.Patch)).
    reflexivity.
  - apply (proj2 (inc_throws_or_returns_a_version (vstr "1.0.0")
                    Semver.Patch)).
    discriminate.
Defined.

(** A prerelease identifier made of digits that is no safe integer stays
    a string: the version parses, and the prerelease increment adds a
    counter after it. *)
Lemma large_identifier_is_kept :
  Semver.parse "1.0.0-9007199254740991"
  = Some (Semver.mkSemVer 1 0 0 [Semver.IStr "9007199254740991"] [])
  /\ NextVersion.inc (vstr "1.0.0-9007199254740991") Semver.Prerelease
     = Normal (vstr "1.0.0-9007199254740991.0")
  /\ Semver.compare "1.0.0-9007199254740992" "1.0.0-9007199254740993"
     = Normal Eq.
Proof. repeat split; reflexivity. Qed.

(** X14.  On a release or maintenance branch the calculator throws exactly when
    the last release has a version that [semver.parse] rejects; what it
    throws is a [TypeError]. *)
Theorem calculator_throws_on_invalid_last_version
  {C} (ctx : NextVersion.Context C) (error : Thrown) :
  Branch.type (NextVersion.branch ctx) <> Some BranchType.prerelease ->
  NextVersion.getNextVersion ctx = Throw error
  <-> truthy (LastRelease.version (NextVersion.lastRelease ctx)) = true
      /\ NextVersion.parseValue
           (LastRelease.version (NextVersion.lastRelease ctx)) = None
      /\ error = TypeError.
Proof.
  intros Hty. unfold NextVersion.getNextVersion.
  destruct (truthy (LastRelease.version (NextVersion.lastRelease ctx))) eqn:Et.
  - destruct (NextVersion.parseValue _) as [v|] eqn:Ep.
    + assert (Hnp : match Branch.type (NextVersion.branch ctx) with
                    | Some BranchType.prerelease => true
                    | _ => false
                    end = false).
      { destruct (Branch.type (NextVersion.branch ctx)) as [[]|];
          try reflexivity. now elim Hty. }
      rewrite Hnp.
      destruct (proj2 (inc_throws_or_returns_a_version
                         (LastRelease.version (NextVersion.lastRelease ctx))
                         (NextVersion.type (NextVersion.nextRelease ctx))))
        as (next & -> & _); [now rewrite Ep|].
      split; [discriminate|]. intros (_ & F & _). discriminate F.
    + split; [intros [= <-]; now repeat split|].
      intros (_ & _ & ->). reflexivity.
  - split; [|intros (F & _); discriminate F].
    destruct (match Branch.type (NextVersion.branch ctx) with
              | Some BranchType.prerelease => true
              | _ => false
              end); discriminate.
Qed.

Lemma calculator_throws_on_invalid_last_version_witness :
  NextVersion.getNextVersion
    (Inputs.contextOf (Inputs.branchOf "master" BranchType.release vundefined [])
       Semver.Patch vnull (Inputs.lastOf "1.0" [vnull]))
  = Throw TypeError.
Proof.
  apply (calculator_throws_on_invalid_last_version
           (Inputs.contextOf
              (Inputs.branchOf "master" BranchType.release vundefined [])
              Semver.Patch vnull (Inputs.lastOf "1.0" [vnull])) TypeError).
  - discriminate.
  - repeat split; reflexivity.
Defined.

End BumpFacts.

(* ================================================================== *)
(** * The output of git *)
(* ================================================================== *)

Module StringFacts.

Import SemverFacts.

Lemma append_nil_r s : (s ++ "")%string = s.
Proof. induction s as [|c s IH]; [reflexivity|]. cbn. now rewrite IH. Qed.

Lemma append_assoc a b c : ((a ++ b) ++ c)%string = (a ++ (b ++ c))%string.
Proof. induction a as [|x a IH]; [reflexivity|]. cbn. now rewrite IH. Qed.

Lemma trimEnd_idempotent s : Str.trimEnd (Str.trimEnd s) = Str.trimEnd s.
Proof.
  induction s as [|c s IH]; [reflexivity|]. cbn [Str.trimEnd].
  destruct (Str.trimEnd s) as [|x r] eqn:E.
  - destruct (Str.is_space c) eqn:Ec; [reflexivity|].
    cbn [Str.trimEnd]. now rewrite Ec.
  - cbn [Str.trimEnd] in *. now rewrite IH.
Qed.

Lemma trimEnd_head c r :
  Str.is_space c = false ->
  exists r', Str.trimEnd (String c r) = String c r'.
Proof.
  intros Hc. cbn [Str.trimEnd].
  destruct (Str.trimEnd r); [rewrite Hc|]; eexists; reflexivity.
Qed.

Lemma trimStart_head s :
  Str.trimStart s = ""
  \/ exists c r, Str.trimStart s = String c r /\ Str.is_space c = false.
Proof.
  induction s as [|c s IH]; [now left|]. cbn [Str.trimStart].
  destruct (Str.is_space c) eqn:E; [exact IH|].
  right. now exists c, s.
Qed.

(** [trim] leaves a trimmed string as it is. *)
Lemma trim_idempotent s : Str.trim (Str.trim s) = Str.trim s.
Proof.
  unfold Str.trim.
  destruct (trimStart_head s) as [->|(c & r & -> & Hc)]; [reflexivity|].
  destruct (trimEnd_head c r Hc) as [r' E]. rewrite E.
  cbn [Str.trimStart]. rewrite Hc, <- E. apply trimEnd_idempotent.
Qed.

Lemma trimStart_forallb p s :
  Str.forallb p s = true -> Str.forallb p (Str.trimStart s) = true.
Proof.
  induction s as [|c s IH]; [reflexivity|]. cbn [Str.trimStart].
  intros H. destruct (Str.is_space c); [|exact H].
  cbn in H. apply andb_true_iff in H as [_ H]. now apply IH.
Qed.

Lemma trimEnd_forallb p s :
  Str.forallb p s = true -> Str.forallb p (Str.trimEnd s) = true.
Proof.
  induction s as [|c s IH]; [reflexivity|]. cbn [Str.trimEnd Str.forallb].
  intros H. apply andb_true_iff in H as [Hc H]. specialize (IH H).
  destruct (Str.trimEnd s).
  - destruct (Str.is_space c); [reflexivity|]. cbn. now rewrite Hc.
  - cbn [Str.forallb]. now rewrite Hc.
Qed.

Lemma trim_forallb p s :
  Str.forallb p s = true -> Str.forallb p (Str.trim s) = true.
Proof. intros H. now apply trimEnd_forallb, trimStart_forallb. Qed.

(** No piece of a split holds the separator. *)
Lemma split_pieces sep s :
  Forall (fun x => Str.forallb (isNot sep) x = true) (Str.split sep s).
Proof.
  induction s as [|c s IH]; cbn [Str.split]; [repeat constructor|].
  destruct (c =? sep)%char eqn:E; [constructor; [reflexivity|exact IH]|].
  destruct (Str.split sep s) as [|h t].
  - constructor; [|constructor]. cbn. unfold isNot. now rewrite E.
  - inversion IH; subst. constructor; [|assumption].
    cbn. unfold isNot at 1. rewrite E. assumption.
Qed.

Lemma split_not_nil sep s : Str.split sep s <> [].
Proof.
  destruct s as [|c s]; cbn; [discriminate|].
  destruct (c =? sep)%char; [discriminate|].
  destruct (Str.split sep s); discriminate.
Qed.

(** Splitting what was joined. *)
Lemma split_concat sep l :
  l <> [] ->
  Forall (fun x => Str.forallb (isNot sep) x = true) l ->
  Str.split sep (String.concat (String sep "") l) = l.
Proof.
  induction l as [|x l IH]; [congruence|]. intros _ H.
  inversion H as [|? ? Hx Hl]; subst.
  destruct l as [|y l].
  - cbn. now apply split_absent.
  - replace (String.concat (String sep "") (x :: y :: l))
      with (x ++ String sep (String.concat (String sep "") (y :: l)))%string
      by reflexivity.
    rewrite (split_app _ _ _ Hx). f_equal. apply IH; [discriminate|exact Hl].
Qed.

Lemma stripPrefix_app p s : Str.stripPrefix p (p ++ s) = Some s.
Proof.
  induction p as [|c p IH]; [reflexivity|]. cbn. now rewrite Ascii.eqb_refl.
Qed.

Lemma stripPrefix_inv p s rest :
  Str.stripPrefix p s = Some rest -> s = (p ++ rest)%string.
Proof.
  revert s. induction p as [|c p IH]; intros s; cbn.
  - now intros [= ->].
  - destruct s as [|x s]; [discriminate|].
    destruct (c =? x)%char eqn:E; [|discriminate].
    apply Ascii.eqb_eq in E. subst. intros H. now rewrite (IH _ H).
Qed.

Lemma cut_app sep a b :
  Str.forallb (isNot sep) a = true ->
  Str.cut sep (a ++ String sep b) = (a, Some b).
Proof.
  induction a as [|c a IH]; cbn.
  - intros _. now rewrite Ascii.eqb_refl.
  - unfold isNot at 1. intros H. apply andb_true_iff in H as [Hc H].
    apply negb_true_iff in Hc. now rewrite Hc, (IH H).
Qed.

End StringFacts.

Module GitFacts.

Import SemverFacts StringFacts GitCommands.

(** ** [getTags] *)

Section Tags.

Variable gitTagMerged : string -> Completion string.

Lemma kept_lines stdout :
  Forall (fun tag => Lines.cleanLine tag)
    (List.filter (fun tag => negb (tag =? ""))
       (map Str.trim (Str.split Git.newline stdout))).
Proof.
  pose proof (split_pieces Git.newline stdout) as H.
  induction H as [|x l Hx Hl IH]; [constructor|].
  cbn [map List.filter].
  destruct (Str.trim x =? "") eqn:E; cbn [negb]; [exact IH|].
  constructor; [|exact IH]. repeat split.
  - now apply String.eqb_neq.
  - apply trim_idempotent.
  - now apply trim_forallb.
Qed.

(** X15.  [getTags] gives tags that are not empty, have no white space at
    either end and hold no newline; and when the command prints clean
    tags, one a line, [getTags] gives these tags, in order.  It throws
    what the command throws. *)
Theorem getTags_lines (branch : string) :
  (forall tags,
     Git.getTags gitTagMerged branch = Normal tags ->
     Forall Lines.cleanLine tags)
  /\ (forall tags,
        Forall Lines.cleanLine tags ->
        gitTagMerged branch
        = Normal (String.concat (String Git.newline "") tags) ->
        Git.getTags gitTagMerged branch = Normal tags)
  /\ (forall error,
        gitTagMerged branch = Throw error ->
        Git.getTags gitTagMerged branch = Throw error).
Proof.
  unfold Git.getTags. split; [|split].
  - intros tags. destruct (gitTagMerged branch) as [stdout|t]; [|discriminate].
    cbn [bindC]. intros [= <-]. apply kept_lines.
  - intros tags Hc ->. cbn [bindC]. f_equal.
    destruct tags as [|t tags]; [reflexivity|].
    rewrite split_concat; [|discriminate|].
    + induction Hc as [|x l (Hne & Ht & Hn) Hl IH]; [reflexivity|].
      cbn [map List.filter]. rewrite Ht.
      apply String.eqb_neq in Hne. rewrite Hne. cbn [negb]. now rewrite IH.
    + eapply Forall_impl; [|exact Hc]. now intros x (_ & _ & H).
  - intros error ->. reflexivity.
Qed.

End Tags.

(** A no-break space at the end of a line is white space: [trim] takes
    it away. *)
Lemma no_break_space_is_trimmed :
  Git.getTags
    (fun _ => Normal ("v1.0.0" ++ String (ascii_of_nat 160) ""
                      ++ String Git.newline "v1.1.0")%string)
    "master"
  = Normal ["v1.0.0"; "v1.1.0"].
Proof. reflexivity. Qed.

Lemma getTags_lines_witness :
  Git.getTags Outputs.tags "master" = Normal ["v1.0.0"; "v1.1.0"]
  /\ Forall Lines.cleanLine ["v1.0.0"; "v1.1.0"].
Proof.
  destruct (getTags_lines Outputs.tags "master") as (Hclean & Hround & _).
  assert (H : Git.getTags Outputs.tags "master" = Normal ["v1.0.0"; "v1.1.0"]).
  { apply Hround; [|reflexivity].
    repeat constructor; try discriminate; reflexivity. }
  split; [exact H|exact (Hclean _ H)].
Defined.

(** ** [getBranches] *)

Lemma lastHeads_app p s branch :
  lastHeads s = Some branch -> lastHeads (p ++ s) = Some branch.
Proof.
  intros H. induction p as [|c p IH]; [exact H|].
  cbn [append lastHeads]. now rewrite IH.
Qed.

Lemma lastHeads_here name :
  name <> "" -> lastHeads name = None ->
  lastHeads ("refs/heads/" ++ name) = Some name.
Proof.
  intros Hne Hnone. cbn [append].
  repeat (match goal with
          | |- lastHeads (String _ _) = _ => cbn [lastHeads]
          end).
  rewrite Hnone. cbn. destruct name; [congruence|reflexivity].
Qed.

Lemma notTerminator_newline s :
  Str.forallb (fun c => negb (GetTags.isLineTerminator c)) s = true ->
  Str.forallb (isNot Git.newline) s = true.
Proof.
  apply forallb_impl. intros c H. unfold isNot.
  destruct (c =? Git.newline)%char eqn:E; [|reflexivity].
  apply Ascii.eqb_eq in E. subst. discriminate H.
Qed.

(** A line of [git ls-remote --heads]: a sha, a tab and the ref. *)
Lemma headsBranch_ref pre name :
  pre <> "" -> name <> "" ->
  Str.forallb (fun c => negb (GetTags.isLineTerminator c)) pre = true ->
  Str.forallb (fun c => negb (GetTags.isLineTerminator c)) name = true ->
  lastHeads name = None ->
  headsBranch (pre ++ "refs/heads/" ++ name) = Some name.
Proof.
  intros Hpre Hname Hp Hn Hnone. unfold headsBranch.
  rewrite !forallb_app, Hp, Hn. cbn [Str.forallb andb].
  replace (Str.forallb (fun c => negb (GetTags.isLineTerminator c))
             "refs/heads/") with true by reflexivity.
  cbn [andb]. destruct pre as [|c pre]; [congruence|].
  cbn [append]. apply lastHeads_app. now apply lastHeads_here.
Qed.

Section Branches.

Variable gitLsRemoteHeads : string -> Completion string.

Lemma traverse_map {A B} (f : A -> option B) (g : A -> B) l :
  Forall (fun x => f x = Some (g x)) l -> Str.traverse f l = Some (map g l).
Proof.
  induction 1 as [|x l Hx Hl IH]; [reflexivity|].
  cbn. now rewrite Hx, IH.
Qed.

Lemma traverse_fails {A B} (f : A -> option B) l x :
  In x l -> f x = None -> Str.traverse f l = None.
Proof.
  induction l as [|y l IH]; [intros []|]. intros [->|Hin] Hx; cbn.
  - now rewrite Hx.
  - rewrite (IH Hin Hx). now destruct (f y).
Qed.

Lemma filter_all {A} (p : A -> bool) l :
  Forall (fun x => p x = true) l -> List.filter p l = l.
Proof.
  induction 1 as [|x l Hx Hl IH]; [reflexivity|]. cbn. now rewrite Hx, IH.
Qed.

(** X16.  When [git ls-remote --heads] prints one line for each ref, a sha, a
    tab and [refs/heads/] followed by the name, [getBranches] gives the
    names, in order; the name is what follows the last [refs/heads/] of
    the line.  A line without [/] makes it throw a [TypeError]. *)
Theorem getBranches_names (url : string) :
  (forall refs,
     Forall (fun ref => Lines.headRef (fst ref) (snd ref)) refs ->
     gitLsRemoteHeads url
     = Normal (String.concat (String Git.newline "")
                 (map (fun ref => Lines.headLine (fst ref) (snd ref)) refs)) ->
     getBranches gitLsRemoteHeads url = Normal (map snd refs))
  /\ (forall stdout line,
        gitLsRemoteHeads url = Normal stdout ->
        In line (Str.split Git.newline stdout) ->
        line <> "" ->
        Str.forallb (isNot "/") line = true ->
        getBranches gitLsRemoteHeads url = Throw TypeError).
Proof.
  unfold getBranches. split.
  - intros refs Hrefs ->. cbn [bindC].
    destruct refs as [|ref refs]; [reflexivity|].
    rewrite split_concat; [|discriminate|].
    + rewrite filter_all.
      * rewrite (traverse_map headsBranch
                   (fun line => match headsBranch line with
                                | Some b => b
                                | None => ""
                                end)).
        -- f_equal. rewrite map_map. apply map_ext_in.
           intros [sha name] Hin. rewrite Forall_forall in Hrefs.
           destruct (Hrefs _ Hin) as (Hs & Hn & Hts & Htn & Hnone).
           cbn [fst snd] in *. unfold Lines.headLine.
           rewrite <- append_assoc.
           rewrite headsBranch_ref; try assumption; try reflexivity.
           ++ destruct sha; discriminate.
           ++ rewrite forallb_app, Hts. reflexivity.
        -- apply Forall_map. eapply Forall_impl; [|exact Hrefs].
           intros [sha name] (Hs & Hn & Hts & Htn & Hnone).
           cbn [fst snd] in *. unfold Lines.headLine.
           rewrite <- append_assoc.
           rewrite headsBranch_ref; try assumption; try reflexivity.
           ++ destruct sha; discriminate.
           ++ rewrite forallb_app, Hts. reflexivity.
      * apply Forall_map. eapply Forall_impl; [|exact Hrefs].
        intros [sha name] _. cbn [fst snd]. unfold Lines.headLine.
        destruct sha; reflexivity.
    + apply Forall_map. eapply Forall_impl; [|exact Hrefs].
      intros [sha name] (Hs & Hn & Hts & Htn & Hnone). cbn [fst snd] in *.
      unfold Lines.headLine. rewrite !forallb_app.
      rewrite (notTerminator_newline _ Hts), (notTerminator_newline _ Htn).
      reflexivity.
  - intros stdout line -> Hin Hne Hslash. cbn [bindC].
    rewrite (traverse_fails headsBranch _ line); [reflexivity| |].
    + apply filter_In. split; [exact Hin|].
      apply String.eqb_neq in Hne. now rewrite Hne.
    + unfold headsBranch.
      destruct (Str.forallb (fun c => negb (GetTags.isLineTerminator c)) line);
        [|reflexivity].
      destruct line as [|c r]; [reflexivity|].
      cbn in Hslash. apply andb_true_iff in Hslash as [_ Hslash].
      clear Hin Hne. induction r as [|x r IH]; [reflexivity|].
      cbn [lastHeads]. cbn in Hslash.
      apply andb_true_iff in Hslash as [Hx Hslash]. rewrite (IH Hslash).
      destruct (Str.stripPrefix "refs/heads/" (String x r)) as [[|? ?]|] eqn:E;
        try reflexivity.
      exfalso. apply stripPrefix_inv in E.
      assert (Hall : Str.forallb (isNot "/") (String x r) = true)
        by (cbn; now rewrite Hx, Hslash).
      rewrite E in Hall. cbn in Hall. discriminate Hall.
Qed.

End Branches.

Lemma getBranches_names_witness :
  getBranches Outputs.heads "origin" = Normal ["master"; "feature/login"].
Proof.
  apply (proj1 (getBranches_names Outputs.heads "origin") Outputs.refs);
    [|reflexivity].
  repeat constructor; try discriminate; reflexivity.
Defined.

(** ** [isBranchUpToDate] *)

Lemma leadingWord_app word rest :
  Str.forallb isWord word = true ->
  leadingWord rest = "" ->
  leadingWord (word ++ rest) = word.
Proof.
  intros Hw Hr. induction word as [|c word IH]; [exact Hr|].
  cbn in Hw. apply andb_true_iff in Hw as [Hc Hw].
  cbn [append leadingWord]. now rewrite Hc, (IH Hw).
Qed.

Section UpToDate.

Variable gitLsRemoteHead : string -> string -> Completion string.
Variable gitRevParseHead : Completion string.

(** X17.  With the head of the local branch at [head]: when the remote has no
    such branch (the command prints nothing) the branch is not up to
    date; and when the command prints a line that starts with a sha, the
    branch is up to date exactly when [head] is that sha. *)
Theorem isBranchUpToDate_compares_shas (url branch head : string) :
  gitRevParseHead = Normal head ->
  (gitLsRemoteHead url branch = Normal "" ->
   isBranchUpToDate gitLsRemoteHead gitRevParseHead url branch = Normal false)
  /\ (forall sha rest,
        sha <> "" ->
        Str.forallb isWord sha = true ->
        leadingWord rest = "" ->
        gitLsRemoteHead url branch = Normal (sha ++ rest)%string ->
        isBranchUpToDate gitLsRemoteHead gitRevParseHead url branch
        = Normal (head =? sha)).
Proof.
  intros Hhead. unfold isBranchUpToDate, getGitHead. rewrite Hhead.
  cbn [bindC]. split.
  - intros ->. reflexivity.
  - intros sha rest Hne Hw Hr ->. cbn [bindC]. unfold remoteRef.
    rewrite (leadingWord_app _ _ Hw Hr).
    destruct sha; [congruence|reflexivity].
Qed.

End UpToDate.

Lemma isBranchUpToDate_compares_shas_witness :
  isBranchUpToDate Outputs.head (Normal "abc123") "origin" "master"
  = Normal true.
Proof.
  apply (proj2 (isBranchUpToDate_compares_shas Outputs.head (Normal "abc123")
                  "origin" "master" "abc123" eq_refl)
           "abc123"
           (String (ascii_of_nat 9) "" ++ "refs/heads/" ++ "master")%string);
    try reflexivity.
  discriminate.
Defined.

(** ** The note that [addNote] writes, read by [getNote] *)

Section WrittenNotes.

Variable JSON_parse : string -> option Json.t.
Variable JSON_stringify : Json.t -> string.
Hypothesis parse_empty : JSON_parse "{}" = Some (Json.JObj []).

Lemma append_dash_differs ref :
  (Git.GIT_NOTE_REF =? Git.GIT_NOTE_REF ++ "-" ++ ref)%string = false.
Proof. reflexivity. Qed.

Lemma mergeElements_fresh channels :
  forallb Terms.isPrimitive channels = true ->
  Json.mergeElements [] channels = Some channels.
Proof.
  intros H. rewrite (NotesFacts.mergeElements_primitives _ _ H).
  destruct (length channels); cbn [skipn]; now rewrite List.app_nil_r.
Qed.

(** X18.  After [addNote({ channels }, ref)] on a tag without legacy note,
    [getNote(ref)] gives the note written, and the tag resolver reads
    the channels written: [addNote] and [getNote] use the same notes
    ref. *)
Theorem written_channels_are_read
  (notes : Notes) (ref : string) (channels : list Json.t) :
  JSON_parse (JSON_stringify (channelsNote channels))
  = Some (channelsNote channels) ->
  forallb Terms.isPrimitive channels = true ->
  notes Git.GIT_NOTE_REF ref = None ->
  let written := addNote JSON_stringify (channelsNote channels) ref notes in
  Git.getNote (gitNotesShow written) JSON_parse ref
  = Normal (Some (channelsNote channels))
  /\ GetTags.channelsOf (channelsNote channels) = Json.JArr channels.
Proof.
  intros Hround Hprim Hlegacy written. split; [|reflexivity].
  assert (Hl : Git.readNote (gitNotesShow written) JSON_parse
                 Git.GIT_NOTE_REF ref = Normal (Json.JObj [])).
  { apply (NotesFacts.readNote_missing _ _ parse_empty _ _ (Terms.exited 1));
      [|reflexivity].
    unfold gitNotesShow, written, addNote, gitNotesAdd.
    rewrite append_dash_differs. cbn [andb]. now rewrite Hlegacy. }
  assert (Hc : Git.readNote (gitNotesShow written) JSON_parse
                 (Git.GIT_NOTE_REF ++ "-" ++ ref)%string ref
               = Normal (channelsNote channels)).
  { rewrite (NotesFacts.readNote_shown _ _ _ _
               (JSON_stringify (channelsNote channels))).
    - unfold Git.parseJSON. now rewrite Hround.
    - unfold gitNotesShow, written, addNote, gitNotesAdd.
      now rewrite !String.eqb_refl. }
  rewrite (NotesFacts.getNote_merge _ _ _ _ _ Hl Hc).
  unfold channelsNote. cbn [Json.merge Json.mergeFields Json.lookup].
  replace ("channels" =? "__proto__") with false by reflexivity.
  rewrite NotesFacts.mergeValue_array. cbn [option_map].
  now rewrite (mergeElements_fresh _ Hprim).
Qed.

(** A note written for one tag leaves the notes of every other tag as
    they were. *)
Lemma addNote_other notes ref note notesRef other :
  other <> ref ->
  gitNotesShow (addNote JSON_stringify note ref notes) notesRef other
  = gitNotesShow notes notesRef other.
Proof.
  intros H. unfold gitNotesShow, addNote, gitNotesAdd.
  apply String.eqb_neq in H. now rewrite H, andb_false_r.
Qed.

End WrittenNotes.

Lemma written_channels_are_read_witness :
  Git.getNote
    (gitNotesShow
       (addNote Outputs.printChannels (channelsNote [Json.JStr "b"]) "v1.0.0"
          Outputs.noNotes))
    Inputs.parseNote "v1.0.0"
  = Normal (Some (channelsNote [Json.JStr "b"]))
  /\ GetTags.channelsOf (channelsNote [Json.JStr "b"])
     = Json.JArr [Json.JStr "b"].
Proof.
  exact (written_channels_are_read Inputs.parseNote Outputs.printChannels
           eq_refl Outputs.noNotes "v1.0.0" [Json.JStr "b"]
           eq_refl eq_refl eq_refl).
Defined.

(** ** What [getNote] throws *)

Section NoteErrors.

Variable gitNotesShow : string -> string -> Completion string.
Variable JSON_parse : string -> option Json.t.
Hypothesis parse_empty : JSON_parse "{}" = Some (Json.JObj []).

(** X19.  [getNote] never throws an error of exit code 1; it gives the empty
    object when neither note exists; it throws a [SyntaxError] when the
    legacy note is no JSON text, and the error of the command when the
    command fails with another exit code. *)
Theorem getNote_failures (ref : string) :
  (forall error,
     Git.getNote gitNotesShow JSON_parse ref = Throw error ->
     Git.exitCodeIs1 error = false)
  /\ (forall missing missing',
        Git.exitCodeIs1 missing = true ->
        Git.exitCodeIs1 missing' = true ->
        gitNotesShow Git.GIT_NOTE_REF ref = Throw missing ->
        gitNotesShow (Git.GIT_NOTE_REF ++ "-" ++ ref)%string ref
        = Throw missing' ->
        Git.getNote gitNotesShow JSON_parse ref
        = Normal (Some (Json.JObj [])))
  /\ (forall text,
        gitNotesShow Git.GIT_NOTE_REF ref = Normal text ->
        JSON_parse text = None ->
        Git.getNote gitNotesShow JSON_parse ref = Throw SyntaxError)
  /\ (forall error,
        Git.exitCodeIs1 error = false ->
        gitNotesShow Git.GIT_NOTE_REF ref = Throw error ->
        Git.getNote gitNotesShow JSON_parse ref = Throw error).
Proof.
  split; [|split; [|split]].
  - intros error. unfold Git.getNote.
    match goal with
    | |- match ?body with _ => _ end = _ -> _ => destruct body as [note|t]
    end; [discriminate|].
    destruct (Git.exitCodeIs1 t) eqn:E; [discriminate|].
    now intros [= <-].
  - intros missing missing' H1 H1' Hl Hc.
    rewrite (NotesFacts.getNote_merge gitNotesShow JSON_parse ref
               (Json.JObj []) (Json.JObj [])); [reflexivity| |].
    + exact (NotesFacts.readNote_missing _ _ parse_empty _ _ _ Hl H1).
    + exact (NotesFacts.readNote_missing _ _ parse_empty _ _ _ Hc H1').
  - intros text Hl Hp. unfold Git.getNote, Git.readNote, Git.showNote.
    rewrite Hl. cbn [bindC]. unfold Git.parseJSON. rewrite Hp. reflexivity.
  - intros error He Hl. unfold Git.getNote.
    rewrite (NotesFacts.readNote_failed _ _ _ _ _ Hl He). cbn [bindC].
    now rewrite He.
Qed.

End NoteErrors.

Lemma getNote_failures_witness :
  Git.getNote Inputs.notesShow Inputs.parseNote "v3.0.0"
  = Normal (Some (Json.JObj [])).
Proof.
  destruct (getNote_failures Inputs.notesShow Inputs.parseNote eq_refl
              "v3.0.0") as (_ & Hmissing & _).
  apply (Hmissing (Terms.exited 1) (Terms.exited 1)); reflexivity.
Defined.

End GitFacts.

(* ================================================================== *)
(** * The expansion of the branches *)
(* ================================================================== *)

Module ExpandFacts.

Import Expand.

Lemma includes_iff name list : includes name list = true <-> In name list.
Proof.
  unfold includes. rewrite existsb_exists. split.
  - intros (x & Hin & E). apply String.eqb_eq in E. now subst.
  - intros H. exists name. split; [exact H|apply String.eqb_refl].
Qed.

Lemma partition_by_filter {A} (f : A -> bool) l :
  List.partition f l = (List.filter f l, List.filter (fun x => negb (f x)) l).
Proof.
  induction l as [|x l IH]; [reflexivity|]. cbn. rewrite IH.
  now destruct (f x).
Qed.

Section Expansion.

Variable micromatch : list string -> string -> list string.
Variable template : string -> string -> string.

Lemma names_instantiate branch names :
  map name (map (instantiate template branch) names) = names.
Proof. rewrite map_map. cbn. apply map_id. Qed.

Lemma expandFrom_names branches :
  forall gitBranches,
    NoDup gitBranches ->
    NoDup (map name (expandFrom micromatch template gitBranches branches))
    /\ incl (map name (expandFrom micromatch template gitBranches branches))
         gitBranches.
Proof.
  induction branches as [|b rest IH]; intros git Hnd;
    [split; [constructor|intros x []]|].
  cbn [expandFrom]. unfold remove. rewrite partition_by_filter.
  set (claimed := fun n => includes n (micromatch git (name b))).
  rewrite map_app, names_instantiate.
  destruct (IH (List.filter (fun x => negb (claimed x)) git)
              (NoDup_filter _ Hnd)) as [Hr Hi].
  split.
  - apply NoDup_app; [now apply NoDup_filter|exact Hr|].
    intros x Hx Hx'. apply Hi in Hx'.
    apply filter_In in Hx as [_ Hx]. apply filter_In in Hx' as [_ Hx'].
    rewrite Hx in Hx'. discriminate.
  - intros x Hx. apply in_app_or in Hx as [Hx|Hx].
    + now apply filter_In in Hx as [Hx _].
    + apply Hi in Hx. now apply filter_In in Hx as [Hx _].
Qed.

Lemma candidates_NoDup gitBranches publishOnPr ciBranch :
  NoDup gitBranches -> NoDup (candidates gitBranches publishOnPr ciBranch).
Proof.
  intros H. unfold candidates.
  destruct publishOnPr; cbn [andb]; [|exact H].
  destruct (includes ciBranch gitBranches) eqn:E; cbn [negb]; [exact H|].
  apply NoDup_app; [exact H|repeat constructor; intros []|].
  intros x Hx [<-|[]]. apply includes_iff in Hx. congruence.
Qed.

Lemma candidates_incl gitBranches publishOnPr ciBranch name :
  In name (candidates gitBranches publishOnPr ciBranch) ->
  In name gitBranches \/ (publishOnPr = true /\ name = ciBranch).
Proof.
  unfold candidates. destruct publishOnPr; cbn [andb]; [|now left].
  destruct (includes ciBranch gitBranches); cbn [negb]; [now left|].
  intros H. apply in_app_or in H as [H|[<-|[]]]; [now left|now right].
Qed.

(** X20.  When the remote lists no branch twice, no two expanded branches have
    the same name: a git branch that a pattern has matched is out of
    reach of the patterns that follow.  Every expanded branch has the
    name of a git branch, or of the branch of the CI when [publishOnPr]
    is set. *)
Theorem expanded_names_are_distinct
  (getBranches : Completion (list string)) (publishOnPr : bool)
  (ciBranch : string) (branches : list ConfigBranch)
  (gitBranches : list string) :
  getBranches = Normal gitBranches ->
  NoDup gitBranches ->
  exists expanded,
    expand micromatch template getBranches publishOnPr ciBranch branches
    = Normal expanded
    /\ NoDup (map name expanded)
    /\ forall b,
         In b expanded ->
         In (name b) gitBranches
         \/ (publishOnPr = true /\ name b = ciBranch).
Proof.
  intros -> Hnd. unfold expand. cbn [bindC]. eexists. split; [reflexivity|].
  destruct (expandFrom_names branches _
              (candidates_NoDup _ publishOnPr ciBranch Hnd)) as [Hr Hi].
  split; [exact Hr|]. intros b Hb.
  apply (candidates_incl _ _ _ (name b)), Hi. now apply in_map.
Qed.

(** ** The first pattern that matches *)

Variable matches : string -> string -> bool.
Hypothesis micromatch_filters :
  forall list pattern,
    micromatch list pattern = List.filter (matches pattern) list.

Lemma remove_matches gitBranches pattern :
  remove micromatch gitBranches pattern
  = (List.filter (matches pattern) gitBranches,
     List.filter (fun n => negb (matches pattern n)) gitBranches).
Proof.
  unfold remove. rewrite partition_by_filter, micromatch_filters.
  f_equal; apply filter_ext_in; intros n Hn.
  - destruct (matches pattern n) eqn:E.
    + apply includes_iff, filter_In. now split.
    + destruct (includes n _) eqn:Ei; [|reflexivity].
      apply includes_iff, filter_In in Ei as [_ Ei]. congruence.
  - f_equal. destruct (matches pattern n) eqn:E.
    + apply includes_iff, filter_In. now split.
    + destruct (includes n _) eqn:Ei; [|reflexivity].
      apply includes_iff, filter_In in Ei as [_ Ei]. congruence.
Qed.

(** A git branch that the pattern of a configured branch matches, and
    that no pattern before it matches, is expanded by that branch. *)
Lemma expandFrom_claims before :
  forall gitBranches b after n,
    In n gitBranches ->
    matches (name b) n = true ->
    (forall b', In b' before -> matches (name b') n = false) ->
    In (instantiate template b n)
       (expandFrom micromatch template gitBranches (before ++ b :: after)).
Proof.
  induction before as [|b0 before IH]; intros git b after n Hn Hm Hb;
    cbn [app expandFrom]; rewrite remove_matches; apply in_or_app.
  - left. apply in_map, filter_In. now split.
  - right. apply IH; [|exact Hm|intros b' Hin; apply Hb; now right].
    apply filter_In. split; [exact Hn|]. apply negb_true_iff.
    apply Hb. now left.
Qed.

(** X21.  When [micromatch] selects the names that a pattern matches, a git
    branch is expanded by the first configured branch whose pattern
    matches its name, and by no other: the expanded branches are the
    instances of a configured branch at a git branch that its pattern
    matches and that no pattern before it matches. *)
Theorem first_pattern_wins
  (gitBranches : list string) (branches : list ConfigBranch)
  (x : ConfigBranch) :
  In x (expandFrom micromatch template gitBranches branches)
  <-> exists before b after n,
        branches = before ++ b :: after
        /\ x = instantiate template b n
        /\ In n gitBranches
        /\ matches (name b) n = true
        /\ forall b', In b' before -> matches (name b') n = false.
Proof.
  split.
  - revert gitBranches.
    induction branches as [|b0 rest IH]; intros git; [intros []|].
    cbn [expandFrom]. rewrite remove_matches. intros H.
    apply in_app_or in H as [H|H].
    + apply in_map_iff in H as (n & <- & Hn).
      apply filter_In in Hn as [Hn Hm].
      exists [], b0, rest, n. repeat split; auto. intros b' [].
    + destruct (IH _ H) as (before & b & after & n & -> & -> & Hn & Hm & Hb).
      apply filter_In in Hn as [Hn Hm0]. apply negb_true_iff in Hm0.
      exists (b0 :: before), b, after, n. repeat split; auto.
      intros b' [<-|Hin]; auto.
  - intros (before & b & after & n & -> & -> & Hn & Hm & Hb).
    now apply expandFrom_claims.
Qed.

(** X22.  With [publishOnPr], the branch of the CI is expanded when a pattern
    matches it, whether the remote lists it or not. *)
Theorem ci_branch_is_expanded
  (getBranches : Completion (list string)) (ciBranch : string)
  (branches : list ConfigBranch) (gitBranches : list string)
  (b : ConfigBranch) :
  getBranches = Normal gitBranches ->
  In b branches ->
  matches (name b) ciBranch = true ->
  exists expanded x,
    expand micromatch template getBranches true ciBranch branches
    = Normal expanded
    /\ In x expanded /\ name x = ciBranch.
Proof.
  intros -> Hb Hm. unfold expand. cbn [bindC].
  eexists. 
  assert (Hci : In ciBranch (candidates gitBranches true ciBranch)).
  { unfold candidates. cbn [andb].
    destruct (includes ciBranch gitBranches) eqn:E; cbn [negb].
    - now apply includes_iff.
    - apply in_or_app. right. now left. }
  (* the first configured branch whose pattern matches *)
  assert (Hfirst : exists before b1 after,
             branches = before ++ b1 :: after
             /\ matches (name b1) ciBranch = true
             /\ forall b', In b' before -> matches (name b') ciBranch = false).
  { clear Hci. induction branches as [|b0 rest IH]; [destruct Hb|].
    destruct (matches (name b0) ciBranch) eqn:E0.
    - exists [], b0, rest. repeat split; auto. intros b' [].
    - destruct Hb as [->|Hb]; [congruence|].
      destruct (IH Hb) as (before & b1 & after & -> & H1 & Hbefore).
      exists (b0 :: before), b1, after. repeat split; auto.
      intros b' [<-|Hin]; auto. }
  destruct Hfirst as (before & b1 & after & E & H1 & Hbefore).
  exists (instantiate template b1 ciBranch).
  split; [reflexivity|]. split; [|reflexivity].
  rewrite E. now apply expandFrom_claims.
Qed.

End Expansion.

Lemma expanded_names_are_distinct_witness :
  exists expanded,
    expand Outputs.select Outputs.constant (Normal ["master"; "next"; "dev"])
      false "master" Outputs.configured = Normal expanded
    /\ NoDup (map name expanded)
    /\ forall b,
         In b expanded ->
         In (name b) ["master"; "next"; "dev"]
         \/ (false = true /\ name b = "master").
Proof.
  apply (expanded_names_are_distinct Outputs.select Outputs.constant
           (Normal ["master"; "next"; "dev"]) false "master"
           Outputs.configured ["master"; "next"; "dev"] eq_refl).
  repeat constructor; cbn; intuition discriminate.
Defined.

Lemma first_pattern_wins_witness :
  In (instantiate Outputs.constant
        (mkConfigBranch "next" [("channel", vstr "next")]) "next")
     (expandFrom Outputs.select Outputs.constant ["master"; "next"; "dev"]
        Outputs.configured).
Proof.
  apply (first_pattern_wins Outputs.select Outputs.constant Outputs.literally
           (fun _ _ => eq_refl) ["master"; "next"; "dev"] Outputs.configured).
  exists [mkConfigBranch "master" []],
    (mkConfigBranch "next" [("channel", vstr "next")]), [], "next".
  repeat split; [cbn; tauto|].
  intros b' [<-|[]]. reflexivity.
Defined.

Lemma ci_branch_is_expanded_witness :
  exists expanded x,
    expand Outputs.select Outputs.constant (Normal ["master"]) true "next"
      Outputs.configured = Normal expanded
    /\ In x expanded /\ name x = "next".
Proof.
  apply (ci_branch_is_expanded Outputs.select Outputs.constant
           Outputs.literally (fun _ _ => eq_refl) (Normal ["master"]) "next"
           Outputs.configured ["master"]
           (mkConfigBranch "next" [("channel", vstr "next")]) eq_refl);
    [cbn; tauto|reflexivity].
Defined.

End ExpandFacts.

(* ================================================================== *)
(** * Tag formats and pull-request refs *)
(* ================================================================== *)

Module TagFormatFacts.

Import SemverFacts StringFacts GetTags.

Lemma startsWith_app p s : startsWith p (p ++ s) = true.
Proof. unfold startsWith. now rewrite stripPrefix_app. Qed.

(** What [capture] gives leaves room for the text that follows it. *)
Lemma capture_length post s v :
  capture post s = Some v ->
  (String.length v + String.length post <= String.length s)%nat
  /\ (0 < String.length v)%nat.
Proof.
  revert v. induction s as [|c s IH]; intros v; cbn [capture];
    [discriminate|].
  destruct (isLineTerminator c); [discriminate|].
  destruct (capture post s) as [x|] eqn:E.
  - intros [= <-]. destruct (IH _ eq_refl) as [H1 H2]. cbn. lia.
  - unfold startsWith.
    destruct (Str.stripPrefix post s) as [rest|] eqn:Es; [|discriminate].
    intros [= <-]. apply stripPrefix_inv in Es. subst s.
    cbn [String.length]. rewrite length_app. lia.
Qed.

Lemma capture_exact post version :
  version <> "" ->
  Str.forallb (fun c => negb (isLineTerminator c)) version = true ->
  capture post (version ++ post) = Some version.
Proof.
  induction version as [|c v IH]; [congruence|]. intros _ H.
  cbn in H. apply andb_true_iff in H as [Hc Hv].
  apply negb_true_iff in Hc. cbn [append capture]. rewrite Hc.
  destruct v as [|x v].
  - cbn [append].
    destruct (capture post post) as [y|] eqn:E.
    + destruct (capture_length _ _ _ E). lia.
    + replace (startsWith post post) with true; [reflexivity|].
      symmetry. rewrite <- (append_nil_r post) at 2. apply startsWith_app.
  - rewrite IH; [reflexivity|discriminate|exact Hv].
Qed.

(** X23.  The tag made from a version by a tag format with one [${version}],
    [prefix] before it (without space) and [suffix] after it, is matched
    by the expression derived from the format, which captures the
    version; so the resolver keeps the tag of every valid version. *)
Theorem tag_of_version_is_kept (prefix suffix version : string) :
  Str.forallb (isNot " ") prefix = true ->
  version <> "" ->
  Str.forallb (fun c => negb (isLineTerminator c)) version = true ->
  matchVersion (prefix ++ " " ++ suffix) (prefix ++ version ++ suffix)
  = Some version
  /\ (Semver.clean version <> None ->
      keeps (prefix ++ " " ++ suffix) (prefix ++ version ++ suffix)
      = Some version).
Proof.
  intros Hp Hne Hv.
  assert (Hm : matchVersion (prefix ++ " " ++ suffix)
                 (prefix ++ version ++ suffix) = Some version).
  { unfold matchVersion.
    change (prefix ++ " " ++ suffix)%string
      with (prefix ++ String " " suffix)%string.
    rewrite (cut_app _ _ _ Hp), stripPrefix_app.
    now apply capture_exact. }
  split; [exact Hm|]. intros Hc.
  apply TagsFacts.keeps_iff. now split.
Qed.

Lemma tag_of_version_is_kept_witness :
  matchVersion ("v" ++ " " ++ "") ("v" ++ "1.0.0" ++ "") = Some "1.0.0"
  /\ keeps ("v" ++ " " ++ "") ("v" ++ "1.0.0" ++ "") = Some "1.0.0".
Proof.
  destruct (tag_of_version_is_kept "v" "" "1.0.0" eq_refl
              ltac:(discriminate) eq_refl) as [Hm Hk].
  split; [exact Hm|]. apply Hk. discriminate.
Defined.

(** ** Pull-request refs *)

Lemma dropDigits_app digits rest :
  Str.forallb Str.is_digit digits = true ->
  dropDigits (digits ++ "/" ++ rest) = ("/" ++ rest)%string.
Proof.
  induction digits as [|d digits IH]; [reflexivity|]. cbn [Str.forallb].
  intros H. apply andb_true_iff in H as [Hd H].
  cbn [append dropDigits]. rewrite Hd. now apply IH.
Qed.

Lemma pullRefHere_merge digits rest :
  digits <> "" ->
  Str.forallb Str.is_digit digits = true ->
  pullRefHere ("refs/pull/" ++ digits ++ "/merge" ++ rest) = true.
Proof.
  intros Hne Hd. unfold pullRefHere. rewrite stripPrefix_app.
  destruct digits as [|d digits]; [congruence|].
  cbn [Str.forallb] in Hd. apply andb_true_iff in Hd as [Hd Hds].
  cbn [append]. rewrite Hd. cbn [andb].
  change (String "/" (String "m" (String "e" (String "r" (String "g"
            (String "e" rest))))))
    with ("/" ++ "merge" ++ rest)%string.
  rewrite (dropDigits_app _ _ Hds).
  change ("/" ++ "merge" ++ rest)%string with ("/merge" ++ rest)%string.
  apply startsWith_app.
Qed.

Lemma isPullRef_merge before digits rest :
  digits <> "" ->
  Str.forallb Str.is_digit digits = true ->
  isPullRef (before ++ "refs/pull/" ++ digits ++ "/merge" ++ rest) = true.
Proof.
  intros Hne Hd. induction before as [|c before IH].
  - pose proof (pullRefHere_merge digits rest Hne Hd) as H.
    cbn [append] in *. cbn [isPullRef]. now rewrite H.
  - change (isPullRef (String c before ++ "refs/pull/" ++ digits
                       ++ "/merge" ++ rest))
      with (pullRefHere (String c before ++ "refs/pull/" ++ digits
                         ++ "/merge" ++ rest)
            || isPullRef (before ++ "refs/pull/" ++ digits ++ "/merge"
                          ++ rest)).
    rewrite IH. apply orb_true_r.
Qed.

(** X24.  For a branch whose name holds [refs/pull/<number>/merge], the tags
    are those that [git tag --merged HEAD] lists, not those of the ref:
    what the command would answer for any other argument plays no part. *)
Theorem pull_request_tags_come_from_head
  (gitTagMerged gitTagMerged' : string -> Completion string)
  (gitNotesShow : string -> string -> Completion string)
  (JSON_parse : string -> option Json.t) (rendered : string)
  {C : Type} (b : Branch.t C) (before digits rest : string) :
  Branch.name b = (before ++ "refs/pull/" ++ digits ++ "/merge" ++ rest)%string ->
  digits <> "" ->
  Str.forallb Str.is_digit digits = true ->
  gitTagMerged' "HEAD" = gitTagMerged "HEAD" ->
  getTags gitTagMerged' gitNotesShow JSON_parse rendered [] [b]
  = getTags gitTagMerged gitNotesShow JSON_parse rendered [] [b].
Proof.
  intros Hname Hne Hd Hhead. cbn [getTags].
  rewrite Hname, (isPullRef_merge _ _ _ Hne Hd).
  unfold Git.getTags. now rewrite Hhead.
Qed.

Lemma pull_request_tags_come_from_head_witness :
  getTags (fun ref => if (ref =? "HEAD")%string then Outputs.tags ref
                      else Throw TypeError)
    Inputs.notesShow Inputs.parseNote "v " []
    [Inputs.branchOf "refs/pull/12/merge" BranchType.release vundefined []]
  = getTags Outputs.tags Inputs.notesShow Inputs.parseNote "v " []
      [Inputs.branchOf "refs/pull/12/merge" BranchType.release vundefined []].
Proof.
  apply (pull_request_tags_come_from_head Outputs.tags
           (fun ref => if (ref =? "HEAD")%string then Outputs.tags ref
                       else Throw TypeError)
           Inputs.notesShow Inputs.parseNote "v "
           (Inputs.branchOf "refs/pull/12/merge" BranchType.release
              vundefined [])
           "" "12" ""); try reflexivity.
  discriminate.
Defined.

End TagFormatFacts.

(* ================================================================== *)
(** * The identifier of a prerelease branch *)
(* ================================================================== *)

Module IdentifierFacts.

Import SemverFacts StringFacts.

Lemma trimEnd_last s c :
  Str.is_space c = false ->
  Str.trimEnd (s ++ String c "") = (s ++ String c "")%string.
Proof.
  intros Hc. induction s as [|x s IH]; cbn [append Str.trimEnd].
  - now rewrite Hc.
  - rewrite IH. destruct s; reflexivity.
Qed.

Lemma trim_ends a s c :
  Str.is_space a = false -> Str.is_space c = false ->
  Str.trim (String a (s ++ String c "")) = String a (s ++ String c "").
Proof.
  intros Ha Hc. unfold Str.trim. cbn [Str.trimStart]. rewrite Ha.
  change (String a (s ++ String c "")) with (String a s ++ String c "")%string.
  now apply trimEnd_last.
Qed.

(** The text [1.0.0-id.1] that the validator hands to [semver.valid],
    cut in its parts. *)
Lemma parse_candidate id :
  Str.forallb (isNot "+") id = true ->
  Str.forallb (isNot ".") id = true ->
  (String.length id <= 248)%nat ->
  Semver.parse ("1.0.0" ++ "-" ++ id ++ "." ++ "1")
  = match Semver.prereleaseIdentifier id with
    | Some i => Some (Semver.mkSemVer 1 0 0 [i; Semver.INum 1] [])
    | None => None
    end.
Proof.
  intros Hplus Hdot Hlen. unfold Semver.parse.
  replace (Semver.MAX_LENGTH <? _)%nat with false.
  2:{ symmetry. apply Nat.ltb_ge. cbn [append String.length].
      rewrite length_app. cbn [String.length]. unfold Semver.MAX_LENGTH. lia. }
  assert (Et : ("1.0.0" ++ "-" ++ id ++ "." ++ "1")%string
               = String "1" ((".0.0-" ++ id ++ ".") ++ String "1" "")).
  { cbn [append]. now rewrite append_assoc. }
  rewrite Et, trim_ends by reflexivity. rewrite <- Et.
  cbn [append Str.stripPrefix]. 
  replace ("v" =? "1")%char with false by reflexivity.
  change (String "1" (String "." (String "0" (String "." (String "0"
            (String "-" (id ++ String "." "1")))))))
    with ("1.0.0-" ++ id ++ ".1")%string.
  rewrite (cut_absent "+").
  2:{ rewrite !forallb_app, Hplus. reflexivity. }
  change ("1.0.0-" ++ id ++ ".1")%string
    with ("1.0.0" ++ String "-" (id ++ ".1"))%string.
  rewrite (cut_app "-") by reflexivity.
  cbn [Str.split]. 
  replace (Str.split "." "1.0.0") with ["1"; "0"; "0"] by reflexivity.
  replace (Semver.mainIdentifier "1") with (Some 1%N) by reflexivity.
  replace (Semver.mainIdentifier "0") with (Some 0%N) by reflexivity.
  unfold Semver.optionalPart.
  change (id ++ ".1")%string with (id ++ String "." "1")%string.
  rewrite (split_app _ _ _ Hdot). 
  replace (Str.split "." "1") with ["1"] by reflexivity.
  cbn [Str.traverse].
  replace (Semver.prereleaseIdentifier "1") with (Some (Semver.INum 1))
    by reflexivity.
  destruct (Semver.prereleaseIdentifier id); reflexivity.
Qed.

Lemma uint_of_digits s :
  Str.forallb Str.is_digit s = true -> NilEmpty.uint_of_string s <> None.
Proof.
  induction s as [|c s IH]; cbn [Str.forallb NilEmpty.uint_of_string];
    [discriminate|].
  intros H. apply andb_true_iff in H as [Hc Hs]. specialize (IH Hs).
  destruct (NilEmpty.uint_of_string s) as [d|]; [|now elim IH].
  destruct c as [[] [] [] [] [] [] [] []]; try discriminate Hc; discriminate.
Qed.

Lemma digit_letterdashnumber c :
  Str.is_digit c = true -> Str.is_letterdashnumber c = true.
Proof. intros H. unfold Str.is_letterdashnumber. now rewrite H. Qed.

(** What [semver] takes for a prerelease identifier, whatever its size. *)
Lemma prereleaseIdentifier_accepts id :
  match Semver.prereleaseIdentifier id with
  | Some _ => true
  | None => false
  end = Bumps.isIdentifier id.
Proof.
  unfold Bumps.isIdentifier, Semver.prereleaseIdentifier.
  destruct id as [|c r]; [reflexivity|].
  set (s := String c r).
  replace (s =? "") with false by reflexivity. cbn [negb andb].
  destruct (Str.forallb Str.is_digit s) eqn:Ed.
  - rewrite (forallb_impl _ _ _ digit_letterdashnumber Ed). cbn [andb].
    unfold Semver.numericIdentifier.
    replace (s =? "") with false by reflexivity. cbn [orb].
    destruct (Semver.leadingZero s); [reflexivity|].
    pose proof (uint_of_digits s Ed) as Hu.
    destruct (NilEmpty.uint_of_string s); [|now elim Hu].
    now destruct (_ <? _)%N.
  - cbn [andb negb]. rewrite andb_true_r.
    now destruct (Str.forallb Str.is_letterdashnumber s).
Qed.

(** X25.  With the default first release and identifier base, the validator of
    a prerelease branch accepts an identifier without [.] and [+] -- the
    [prerelease] of the branch, or its name when [prerelease] is [true]
    -- exactly when it is a semver prerelease identifier: not empty and
    made of letters, digits and [-], without leading zero when it is made
    of digits only, however large the number. *)
Theorem prerelease_identifier_is_validated
  {C} (isMaintenanceRange : Value -> bool)
  (validRange : Value -> option string) (b : Branch.t C) (id : string) :
  Branch.prerelease b = vstr id
  \/ (Branch.prerelease b = vbool true /\ Branch.name b = id) ->
  Str.forallb (isNot "+") id = true ->
  Str.forallb (isNot ".") id = true ->
  (String.length id <= 248)%nat ->
  Branches.branchPasses isMaintenanceRange validRange None
    BranchType.prerelease b
  = Bumps.isIdentifier id.
Proof.
  intros Hid Hplus Hdot Hlen.
  rewrite <- prereleaseIdentifier_accepts.
  unfold Branches.branchPasses.
  cbn [Branches.definitionOf Branches.prerelease Branches.branchValidator
       orDefault Options.respectPackageJsonVersion Options.firstRelease
       Options.prereleaseIdentifierBase truthy template].
  unfold NextVersion.DEFAULT_FIRST_RELEASE,
    NextVersion.DEFAULT_PRERELEASE_IDENTIFIER_BASE.
  assert (Hvalid :
            match Semver.valid ("1.0.0" ++ "-" ++ id ++ "." ++ "1") with
            | Some v => negb (v =? "")
            | None => false
            end
            = match Semver.prereleaseIdentifier id with
              | Some _ => true
              | None => false
              end).
  { unfold Semver.valid. rewrite (parse_candidate _ Hplus Hdot Hlen).
    destruct (Semver.prereleaseIdentifier id); [|reflexivity].
    apply negb_true_iff, String.eqb_neq, BumpFacts.format_not_empty. }
  destruct Hid as [Hp|[Hp Hn]]; rewrite Hp; cbn [strictEq truthy template].
  - rewrite Hvalid. destruct id; reflexivity.
  - rewrite Hn. exact Hvalid.
Qed.

Lemma prerelease_identifier_is_validated_witness :
  Branches.branchPasses Branches.isMaintenanceRange Inputs.validRangeOf None
    BranchType.prerelease
    (Inputs.branchOf "rc" BranchType.prerelease (vstr "rc_1") [])
  = false
  /\ Branches.branchPasses Branches.isMaintenanceRange Inputs.validRangeOf
       None BranchType.prerelease
       (Inputs.branchOf "9007199254740991" BranchType.prerelease (vbool true)
          [])
     = true.
Proof.
  split.
  - rewrite (prerelease_identifier_is_validated Branches.isMaintenanceRange
               Inputs.validRangeOf
               (Inputs.branchOf "rc" BranchType.prerelease (vstr "rc_1") [])
               "rc_1" (or_introl eq_refl) eq_refl eq_refl);
      [reflexivity|cbn; lia].
  - rewrite (prerelease_identifier_is_validated Branches.isMaintenanceRange
               Inputs.validRangeOf
               (Inputs.branchOf "9007199254740991" BranchType.prerelease
                  (vbool true) [])
               "9007199254740991" (or_intror (conj eq_refl eq_refl))
               eq_refl eq_refl);
      [reflexivity|cbn; lia].
Defined.

End IdentifierFacts.

(* ================================================================== *)
(** * What a run throws *)
(* ================================================================== *)

Module BlameFacts.

Import Pipeline Observed TraceFacts PipelineFacts Lifecycle LifecycleFacts.
Import ReleaseFacts Blame.

Ltac here :=
  first [ reflexivity
        | eexists; eassumption
        | eexists; eexists; eassumption ].

Ltac blame := first [ solve [here] | left; solve [here] | right; blame ].

Ltac accuse :=
  first [ left; unfold ownError; solve [blame]
        | right; unfold thrownOutside; solve [blame] ].

Lemma prelude_errors w context history :
  match snd (prelude w context history) with
  | Raise t => ownError t \/ thrownOutside w t
  | _ => True
  end.
Proof.
  set (c := forceDryRun context).
  unfold prelude. fold c. destruct c as [ci o pv bs b rs lr cs nr].
  exploreE; cbn [snd]; try exact I; accuse.
Qed.

Lemma addChannelPath_errors w context branch r history :
  match snd (addChannelPath w context branch r history) with
  | Raise t => ownError t \/ thrownOutside w t
  | _ => True
  end.
Proof.
  destruct context as [ci [dry noci pub vo] pv bs b rs lr cs nr];
    exploreE; cbn [snd]; try exact I; accuse.
Qed.

Lemma newReleasePath_errors w context branch history :
  match snd (newReleasePath w context branch history) with
  | Raise t => ownError t \/ thrownOutside w t
  | _ => True
  end.
Proof.
  destruct context as [ci [dry noci pub vo] pv bs b rs lr cs nr];
    exploreE; cbn [snd]; try exact I; accuse.
Qed.

Lemma afterVerifyConditions_errors w context branch history :
  match snd (afterVerifyConditions w context branch history) with
  | Raise t => ownError t \/ thrownOutside w t
  | _ => True
  end.
Proof.
  unfold afterVerifyConditions, bind, lift.
  destruct (w_getReleaseToAdd w (setReleases context [])) as [[r|]|t] eqn:Eadd;
    cbn [ret throw fst snd app].
  - pose proof (addChannelPath_steps w (setReleases context []) branch r
                  (history ++ [])) as Hsteps.
    pose proof (addChannelPath_errors w (setReleases context []) branch r
                  (history ++ [])) as Herr.
    destruct (addChannelPath w (setReleases context []) branch r
                (history ++ [])) as [d1 o1].
    cbn [snd] in Herr. destruct Hsteps as (_ & _ & Ho1).
    destruct o1 as [[[c1 b1] errors]|r1|t1]; cbn [snd]; [|exact I|exact Herr].
    destruct errors as [|e errors]; cbn [isEmpty].
    + pose proof (newReleasePath_errors w c1 b1 ((history ++ []) ++ d1))
        as Hnew.
      destruct (newReleasePath w c1 b1 ((history ++ []) ++ d1)) as [d2 o2].
      exact Hnew.
    + cbn [throw snd]. destruct Ho1 as (_ & _ & ->).
      left. right. right. reflexivity.
  - cbv beta iota zeta delta [ret throw isEmpty fst snd]; cbn [app].
    pose proof (newReleasePath_errors w (setReleases context []) branch
                  ((history ++ []) ++ [])) as Hnew.
    destruct (newReleasePath w (setReleases context []) branch
                ((history ++ []) ++ [])) as [d2 o2].
    exact Hnew.
  - right. unfold thrownOutside. do 7 right. left. eexists. exact Eadd.
Qed.

(** X26.  What [run] throws is what one of its collaborators threw -- a
    verification, a plugin step, the version calculator, a git command
    other than the push permission probe and the comparison with the
    remote branch, whose errors are never thrown, or [terminalOutput],
    which renders the notes of a dry run -- or one of the three errors
    that [run] makes: EGITNOPERMISSION, EINVALIDNEXTVERSION, and
    EINVALIDMAINTENANCEMERGE in an aggregate. *)
Theorem run_throws_known_errors
  (w : World) (context : Context) (history : Trace) (t : Thrown) :
  snd (run w context history) = Raise t ->
  ownError t \/ thrownOutside w t.
Proof.
  unfold run, bind.
  pose proof (prelude_errors w context history) as Hpre.
  destruct (prelude w context history) as [d0 o0]. cbn [snd] in Hpre.
  destruct o0 as [[c0 b0]|r0|t0]; cbn [fst snd].
  - pose proof (afterVerifyConditions_errors w c0 b0 (history ++ d0)) as Hrun.
    destruct (afterVerifyConditions w c0 b0 (history ++ d0)) as [d1 o1].
    cbn [snd] in *. intros ->. exact Hrun.
  - discriminate.
  - intros [= <-]. exact Hpre.
Qed.

(** In a dry run, [run] throws what [terminalOutput] throws when it
    renders the notes, after the Success step. *)
Lemma dry_run_rendering_failure :
  snd (run (Scenarios.withRendering (Worlds.worldOf Worlds.fixOnMaster)
              (Throw Scenarios.renderingError))
         (Worlds.contextOn "master" true) [])
  = Raise Scenarios.renderingError.
Proof. reflexivity. Qed.

Lemma run_throws_known_errors_witness :
  ownError invalidNextVersionError
  \/ thrownOutside (Worlds.worldOf Worlds.breakingOnMaster)
       invalidNextVersionError.
Proof.
  exact (run_throws_known_errors (Worlds.worldOf Worlds.breakingOnMaster)
           (Worlds.contextOn "master" false) [] invalidNextVersionError
           eq_refl).
Defined.

End BlameFacts.

(* ================================================================== *)
(** * The first prerelease of a line *)
(* ================================================================== *)

Module FreshFacts.

Import SemverFacts NextVersionFacts StringFacts Bumps BumpFacts IdentifierFacts.

(** A triplet followed by [-id.1], cut in its parts. *)
Lemma parse_suffixed ma mi pa id :
  (ma <= Semver.MAX_SAFE_INTEGER)%N ->
  (mi <= Semver.MAX_SAFE_INTEGER)%N ->
  (pa <= Semver.MAX_SAFE_INTEGER)%N ->
  Str.forallb (isNot "+") id = true ->
  Str.forallb (isNot ".") id = true ->
  (String.length id <= 64)%nat ->
  Semver.parse (Semver.formatMain ma mi pa ++ "-" ++ id ++ "." ++ "1")
  = match Semver.prereleaseIdentifier id with
    | Some i => Some (Semver.mkSemVer ma mi pa [i; Semver.INum 1] [])
    | None => None
    end.
Proof.
  intros Hma Hmi Hpa Hplus Hdot Hlen.
  set (main := Semver.formatMain ma mi pa).
  assert (Hmain : forall sep, Str.is_digit sep = false -> sep <> "."%char ->
            Str.forallb (isNot sep) main = true).
  { intros sep Hsep Hne. unfold main, Semver.formatMain.
    rewrite !forallb_app, !(of_N_isNot _ _ Hsep). cbn [Str.forallb].
    unfold isNot. apply not_eq_sym in Hne. apply Ascii.eqb_neq in Hne.
    now rewrite Hne. }
  assert (Hhead : exists d r, main = String d r /\ Str.is_digit d = true).
  { unfold main, Semver.formatMain.
    pose proof (of_N_digits ma) as D. pose proof (of_N_not_empty ma) as NE.
    destruct (Str.of_N ma) as [|d r]; [congruence|].
    apply andb_true_iff in D as [D _]. now exists d, (r ++ "." ++ Str.of_N mi ++ "." ++ Str.of_N pa)%string. }
  destruct Hhead as (d & r & Emain & Hd).
  unfold Semver.parse.
  replace (Semver.MAX_LENGTH <? _)%nat with false.
  2:{ symmetry. apply Nat.ltb_ge. unfold main, Semver.formatMain.
      rewrite !length_app. cbn [String.length].
      pose proof (length_of_N _ Hma). pose proof (length_of_N _ Hmi).
      pose proof (length_of_N _ Hpa). unfold Semver.MAX_LENGTH. lia. }
  assert (Et : (main ++ "-" ++ id ++ "." ++ "1")%string
               = String d ((r ++ "-" ++ id ++ ".") ++ String "1" "")).
  { rewrite Emain. cbn [append]. f_equal.
    rewrite append_assoc. cbn [append]. now rewrite append_assoc. }
  rewrite Et, trim_ends;
    [|apply negb_true_iff, digit_not_space, Hd|reflexivity].
  cbn [Str.stripPrefix].
  replace ("v" =? d)%char with false.
  2:{ symmetry. apply Ascii.eqb_neq. intros <-. discriminate Hd. }
  rewrite <- Et.
  rewrite (cut_absent "+").
  2:{ rewrite !forallb_app, Hplus, (Hmain "+"%char); try reflexivity.
      discriminate. }
  change (main ++ "-" ++ id ++ "." ++ "1")%string
    with (main ++ String "-" (id ++ "." ++ "1"))%string.
  rewrite (cut_app "-") by (apply Hmain; [reflexivity|discriminate]).
  unfold main, Semver.formatMain.
  change ("." ++ Str.of_N mi ++ "." ++ Str.of_N pa)%string
    with (String "." (Str.of_N mi ++ String "." (Str.of_N pa))).
  rewrite !split_app by (apply of_N_isNot; reflexivity).
  rewrite split_absent by (apply of_N_isNot; reflexivity).
  rewrite !mainIdentifier_of_N by assumption.
  unfold Semver.optionalPart.
  change (id ++ "." ++ "1")%string with (id ++ String "." "1")%string.
  rewrite (split_app _ _ _ Hdot).
  replace (Str.split "." "1") with ["1"] by reflexivity.
  cbn [Str.traverse].
  replace (Semver.prereleaseIdentifier "1") with (Some (Semver.INum 1))
    by reflexivity.
  destruct (Semver.prereleaseIdentifier id); reflexivity.
Qed.

Lemma incSemVer_triplet_greater v type :
  isBump type = true ->
  Semver.compareMain (Semver.incSemVer (Terms.triplet v) type) v = Gt.
Proof.
  intros Ht. unfold Semver.compareMain. destruct v as [ma mi pa pre bu].
  destruct type; try discriminate;
    cbn [Semver.incSemVer Semver.incMajor Semver.incMinor Semver.incPatch
         Terms.triplet Semver.major Semver.minor Semver.patch
         Semver.prerelease Semver.isEmpty];
    rewrite ?orb_true_r, ?N.compare_refl.
  - replace (ma + 1 ?= ma)%N with Gt; [reflexivity|].
    symmetry. apply N.compare_gt_iff. lia.
  - replace (mi + 1 ?= mi)%N with Gt; [reflexivity|].
    symmetry. apply N.compare_gt_iff. lia.
  - replace (pa + 1 ?= pa)%N with Gt; [reflexivity|].
    symmetry. apply N.compare_gt_iff. lia.
Qed.

Lemma belowMax_triplet v : belowMax v -> belowMax (Terms.triplet v).
Proof. intros H. exact H. Qed.

(** X27.  On a prerelease branch where the continuation does not apply
    (the last release is no prerelease, or is on another channel), with
    the default identifier base, a valid identifier [id] without [.] and
    [+] and a major, minor or patch bump: the next version is the bumped
    triplet of the last release followed by [-id.1], and it is greater
    than the last release. *)
Theorem fresh_prerelease_increases
  {C} (ctx : NextVersion.Context C) (s : string) (v : Semver.SemVer)
  (id : string) (i : Semver.Ident) :
  LastRelease.version (NextVersion.lastRelease ctx) = vstr s ->
  Semver.parse s = Some v ->
  belowMax v ->
  Branch.type (NextVersion.branch ctx) = Some BranchType.prerelease ->
  Terms.continues ctx = false ->
  Branch.prerelease (NextVersion.branch ctx) = vstr id ->
  Options.prereleaseIdentifierBase (NextVersion.options ctx) = vundefined ->
  Semver.prereleaseIdentifier id = Some i ->
  Str.forallb (isNot "+") id = true ->
  Str.forallb (isNot ".") id = true ->
  (String.length id <= 64)%nat ->
  isBump (NextVersion.type (NextVersion.nextRelease ctx)) = true ->
  exists next,
    NextVersion.getNextVersion ctx = Normal (vstr next)
    /\ Semver.gt next s = Normal true
    /\ Semver.prereleaseOf next = Some [i; Semver.INum 1].
Proof.
  intros Hv Hp Hb Hty Hc Hid Hbase Hi Hplus Hdot Hlen Ht.
  rewrite (getNextVersion_fresh ctx s v Hv Hp Hty Hc).
  rewrite (inc_parsed _ _ _ (parse_triplet _ _ Hp)). cbn [bindC template].
  set (type := if (Semver.major (Terms.triplet v) =? 0)%N then _ else _).
  assert (Hbump : isBump type = true) by (now apply isBump_effective).
  unfold Terms.suffixed, Terms.base. rewrite Hid, Hbase.
  cbn [orDefault template]. unfold NextVersion.DEFAULT_PRERELEASE_IDENTIFIER_BASE.
  eexists. split; [reflexivity|].
  assert (Hparse :
            Semver.parse
              (Semver.format (Semver.incSemVer (Terms.triplet v) type)
               ++ "-" ++ id ++ "." ++ "1")
            = Some (Semver.mkSemVer
                      (Semver.major (Semver.incSemVer (Terms.triplet v) type))
                      (Semver.minor (Semver.incSemVer (Terms.triplet v) type))
                      (Semver.patch (Semver.incSemVer (Terms.triplet v) type))
                      [i; Semver.INum 1] [])).
  { unfold Semver.format. rewrite (incSemVer_plain _ _ Hbump), append_empty.
    destruct (incSemVer_bounds _ _ Hbump (belowMax_triplet _ Hb))
      as (H1 & H2 & H3).
    rewrite (parse_suffixed _ _ _ _ H1 H2 H3 Hplus Hdot Hlen). now rewrite Hi. }
  unfold Semver.gt, Semver.compare, Semver.prereleaseOf.
  rewrite Hparse, Hp. cbn [bindC Semver.prerelease Semver.isEmpty].
  split; [|reflexivity].
  unfold Semver.compareSemVer.
  pose proof (incSemVer_triplet_greater v type Hbump) as Hgt.
  unfold Semver.compareMain in *. cbn [Semver.major Semver.minor Semver.patch].
  now rewrite Hgt.
Qed.

Lemma fresh_prerelease_increases_witness :
  exists next,
    NextVersion.getNextVersion
      (Inputs.contextOf (Inputs.branchOf "beta" BranchType.prerelease
                           (vstr "beta") [])
         Semver.Minor (vstr "beta") (Inputs.lastOf "1.0.0" [vnull]))
    = Normal (vstr next)
    /\ Semver.gt next "1.0.0" = Normal true
    /\ Semver.prereleaseOf next = Some [Semver.IStr "beta"; Semver.INum 1].
Proof.
  apply (fresh_prerelease_increases
           (Inputs.contextOf (Inputs.branchOf "beta" BranchType.prerelease
                                (vstr "beta") [])
              Semver.Minor (vstr "beta") (Inputs.lastOf "1.0.0" [vnull]))
           "1.0.0" (Semver.mkSemVer 1 0 0 [] []) "beta" (Semver.IStr "beta"));
    try reflexivity.
  - repeat split; reflexivity.
  - cbn. lia.
Defined.

End FreshFacts.

(* ================================================================== *)
(** * The range check of the next version *)
(* ================================================================== *)

Module RangeFacts.

Import Pipeline Observed TraceFacts PipelineFacts Lifecycle LifecycleFacts.
Import ReleaseFacts.

(** Splitting on the outcome of the parts of [run], taken as they are. *)
Ltac part :=
  match goal with
  | |- context [let (_, _) := ?m in _] =>
      lazymatch m with
      | context [let (_, _) := _ in _] => fail
      | _ => let d := fresh "d" in let o := fresh "o" in
             destruct m as [d o]; destruct o
      end
  | |- context [match ?x with _ => _ end] =>
      lazymatch x with
      | context [match _ with _ => _ end] => fail
      | _ => destruct x
      end
  end.

(** [run] is [upToVersion], then lines 186-231. *)
Lemma run_from_version w context history :
  run w context history
  = let (d, o) := upToVersion w context history in
    match o with
    | Next (c, b, next, v) =>
        let (d', o') := fromVersion w c b next v (history ++ d) in
        (d ++ d', o')
    | Return r => (d, Return r)
    | Raise t => (d, Raise t)
    end.
Proof.
  unfold run, upToVersion, afterVerifyConditions, newReleasePath.
  cbv beta iota zeta delta [bind lift ret throw].
  repeat (part; cbn [fst snd app isEmpty];
          rewrite ?List.app_nil_r, <- ?List.app_assoc);
    reflexivity.
Qed.

(** The version that [computeVersion] gives is the one of the calculator,
    for the bump size of the analysis. *)
Lemma computeVersion_version w context branch history :
  match snd (computeVersion w context branch history) with
  | Next (c, next, v) =>
      exists last t,
        type next = Some t
        /\ NextVersion.getNextVersion
             (versionContext c branch last t (channel next)) = Normal v
  | _ => True
  end.
Proof.
  destruct context as [ci [dry noci pub vo] pv bs b rs lr cs nr];
    exploreE; cbn [snd]; try exact I;
    eexists _, _; (split; [reflexivity|]); eassumption.
Qed.

(** The branch and the version that [run] has at line 185. *)
Lemma upToVersion_point w context history :
  match snd (upToVersion w context history) with
  | Next (c, b, next, v) =>
      exists branches found last t,
        w_getBranches w
          (history ++ [EvVerify; EvGetGitAuthUrl; EvGetBranches])
        = Normal branches
        /\ List.find (fun b => Branch.name b =? triggeredOn context) branches
           = Some found
        /\ samePolicy found b
        /\ type next = Some t
        /\ NextVersion.getNextVersion
             (versionContext c b last t (channel next)) = Normal v
  | _ => True
  end.
Proof.
  unfold upToVersion. cbv beta iota zeta delta [bind lift ret throw].
  pose proof (prelude_branch w context history) as Hbr.
  destruct (prelude w context history) as [d0 [[c0 b0]|r0|t0]];
    cbn [fst snd] in *; try exact I.
  destruct Hbr as (branches & Hget & Hfind).
  destruct (w_getReleaseToAdd w (setReleases c0 [])) as [[r|]|t];
    cbn [fst snd app]; try exact I.
  - pose proof (addChannelPath_branch w (setReleases c0 []) b0 r
                  ((history ++ d0) ++ [])) as Hpol.
    destruct (addChannelPath w (setReleases c0 []) b0 r
                ((history ++ d0) ++ [])) as [d1 [[[c1 b1] errors]|r1|t1]];
      cbn [fst snd] in *; try exact I.
    destruct errors; cbn [isEmpty snd]; try exact I.
    pose proof (computeVersion_version w c1 b1
                  (((history ++ d0) ++ []) ++ d1)) as Hv.
    destruct (computeVersion w c1 b1 (((history ++ d0) ++ []) ++ d1))
      as [d2 [[[c2 n2] v2]|r2|t2]]; cbn [fst snd] in *; try exact I.
    destruct Hv as (last & t & Ht & Hv).
    exists branches, b0, last, t. repeat (split; [assumption|]). exact Hv.
  - cbv beta iota zeta delta [isEmpty].
    pose proof (computeVersion_version w (setReleases c0 []) b0
                  (((history ++ d0) ++ []) ++ [])) as Hv.
    destruct (computeVersion w (setReleases c0 []) b0
                (((history ++ d0) ++ []) ++ []))
      as [d2 [[[c2 n2] v2]|r2|t2]]; cbn [fst snd] in *; try exact I.
    destruct Hv as (last & t & Ht & Hv).
    exists branches, b0, last, t. repeat (split; [assumption|]).
    split; [repeat split|]. split; assumption.
Qed.

Lemma invalidNextVersion_iff w b next :
  invalidNextVersion w b next = true
  <-> Branch.type b <> Some BranchType.prerelease
      /\ w_satisfies w (version next) (Branch.range b) = false.
Proof.
  unfold invalidNextVersion, isPrereleaseBranch.
  destruct (Branch.type b) as [[]|];
    destruct (w_satisfies w (version next) (Branch.range b)); cbn;
    split; try discriminate; try (intros [? ?]; congruence);
    try (intros _; split; [discriminate|reflexivity]).
Qed.

(** C6, as amended.  When [run] has computed the next version [v] (line
    185) for the current branch [b] -- the validated branch named as the
    branch that triggered the run, with the tags added since -- it throws
    the error EINVALIDNEXTVERSION there, and does nothing more, exactly
    when [b] is not a prerelease branch -- a maintenance branch or a
    release branch -- and [v] does not satisfy the range of [b]; on a
    prerelease branch, and when [v] satisfies the range, [run] goes on
    with the VerifyRelease step. *)
Theorem next_version_range_check
  (w : World) (context : Context) (history : Trace)
  (d : Trace) (c : Context) (b : Branch) (next : NextRelease) (v : Value) :
  upToVersion w context history = (d, Next (c, b, next, v)) ->
  let invalid :=
    Branch.type b <> Some BranchType.prerelease
    /\ w_satisfies w v (Branch.range b) = false in
  (exists branches found last t,
     w_getBranches w (history ++ [EvVerify; EvGetGitAuthUrl; EvGetBranches])
     = Normal branches
     /\ List.find (fun b => Branch.name b =? triggeredOn context) branches
        = Some found
     /\ samePolicy found b
     /\ type next = Some t
     /\ NextVersion.getNextVersion
          (versionContext c b last t (channel next)) = Normal v)
  /\ (run w context history = (d, Raise invalidNextVersionError) <-> invalid)
  /\ (~ invalid ->
      exists d',
        fst (run w context history) = d ++ EvPlugin verifyRelease :: d').
Proof.
  intros Hup invalid.
  pose proof (upToVersion_point w context history) as Hpoint.
  rewrite run_from_version, Hup. rewrite Hup in Hpoint. cbn [snd] in Hpoint.
  split; [exact Hpoint|].
  unfold fromVersion.
  match goal with
  | |- context [invalidNextVersion w b ?n] =>
      pose proof (invalidNextVersion_iff w b n) as Hiff;
      destruct (invalidNextVersion w b n) eqn:E
  end; cbn [version] in Hiff; fold invalid in Hiff.
  - cbv beta iota zeta delta [throw]. rewrite List.app_nil_r.
    split; [split; [intros _; now apply Hiff|reflexivity]|].
    intros N. exfalso. apply N. now apply Hiff.
  - assert (N : ~ invalid) by (intros I; apply Hiff in I; discriminate).
    match goal with
    | |- context [publishRelease w ?c' ?n' ?h'] =>
        destruct (publishRelease_starts w c' n' h') as [d' Hd'];
        destruct (publishRelease w c' n' h') as [d1 o1]
    end.
    cbn [fst] in *. subst d1. split.
    + split; [|intros I; contradiction].
      intros F. injection F as F _.
      apply (f_equal (@length Event)) in F.
      rewrite List.length_app in F. cbn [length] in F. lia.
    + intros _. now exists d'.
Qed.

Lemma next_version_range_check_witness :
  run (Worlds.worldOf Worlds.breakingOnMaster)
    (Worlds.contextOn "master" false) []
  = (fst (fst (fst (fst Scenarios.breakingPoint))),
     Raise invalidNextVersionError)
  /\ exists d',
       fst (run (Worlds.worldOf Worlds.fixOnMaster)
              (Worlds.contextOn "master" false) [])
       = fst (fst (fst (fst Scenarios.fixPoint)))
         ++ EvPlugin verifyRelease :: d'.
Proof.
  split.
  - apply (proj1 (proj2 (next_version_range_check
             (Worlds.worldOf Worlds.breakingOnMaster)
             (Worlds.contextOn "master" false) []
             (fst (fst (fst (fst Scenarios.breakingPoint))))
             (snd (fst (fst (fst Scenarios.breakingPoint))))
             (snd (fst (fst Scenarios.breakingPoint)))
             (snd (fst Scenarios.breakingPoint))
             (snd Scenarios.breakingPoint) eq_refl))).
    split; [discriminate|reflexivity].
  - apply (proj2 (proj2 (next_version_range_check
             (Worlds.worldOf Worlds.fixOnMaster)
             (Worlds.contextOn "master" false) []
             (fst (fst (fst (fst Scenarios.fixPoint))))
             (snd (fst (fst (fst Scenarios.fixPoint))))
             (snd (fst (fst Scenarios.fixPoint)))
             (snd (fst Scenarios.fixPoint))
             (snd Scenarios.fixPoint) eq_refl))).
    intros [_ H]. discriminate H.
Defined.

End RangeFacts.

(* ================================================================== *)
(** * The Fail path and the log of the errors *)
(* ================================================================== *)

Module FailFacts.

Import Pipeline Observed TraceFacts PipelineFacts Lifecycle LifecycleFacts.

(** ** The order of [sort] *)






(** ** What is logged *)

Lemma loggedErrors_app a b :
  loggedErrors (a ++ b) = loggedErrors a ++ loggedErrors b.
Proof.
  induction a as [|e a IH]; [reflexivity|].
  destruct e; cbn [app loggedErrors]; rewrite IH; reflexivity.
Qed.


Lemma ofLog_quiet d :
  forallb ofLog d = true ->
  failInvocations d = []
  /\ forallb (fun e => negb (isUnhook e)) d = true.
Proof.
  induction d as [|e d IH]; [now split|]. cbn [forallb].
  intros H. apply andb_true_iff in H as [He H]. destruct (IH H) as [Hf Hu].
  destruct e; try discriminate He; cbn; now split.
Qed.

Lemma ofRun_quiet d :
  forallb ofRun d = true ->
  failInvocations d = [] /\ loggedErrors d = []
  /\ forallb (fun e => negb (isUnhook e)) d = true.
Proof.
  induction d as [|e d IH]; [now repeat split|]. cbn [forallb].
  intros H. apply andb_true_iff in H as [He H].
  destruct (IH H) as (Hf & Hl & Hu).
  destruct e; try discriminate He; cbn; now repeat split.
Qed.

(** The log of one error. *)
Lemma logError_spec w error h :
  let (d, o) := logError w error h in
  forallb ofLog d = true
  /\ loggedErrors d = [error]
  /\ match o with
     | Next _ => True
     | Return _ => False
     | Raise t => renderingFailed w t
     end
  /\ (rendering w -> o = Next tt).
Proof.
  unfold logError. cbv beta iota zeta delta [bind emit call ret].
  destruct (err_semanticRelease error && err_details error); cbn [app].
  - destruct (w_terminalOutput w _) as [text|t] eqn:E; cbn [app].
    + repeat split; intros; reflexivity.
    + repeat split; try reflexivity; [eexists; exact E|].
      intros H. destruct (H ((h ++ [EvLogError error])
                              ++ [EvTerminalOutput (OfDetails error)]))
        as [text F]. congruence.
  - repeat split; intros; reflexivity.
Qed.

(** The log of the errors, in order: all of them, or those up to the
    one whose details [terminalOutput] fails to render. *)
Lemma logEach_spec w errors h :
  let (d, o) := logEach w errors h in
  forallb ofLog d = true
  /\ match o with
     | Next _ => loggedErrors d = errors
     | Return _ => False
     | Raise t => renderingFailed w t /\ prefixOf (loggedErrors d) errors
     end
  /\ (rendering w -> o = Next tt).
Proof.
  revert h. induction errors as [|e errors IH]; intros h.
  - cbn. repeat split; intros; reflexivity.
  - cbn [logEach]. unfold bind.
    pose proof (logError_spec w e h) as H1.
    destruct (logError w e h) as [d1 o1].
    destruct H1 as (Hl1 & He1 & Ho1 & Hr1).
    destruct o1 as [[]|r|t].
    + specialize (IH (h ++ d1)).
      destruct (logEach w errors (h ++ d1)) as [d2 o2].
      destruct IH as (Hl2 & Ho2 & Hr2).
      rewrite forallb_app, Hl1, Hl2, loggedErrors_app, He1.
      split; [reflexivity|]. split; [|exact Hr2].
      destruct o2 as [[]|r|t]; [now rewrite Ho2|exact Ho2|].
      destruct Ho2 as [Hf Hp]. split; [exact Hf|].
      exact (prefixOf_app [e] _ _ Hp).
    + contradiction.
    + split; [exact Hl1|]. split.
      * split; [exact Ho1|]. rewrite He1. now exists errors.
      * intros H. specialize (Hr1 H). discriminate Hr1.
Qed.

Lemma logErrors_spec w err h :
  let (d, o) := logErrors w err h in
  forallb ofLog d = true
  /\ match o with
     | Next _ => loggedErrors d = errorsToLog w err
     | Return _ => False
     | Raise t =>
         renderingFailed w t /\ prefixOf (loggedErrors d) (errorsToLog w err)
     end
  /\ (rendering w -> o = Next tt).
Proof. apply logEach_spec. Qed.

(** ** The Fail path *)

(** Lines 248-257. *)
Lemma callFail_spec w err h :
  let (d, o) := callFail w err h in
  failInvocations d
  = (if isEmpty (failErrors err) then [] else [failErrors err])
  /\ forallb (fun e => negb (isUnhook e)) d = true
  /\ match o with
     | Next _ =>
         loggedErrors d
         = match failStepError w h err with
           | Some failure => errorsToLog w failure
           | None => []
           end
     | Return _ => False
     | Raise t => renderingFailed w t
     end
  /\ (rendering w -> o = Next tt).
Proof.
  unfold callFail, failStepError. fold (failErrors err).
  destruct (failErrors err) as [|e errors] eqn:Ef; cbn [isEmpty].
  - cbn. repeat split; intros; reflexivity.
  - cbv beta iota zeta delta [tryCatch bind call emit ret]. cbn [app].
    destruct (w_step w fail (h ++ [EvPluginFail (e :: errors)]))
      as [[]|failure]; cbn [app].
    + repeat split; intros; reflexivity.
    + pose proof (logErrors_spec w failure
                    (h ++ [EvPluginFail (e :: errors)])) as Hlog.
      destruct (logErrors w failure (h ++ [EvPluginFail (e :: errors)]))
        as [d o].
      destruct Hlog as (Hl & Ho & Hr). destruct (ofLog_quiet _ Hl) as [Hf Hu].
      cbn [app failInvocations loggedErrors forallb isUnhook negb andb].
      rewrite Hf, Hu. split; [reflexivity|]. split; [reflexivity|].
      split; [|exact Hr].
      destruct o as [[]|r|t]; [exact Ho|exact Ho|exact (proj1 Ho)].
Qed.

(** The outer [catch]. *)
Lemma caught_spec w h error :
  let (events, outcome) := caught w h error in
  exists d o,
    logErrors w error h = (d, o)
    /\ match o with
       | Raise t =>
           events = h ++ d /\ outcome = Raise t /\ renderingFailed w t
       | _ => events = (h ++ d) ++ [EvUnhook] /\ outcome = Raise error
              /\ o = Next tt
       end
    /\ forallb ofLog d = true
    /\ match o with
       | Next _ => loggedErrors d = errorsToLog w error
       | _ => True
       end
    /\ (rendering w -> o = Next tt).
Proof.
  unfold caught.
  pose proof (logErrors_spec w error h) as Hlog.
  destruct (logErrors w error h) as [d o]. destruct Hlog as (Hl & Ho & Hr).
  destruct o as [[]|r|t].
  - exists d, (Next tt). rewrite List.app_assoc. now repeat split.
  - contradiction.
  - exists d, (Raise t). repeat split; try assumption. exact (proj1 Ho).
Qed.

Ltac logged :=
  match goal with
  | |- context [logErrors ?w ?e ?h] =>
      let H := fresh "H" in
      pose proof (logErrors_spec w e h) as H;
      destruct (logErrors w e h) as [? [[]|?|?]];
      [|destruct H as (_ & [] & _)|]; clear H
  end.

(** What the default export does around [run]. *)
Lemma main_trace w context :
  main w context []
  = match w_getConfig w [EvGetConfig] with
    | Throw error => caught w [EvGetConfig] error
    | Normal _ =>
        let (d, o) := run w context [EvGetConfig] in
        match o with
        | Next r | Return r => (EvGetConfig :: d ++ [EvUnhook], Next r)
        | Raise err =>
            let (df, o') := callFail w err (EvGetConfig :: d) in
            caught w (EvGetConfig :: d ++ df)
              match o' with
              | Raise t => t
              | _ => err
              end
        end
    end.
Proof.
  cbv beta iota zeta
      delta [main resolved tryCatch bind call emit throw ret caught].
  cbn [app]. destruct (w_getConfig w [EvGetConfig]).
  - destruct (run w context [EvGetConfig]) as [d o].
    destruct o as [r|r|err]; cbn [app]; rewrite ?List.app_nil_r;
      try reflexivity.
    pose proof (callFail_spec w err (EvGetConfig :: d)) as Hf.
    destruct (callFail w err (EvGetConfig :: d)) as [df [[]|r|t]];
      [|destruct Hf as (_ & _ & [] & _)|]; clear Hf;
      cbn [app]; rewrite ?List.app_nil_r; logged;
      cbn [app]; rewrite ?List.app_nil_r, <- ?List.app_assoc; reflexivity.
  - logged; reflexivity.
Qed.




(** When the Fail step throws a semantic-release error with details and
    [terminalOutput] throws, the error of [terminalOutput] is what the
    caller gets, in place of the error that [run] threw. *)
Lemma rendering_failure_replaces_error :
  snd (run Scenarios.noRendering (Worlds.contextOn "master" false)
         [EvGetConfig])
  = Raise (Single Worlds.missingToken)
  /\ snd (main Scenarios.noRendering (Worlds.contextOn "master" false) [])
     = Raise Scenarios.renderingError.
Proof. split; reflexivity. Qed.

(** When [terminalOutput] throws while the error that [run] threw is
    logged, the default export throws the error of [terminalOutput] and
    does not call [unhook]. *)
Lemma rendering_failure_skips_unhook :
  snd (main Scenarios.brokenRendering (Worlds.contextOn "master" false) [])
  = Raise Scenarios.renderingError
  /\ existsb isUnhook
       (fst (main Scenarios.brokenRendering
               (Worlds.contextOn "master" false) [])) = false.
Proof. split; reflexivity. Qed.

(** X5.  The default export calls [unhook] at most once, and then as the last
    thing it does.  It calls it whenever it resolves, and then nothing was
    logged.  When it throws [error], either [error] was logged, to the
    end, and [unhook] called after that, or [unhook] was not called at
    all: this when the last thing done was a log that [terminalOutput]
    broke by throwing [error]. *)
Theorem streams_restored_once (w : World) (context : Context) :
  let events := fst (main w context []) in
  exists before,
    forallb (fun e => negb (isUnhook e)) before = true
    /\ match snd (main w context []) with
       | Next _ => events = before ++ [EvUnhook] /\ loggedErrors before = []
       | Return _ => False
       | Raise error =>
           (events = before ++ [EvUnhook]
            /\ exists h d,
                 before = h ++ d /\ logErrors w error h = (d, Next tt))
           \/ (events = before
               /\ renderingFailed w error
               /\ exists logged h d,
                    before = h ++ d
                    /\ logErrors w logged h = (d, Raise error))
       end.
Proof.
  cbv zeta.
  assert (Hcaught : forall h e,
            forallb (fun e => negb (isUnhook e)) h = true ->
            exists before,
              forallb (fun e => negb (isUnhook e)) before = true
              /\ match snd (caught w h e) with
                 | Next _ =>
                     fst (caught w h e) = before ++ [EvUnhook]
                     /\ loggedErrors before = []
                 | Return _ => False
                 | Raise error =>
                     (fst (caught w h e) = before ++ [EvUnhook]
                      /\ exists h' d,
                           before = h' ++ d
                           /\ logErrors w error h' = (d, Next tt))
                     \/ (fst (caught w h e) = before
                         /\ renderingFailed w error
                         /\ exists logged h' d,
                              before = h' ++ d
                              /\ logErrors w logged h' = (d, Raise error))
                 end).
  { intros h e Hh.
    pose proof (caught_spec w h e) as Hc.
    destruct (caught w h e) as [events outcome].
    destruct Hc as (dl & ol & Hrun & Hol & Hlog & _).
    destruct (ofLog_quiet _ Hlog) as [_ Hu]. cbn [fst snd].
    exists (h ++ dl). rewrite forallb_app, Hh, Hu. split; [reflexivity|].
    destruct ol as [[]|r|t].
    - destruct Hol as (-> & -> & _). left. split; [reflexivity|].
      now exists h, dl.
    - destruct Hol as (_ & _ & F). discriminate F.
    - destruct Hol as (-> & -> & Hf). right. split; [reflexivity|].
      split; [exact Hf|]. now exists e, h, dl. }
  rewrite main_trace.
  destruct (w_getConfig w [EvGetConfig]) as [[]|error].
  - pose proof (run_steps w context [EvGetConfig]) as Hsteps.
    destruct (run w context [EvGetConfig]) as [d o].
    destruct Hsteps as (Hof & _).
    destruct (ofRun_quiet _ Hof) as (_ & Hld & Hud).
    destruct o as [r|r|err]; cbn [fst snd].
    + exists (EvGetConfig :: d). cbn [forallb isUnhook negb andb loggedErrors].
      now repeat split.
    + exists (EvGetConfig :: d). cbn [forallb isUnhook negb andb loggedErrors].
      now repeat split.
    + pose proof (callFail_spec w err (EvGetConfig :: d)) as Hfail.
      destruct (callFail w err (EvGetConfig :: d)) as [df o'].
      destruct Hfail as (_ & Huf & _).
      apply Hcaught.
      cbn [forallb isUnhook negb andb]. now rewrite forallb_app, Hud, Huf.
  - apply Hcaught. reflexivity.
Qed.

End FailFacts.
